(** * YoungTools: Young diagrams in a box, their binary codes and cyclic orbits

    A shallow embedding of [young/diagram.py] (class [YoungDiagram]) and
    [young/diagrams.py] (class [YoungDiagrams]).

    Python integers are unbounded and are modelled by [Z]; tuples of integers
    by [list Z]; strings by [list ascii]; the exact rationals of Sage by [Q].
    A Python call either returns a value or raises: this is the type
    [result].  A generator is the list of the values it yields together with
    the way it ends ([gen]). *)

From Stdlib Require Import ZArith List Sorted Ascii Bool Lia QArith Qround.
Import ListNotations.
Local Open Scope Z_scope.

(** ** Exceptions and results *)

Inductive exn : Set :=
| AssertionError
| NotImplementedError
| IndexError.

Inductive result (A : Type) : Type :=
| Ok (a : A)
| Raise (e : exn).
Arguments Ok {A} a.
Arguments Raise {A} e.

Definition bind {A B : Type} (r : result A) (k : A -> result B) : result B :=
  match r with
  | Ok a => k a
  | Raise e => Raise e
  end.

Notation "x <- r ;; k" := (bind r (fun x => k))
  (at level 61, r at next level, right associativity).

(** [assert b] *)
Definition assert (b : bool) : result unit :=
  if b then Ok tt else Raise AssertionError.

Notation "'assert!' b ;; k" := (bind (assert b) (fun _ => k))
  (at level 61, b at next level, right associativity).

(** ** Python primitives *)

Definition len {A : Type} (l : list A) : Z := Z.of_nat (length l).

(** [range(n)] *)
Definition range (n : Z) : list Z := map Z.of_nat (seq 0 (Z.to_nat n)).

(** [enumerate(l)] *)
Definition enumerate {A : Type} (l : list A) : list (Z * A) :=
  combine (range (len l)) l.

(** [t[i]] on a tuple: a negative index counts from the end, an index out of
    range raises [IndexError]. *)
Definition getitem (t : list Z) (i : Z) : result Z :=
  let j := if i <? 0 then i + len t else i in
  if (0 <=? j) && (j <? len t) then Ok (nth (Z.to_nat j) t 0)
  else Raise IndexError.

(** The bound of a slice, as Python clamps it. *)
Definition slice_bound (n i : Z) : nat :=
  Z.to_nat (if i <? 0 then Z.max (i + n) 0 else Z.min i n).

(** [s[a:]] *)
Definition slice_from {A : Type} (s : list A) (a : Z) : list A :=
  skipn (slice_bound (len s) a) s.

(** [s[:b]] *)
Definition slice_to {A : Type} (s : list A) (b : Z) : list A :=
  firstn (slice_bound (len s) b) s.

(** [s.count(c)] for a one-character [c] *)
Definition count (c : ascii) (s : list ascii) : Z :=
  len (filter (Ascii.eqb c) s).

(** [sum(l)] *)
Definition sum (l : list Z) : Z := fold_right Z.add 0 l.

Definition tuple_eqb (a b : list Z) : bool :=
  if list_eq_dec Z.eq_dec a b then true else false.

Definition str_eqb (a b : list ascii) : bool :=
  if list_eq_dec ascii_dec a b then true else false.

Definition U : ascii := "U"%char.
Definition R : ascii := "R"%char.

(** ** class YoungDiagram *)

Module Diagram.

Record YoungDiagram : Type := mkYoungDiagram {
  _height : Z;
  _width : Z;
  _n : Z;
  _usual_description : list Z;
  _binary_description : list ascii
}.

(** The loop of [__init__] over [enumerate(usual_description)]. *)
Fixpoint check_rows (previous_row_length : Z) (rows : list Z) (stock : list Z)
  : result (list Z) :=
  match rows with
  | [] => Ok stock
  | row_length :: rest =>
      assert! (0 <=? row_length) ;;
      assert! (row_length <=? previous_row_length) ;;
      check_rows row_length rest (stock ++ [row_length])
  end.

(** The loop of [__init__] over [range(self._n)] that walks along the
    boundary of the diagram; [steps] is the number of iterations left. *)
Fixpoint walk (usual_description : list Z) (steps : nat) (x y : Z)
  : result (list ascii) :=
  match steps with
  | O => Ok []
  | S steps' =>
      if y =? 0 then
        rest <- walk usual_description steps' x y ;;
        Ok (R :: rest)
      else
        row <- getitem usual_description (y - 1) ;;
        if x <? row then
          rest <- walk usual_description steps' (x + 1) y ;;
          Ok (R :: rest)
        else
          rest <- walk usual_description steps' x (y - 1) ;;
          Ok (U :: rest)
  end.

Definition __init__ (height width : Z) (usual_description : list Z)
  : result YoungDiagram :=
  assert! (0 <=? height) ;;
  assert! (0 <=? width) ;;
  let n := height + width in
  assert! (len usual_description <=? height) ;;
  stock <- check_rows width usual_description [] ;;
  let usual := stock ++ repeat 0 (Z.to_nat (height - len stock)) in
  binary <- walk usual (Z.to_nat n) 0 height ;;
  Ok (mkYoungDiagram height width n usual binary).

(** The loop of [Construct_From_Binary_Description] over the characters. *)
Fixpoint column_heights_from (column_height : Z) (string : list ascii)
  : list Z :=
  match string with
  | [] => []
  | value :: rest =>
      if Ascii.eqb value U then column_heights_from (column_height - 1) rest
      else if Ascii.eqb value R then
        column_height :: column_heights_from column_height rest
      else column_heights_from column_height rest
  end.

Definition row_width (column_heights : list Z) (row_counter : Z) : Z :=
  sum (map (fun _ => 1)
         (filter (fun column_height => row_counter <=? column_height - 1)
            column_heights)).

Definition Construct_From_Binary_Description (string : list ascii)
  : result YoungDiagram :=
  let n := len string in
  let height := count U string in
  let width := count R string in
  assert! (n =? height + width) ;;
  let column_heights := column_heights_from height string in
  let row_widths := map (row_width column_heights) (range height) in
  __init__ height width row_widths.

(** [__repr__]: the triple that [__eq__] compares. *)
Definition __repr__ (self : YoungDiagram) : Z * Z * list Z :=
  (_height self, _width self, _usual_description self).

Definition __eq__ (self other : YoungDiagram) : bool :=
  (_height self =? _height other) && (_width self =? _width other)
  && tuple_eqb (_usual_description self) (_usual_description other).

(** The loop of [__lt__] over [range(self._height)]. *)
Fixpoint lt_rows (self other : YoungDiagram) (row_counters : list Z)
  : result bool :=
  match row_counters with
  | [] => Ok false
  | row_counter :: rest =>
      e1 <- getitem (_usual_description self) row_counter ;;
      e2 <- getitem (_usual_description other) row_counter ;;
      if e1 <? e2 then Ok true
      else if e1 =? e2 then lt_rows self other rest
      else Ok false
  end.

Definition __lt__ (self other : YoungDiagram) : result bool :=
  assert! (_height self =? _height other) ;;
  assert! (_width self =? _width other) ;;
  lt_rows self other (range (_height self)).

Definition row_lengths (self : YoungDiagram) : list Z :=
  _usual_description self.

Definition volume (self : YoungDiagram) : Z :=
  sum (_usual_description self).

Definition complement (self : YoungDiagram) : result YoungDiagram :=
  let old := _binary_description self in
  let new := rev old in
  Construct_From_Binary_Description new.

Definition cyclic_action (self : YoungDiagram) (steps : Z)
  : result YoungDiagram :=
  if 0 <? _n self then
    let steps := steps mod _n self in
    let old := _binary_description self in
    let new := slice_from old (_n self - steps) ++ slice_to old (- steps) in
    Construct_From_Binary_Description new
  else Raise NotImplementedError.

Definition __rshift__ (self : YoungDiagram) (step : Z) : result YoungDiagram :=
  cyclic_action self step.

(** The way a generator ends: it returns, it raises, or the model ran out of
    fuel before it did either. *)
Inductive ending : Set :=
| Finished
| Raised (e : exn)
| OutOfFuel.

(** A generator: what it yields, in order, and how it ends. *)
Definition gen (A : Type) : Type := (list A * ending)%type.

(** The [while True] loop of [cyclic_orbit]. *)
Fixpoint cyclic_orbit_loop (fuel : nat) (first_object current_object : YoungDiagram)
  : gen YoungDiagram :=
  match fuel with
  | O => ([], OutOfFuel)
  | S fuel' =>
      match __rshift__ current_object 1 with
      | Raise e => ([current_object], Raised e)
      | Ok next_object =>
          if __eq__ next_object first_object then ([current_object], Finished)
          else
            let (rest, e) := cyclic_orbit_loop fuel' first_object next_object in
            (current_object :: rest, e)
      end
  end.

Definition cyclic_orbit (fuel : nat) (self : YoungDiagram) : gen YoungDiagram :=
  cyclic_orbit_loop fuel self self.

(** The quotient in [is_upper_triangular] is the exact rational of Sage. *)
Definition is_upper_triangular (self : YoungDiagram) : result bool :=
  if 0 <? _height self then
    let stock :=
      map (fun '(row_counter, row_length) =>
             Qle_bool (inject_Z row_length)
               (inject_Z (_width self * (_height self - row_counter))
                / inject_Z (_height self)))
          (enumerate (_usual_description self)) in
    Ok (negb (existsb (Bool.eqb false) stock))
  else Raise NotImplementedError.

Definition is_lower_triangular (self : YoungDiagram) : result bool :=
  c <- complement self ;;
  is_upper_triangular c.

(** One turn of the loop of [orbit_length] on the string. *)
Definition shift_string (n : Z) (previous_string : list ascii) : list ascii :=
  slice_from previous_string (n - 1) ++ slice_to previous_string (- 1).

(** The [while True] loop of [orbit_length]; [None] when the fuel runs out. *)
Fixpoint orbit_length_loop (fuel : nat) (n : Z)
  (initial_string previous_string : list ascii) (counter : Z) : option Z :=
  match fuel with
  | O => None
  | S fuel' =>
      let counter := counter + 1 in
      let next_string := shift_string n previous_string in
      if str_eqb next_string initial_string then Some counter
      else orbit_length_loop fuel' n initial_string next_string counter
  end.

Definition orbit_length (fuel : nat) (self : YoungDiagram) : option Z :=
  let initial_string := _binary_description self in
  orbit_length_loop fuel (_n self) initial_string initial_string 0.

Definition slope (self : YoungDiagram) : result Q :=
  if 0 <? _width self then
    Ok (inject_Z (_height self) / inject_Z (_width self))%Q
  else Raise NotImplementedError.

(** The loop [while steps < self._n] of [steps_to_next_lower_triangular];
    [remaining] is [self._n - steps], the number of turns left.  Falling out
    of the loop returns [None]. *)
Fixpoint steps_loop (remaining : nat) (steps : Z) (current : YoungDiagram)
  : result (option Z) :=
  match remaining with
  | O => Ok None
  | S remaining' =>
      lower <- is_lower_triangular current ;;
      if lower then Ok (Some steps)
      else
        next <- __rshift__ current 1 ;;
        steps_loop remaining' (steps + 1) next
  end.

Definition steps_to_next_lower_triangular (self : YoungDiagram)
  : result (option Z) :=
  steps_loop (Z.to_nat (_n self)) 0 self.

(** [__mul__]: the binary descriptions are concatenated and decoded. *)
Definition __mul__ (self other : YoungDiagram) : result YoungDiagram :=
  Construct_From_Binary_Description
    (_binary_description self ++ _binary_description other).

(** [__gt__] *)
Definition __gt__ (self other : YoungDiagram) : result bool :=
  __lt__ other self.

(** [__le__]: the right operand of [or] is evaluated only when the left one
    is false. *)
Definition __le__ (self other : YoungDiagram) : result bool :=
  if __eq__ self other then Ok true else __lt__ self other.

(** [__ge__] *)
Definition __ge__ (self other : YoungDiagram) : result bool :=
  if __eq__ self other then Ok true else __gt__ self other.

Definition __len__ (self : YoungDiagram) : Z := _n self.

Definition column_lengths (self : YoungDiagram) : list Z :=
  map (fun column_counter =>
         sum (map (fun _ => 1)
                (filter (fun row_length => column_counter <=? row_length - 1)
                   (row_lengths self))))
    (range (_width self)).

Definition transpose (self : YoungDiagram) : result YoungDiagram :=
  __init__ (_width self) (_height self) (column_lengths self).

(** A call that may also raise [ValueError], which only [max] of an empty
    tuple does. *)
Inductive or_ValueError (A : Type) : Type :=
| NoValueError (a : A)
| ValueError.
Arguments NoValueError {A} a.
Arguments ValueError {A}.

(** [max(mu)] *)
Definition max (mu : list Z) : or_ValueError Z :=
  match mu with
  | [] => ValueError
  | entry :: rest => NoValueError (fold_left Z.max rest entry)
  end.

Definition Construct_From_Usual_Description (mu : list Z)
  : or_ValueError (result YoungDiagram) :=
  let height := len mu in
  match max mu with
  | ValueError => ValueError
  | NoValueError width => NoValueError (__init__ height width mu)
  end.

End Diagram.
Import Diagram.

(** ** class YoungDiagrams *)

(** A generator expression [(f(x) for x in xs)]: the values are computed one
    at a time, so that the first call that raises ends the generator after the
    earlier values were yielded. *)
Fixpoint generate {A : Type} (calls : list (result A)) : gen A :=
  match calls with
  | [] => ([], Finished)
  | Ok a :: rest => let (yielded, e) := generate rest in (a :: yielded, e)
  | Raise e :: _ => ([], Raised e)
  end.

(** The lists of [IntegerListsLex] whose first part is at most [bound]: each
    part lies between 0 and its ceiling and is at most the part before it
    ([max_slope=0]); larger first parts come first. *)
Fixpoint lists_below (length : nat) (ceiling : list Z) (bound : Z)
  : list (list Z) :=
  match length with
  | O => [[]]
  | S length' =>
      let top := match ceiling with
                 | [] => bound
                 | c :: _ => Z.min c bound
                 end in
      flat_map (fun part => map (cons part) (lists_below length' (tl ceiling) part))
        (rev (range (top + 1)))
  end.

(** Modelled from the spec: [IntegerListsLex] is Sage's and is not in this
    repository.  With [max_part], [length], [ceiling] and [max_slope=0] it
    lists all weakly-decreasing integer sequences of that length with entries
    in [0, max_part], each entry bounded above by its ceiling; Sage lists them
    in inverse lexicographic order, the largest first. *)
Definition IntegerListsLex (max_part length : Z) (ceiling : list Z)
  : list (list Z) :=
  lists_below (Z.to_nat length) ceiling max_part.

Module Diagrams.

Record YoungDiagrams : Type := mkYoungDiagrams {
  _height : Z;
  _width : Z;
  _n : Z
}.

Definition __init__ (height width : Z) : result YoungDiagrams :=
  assert! (0 <=? height) ;;
  assert! (0 <=? width) ;;
  Ok (mkYoungDiagrams height width (height + width)).

Definition get_upper_triangulars (self : YoungDiagrams)
  : result (gen YoungDiagram) :=
  if 0 <? _height self then
    let ceiling :=
      map (fun row_counter =>
             Qfloor (inject_Z (_width self * (_height self - row_counter - 1))
                     / inject_Z (_height self)))
          (range (_height self)) in
    let usual_descriptions :=
      IntegerListsLex (_width self) (_height self) ceiling in
    let usual_descriptions := rev usual_descriptions in
    Ok (generate
          (map (fun usual_description =>
                  Diagram.__init__ (_width self) (_height self) usual_description)
             usual_descriptions))
  else Raise NotImplementedError.

(** The loop [for fellow in YD.cyclic_orbit()] on the fellows yielded. *)
Fixpoint scan_orbit (fellows : list YoungDiagram)
  (minimal_object : YoungDiagram) (cyclic_orbit : list YoungDiagram)
  : result (YoungDiagram * list YoungDiagram) :=
  match fellows with
  | [] => Ok (minimal_object, cyclic_orbit)
  | fellow :: rest =>
      upper <- is_upper_triangular fellow ;;
      if upper then
        let cyclic_orbit := cyclic_orbit ++ [fellow] in
        smaller <- __lt__ fellow minimal_object ;;
        if smaller then scan_orbit rest fellow cyclic_orbit
        else scan_orbit rest minimal_object cyclic_orbit
      else scan_orbit rest minimal_object cyclic_orbit
  end.

(** The loop [for YD in self.get_upper_triangulars()] on the diagrams that
    generator yields; [source_end] is the way it ends.  [fuel] bounds each
    walk through a cyclic orbit. *)
Fixpoint minimal_loop (fuel : nat) (YDs : list YoungDiagram)
  (source_end : ending) (cyclic_orbits : list (list YoungDiagram))
  : gen YoungDiagram :=
  match YDs with
  | [] => ([], source_end)
  | YD :: rest =>
      let YD_did_already_appear :=
        existsb (fun cyclic_orbit => existsb (__eq__ YD) cyclic_orbit)
          cyclic_orbits in
      if negb YD_did_already_appear then
        match Diagram.cyclic_orbit fuel YD with
        | (fellows, orbit_end) =>
            match scan_orbit fellows YD [] with
            | Raise e => ([], Raised e)
            | Ok (minimal_object, cyclic_orbit) =>
                match orbit_end with
                | Finished =>
                    let (yielded, e) :=
                      minimal_loop fuel rest source_end
                        (cyclic_orbits ++ [cyclic_orbit]) in
                    (minimal_object :: yielded, e)
                | other => ([], other)
                end
            end
        end
      else minimal_loop fuel rest source_end cyclic_orbits
  end.

Definition get_minimal_upper_triangulars (fuel : nat) (self : YoungDiagrams)
  : gen YoungDiagram :=
  match get_upper_triangulars self with
  | Raise e => ([], Raised e)
  | Ok (YDs, source_end) => minimal_loop fuel YDs source_end []
  end.

Definition slope (self : YoungDiagrams) : result Q :=
  if 0 <? _width self then
    Ok (inject_Z (_height self) / inject_Z (_width self))%Q
  else Raise NotImplementedError.

End Diagrams.

(** * The vocabulary of the properties *)

(** A string over the two letters of a binary description. *)
Definition binary (s : list ascii) : Prop :=
  Forall (fun c => c = U \/ c = R) s.

(** Row [j] of a tuple, counted from the top. *)
Definition row (rows : list Z) (j : Z) : Z := nth (Z.to_nat j) rows 0.

Definition weakly_decreasing (rows : list Z) : Prop :=
  forall i j : nat, (i <= j < length rows)%nat -> nth j rows 0 <= nth i rows 0.

(** The valid inputs of the row-lengths constructor. *)
Definition valid_input (height width : Z) (rows : list Z) : Prop :=
  0 <= height /\ 0 <= width /\ len rows <= height /\
  weakly_decreasing rows /\ Forall (fun r => 0 <= r <= width) rows.

(** What the loop of [check_rows] asserts, one row after the other. *)
Fixpoint chain (previous : Z) (rows : list Z) : Prop :=
  match rows with
  | [] => True
  | r :: rest => (0 <= r <= previous) /\ chain r rest
  end.

(** The tuple stored by [__init__]: the rows, padded with zero rows. *)
Definition padded (height : Z) (rows : list Z) : list Z :=
  rows ++ repeat 0 (Z.to_nat (height - len rows)).

(** The diagrams that [__init__] returns. *)
Definition valid (d : YoungDiagram) : Prop :=
  exists height width rows, __init__ height width rows = Ok d.

(** The same, spelled out on the fields. *)
Record wf (d : YoungDiagram) : Prop := {
  wf_height : 0 <= _height d;
  wf_width : 0 <= _width d;
  wf_n : _n d = _height d + _width d;
  wf_len : len (_usual_description d) = _height d;
  wf_chain : chain (_width d) (_usual_description d);
  wf_walk : walk (_usual_description d) (Z.to_nat (_height d + _width d)) 0
              (_height d) = Ok (_binary_description d)
}.

(** The last letter moves to the front. *)
Definition rotate1 {A : Type} (s : list A) : list A :=
  skipn (length s - 1) s ++ firstn (length s - 1) s.

(** Rotation by [k] positions. *)
Definition rotate {A : Type} (k : nat) (s : list A) : list A :=
  Nat.iter k rotate1 s.

Definition empty_diagram : YoungDiagram := mkYoungDiagram 0 0 0 [] [].

(** The diagram decoded from the binary description rotated by [k]. *)
Definition turned (d : YoungDiagram) (k : nat) : YoungDiagram :=
  match Construct_From_Binary_Description (rotate k (_binary_description d)) with
  | Ok d' => d'
  | Raise _ => d
  end.

(** Rotating [d] by [k] positions and decoding gives a diagram on which
    [is_lower_triangular] returns [b]. *)
Definition lower_after (d : YoungDiagram) (k : nat) (b : bool) : Prop :=
  exists dk,
    Construct_From_Binary_Description (rotate k (_binary_description d)) = Ok dk /\
    is_lower_triangular dk = Ok b.

(** The number of pairs of a letter [R] and a later letter [U]: the cells
    of the diagram, counted along its boundary. *)
Fixpoint inversions (s : list ascii) : Z :=
  match s with
  | [] => 0
  | a :: t => (if Ascii.eqb a R then count U t else 0) + inversions t
  end.

(** Whether [d'] is among the diagrams of the cyclic orbit of [d]. *)
Definition in_orbit (fuel : nat) (d d' : YoungDiagram) : bool :=
  existsb (__eq__ d') (fst (cyclic_orbit fuel d)).

(** Whether no upper triangular diagram of the orbit of [d] is less than
    [d]. *)
Definition least_upper_triangular (fuel : nat) (d : YoungDiagram) : bool :=
  forallb (fun fellow =>
             match is_upper_triangular fellow, __lt__ fellow d with
             | Ok true, Ok smaller => negb smaller
             | Ok false, _ => true
             | _, _ => false
             end)
    (fst (cyclic_orbit fuel d)).

(** Whether no diagram of the list is in the orbit of a later one. *)
Fixpoint distinct_orbits (fuel : nat) (l : list YoungDiagram) : bool :=
  match l with
  | [] => true
  | d :: rest =>
      negb (existsb (in_orbit fuel d) rest) && distinct_orbits fuel rest
  end.

(** The lexicographic order on tuples of one length. *)
Inductive lex_lt : list Z -> list Z -> Prop :=
| lex_lt_head (x y : Z) (a b : list Z) : x < y -> lex_lt (x :: a) (y :: b)
| lex_lt_tail (x : Z) (a b : list Z) : lex_lt a b -> lex_lt (x :: a) (x :: b).

(** [self >> 1], [times] times in a row. *)
Fixpoint rshift_times (times : nat) (self : YoungDiagram) : result YoungDiagram :=
  match times with
  | O => Ok self
  | S times' =>
      previous <- rshift_times times' self ;;
      __rshift__ previous 1
  end.

(** The lexicographic comparison of two tuples, first entries first. *)
Fixpoint lex_ltb (a b : list Z) : bool :=
  match a, b with
  | x :: a', y :: b' =>
      if x <? y then true else if x =? y then lex_ltb a' b' else false
  | _, _ => false
  end.

(** [b] is among the diagrams decoded from the rotations of the binary
    description of [a]. *)
Definition same_orbit (a b : YoungDiagram) : Prop :=
  exists k : nat,
    Construct_From_Binary_Description (rotate k (_binary_description a)) = Ok b.

(** Whether [is_upper_triangular] returns [True]. *)
Definition upper (d : YoungDiagram) : bool :=
  match is_upper_triangular d with
  | Ok true => true
  | _ => false
  end.

(** A diagram of the constructor in the box of the given height and
    width. *)
Definition in_box (height width : Z) (d : YoungDiagram) : Prop :=
  wf d /\ _height d = height /\ _width d = width.

(** * Properties *)

(** ** Results and assertions *)

Lemma bind_Ok {A B : Type} (r : result A) (k : A -> result B) (b : B) :
  bind r k = Ok b -> exists a, r = Ok a /\ k a = Ok b.
Proof.
  destruct r as [a|e]; simpl; intros H; [exists a; auto | discriminate].
Qed.

Lemma assert_Ok (b : bool) (u : unit) : assert b = Ok u -> b = true.
Proof. destruct b; simpl; [reflexivity | discriminate]. Qed.

Lemma assert_true (b : bool) : b = true -> assert b = Ok tt.
Proof. intros ->; reflexivity. Qed.

(** Break [bind]s and [assert]s that are known to succeed. *)
Ltac inv_bind H :=
  let a := fresh "a" in
  let Ha := fresh "Ha" in
  apply bind_Ok in H; destruct H as [a [Ha H]];
  try (apply assert_Ok in Ha).

(** ** Lengths, ranges and indexing *)

Lemma len_nil {A : Type} : len (@nil A) = 0.
Proof. reflexivity. Qed.

Lemma len_cons {A : Type} (a : A) (l : list A) : len (a :: l) = len l + 1.
Proof. unfold len; simpl length; lia. Qed.

Lemma len_app {A : Type} (l l' : list A) : len (l ++ l') = len l + len l'.
Proof. unfold len; rewrite length_app; lia. Qed.

Lemma len_nonneg {A : Type} (l : list A) : 0 <= len l.
Proof. unfold len; lia. Qed.

Lemma len_rev {A : Type} (l : list A) : len (rev l) = len l.
Proof. unfold len; now rewrite length_rev. Qed.

Lemma len_repeat {A : Type} (a : A) (k : nat) : len (repeat a k) = Z.of_nat k.
Proof. unfold len; now rewrite repeat_length. Qed.

Lemma length_range (n : Z) : length (range n) = Z.to_nat n.
Proof. unfold range; now rewrite length_map, length_seq. Qed.

Lemma In_range (n i : Z) : In i (range n) <-> 0 <= i < n.
Proof.
  unfold range; rewrite in_map_iff; split.
  - intros [k [<- Hk]]; apply in_seq in Hk; lia.
  - intros Hi; exists (Z.to_nat i); split; [lia | apply in_seq; lia].
Qed.

Lemma range_succ (k : nat) :
  range (Z.of_nat (S k)) = range (Z.of_nat k) ++ [Z.of_nat k].
Proof.
  unfold range; rewrite !Nat2Z.id, seq_S, map_app; reflexivity.
Qed.

Lemma getitem_Ok (t : list Z) (i : Z) :
  0 <= i < len t -> getitem t i = Ok (nth (Z.to_nat i) t 0).
Proof.
  intros Hi; unfold getitem.
  destruct (i <? 0) eqn:E; [lia|].
  replace (0 <=? i) with true by (symmetry; apply Z.leb_le; lia).
  replace (i <? len t) with true by (symmetry; apply Z.ltb_lt; lia).
  reflexivity.
Qed.

(** ** Counting letters *)

Lemma count_nil (c : ascii) : count c [] = 0.
Proof. reflexivity. Qed.

Lemma count_cons (c a : ascii) (s : list ascii) :
  count c (a :: s) = (if Ascii.eqb c a then 1 else 0) + count c s.
Proof.
  unfold count; simpl; destruct (Ascii.eqb c a); [rewrite len_cons|]; lia.
Qed.

Lemma count_app (c : ascii) (s t : list ascii) :
  count c (s ++ t) = count c s + count c t.
Proof. unfold count; now rewrite filter_app, len_app. Qed.

Lemma count_rev (c : ascii) (s : list ascii) : count c (rev s) = count c s.
Proof.
  induction s as [|a s IH]; [reflexivity|].
  simpl rev; rewrite count_app, IH, !count_cons, count_nil; lia.
Qed.

Lemma count_nonneg (c : ascii) (s : list ascii) : 0 <= count c s.
Proof. apply len_nonneg. Qed.

Lemma eqb_UR : Ascii.eqb U R = false.
Proof. reflexivity. Qed.

Lemma eqb_RU : Ascii.eqb R U = false.
Proof. reflexivity. Qed.

Lemma binary_count (s : list ascii) :
  binary s <-> len s = count U s + count R s.
Proof.
  induction s as [|a s IH].
  - split; [reflexivity | constructor].
  - rewrite len_cons, !count_cons.
    assert (HU := count_nonneg U s). assert (HR := count_nonneg R s).
    assert (Hle : count U s + count R s <= len s).
    { clear IH HU HR; induction s as [|b s IHs]; [cbn; lia|].
      rewrite len_cons, !count_cons.
      destruct (Ascii.eqb U b) eqn:E1; destruct (Ascii.eqb R b) eqn:E2; try lia.
      apply Ascii.eqb_eq in E1, E2; subst b; discriminate. }
    split.
    + intros H; inversion H as [|? ? Ha Hs]; subst.
      apply IH in Hs.
      destruct Ha as [-> | ->]; rewrite Ascii.eqb_refl;
        [rewrite eqb_RU | rewrite eqb_UR]; lia.
    + intros H.
      destruct (Ascii.eqb U a) eqn:E1; destruct (Ascii.eqb R a) eqn:E2.
      * apply Ascii.eqb_eq in E1, E2; subst a; discriminate.
      * apply Ascii.eqb_eq in E1; constructor; [auto | apply IH; lia].
      * apply Ascii.eqb_eq in E2; constructor; [auto | apply IH; lia].
      * lia.
Qed.

Lemma binary_app (s t : list ascii) : binary (s ++ t) <-> binary s /\ binary t.
Proof. apply Forall_app. Qed.

Lemma binary_rev (s : list ascii) : binary s -> binary (rev s).
Proof. apply Forall_rev. Qed.

(** ** The rows that [__init__] accepts *)

Lemma check_rows_chain (rows : list Z) : forall previous stock,
  chain previous rows -> check_rows previous rows stock = Ok (stock ++ rows).
Proof.
  induction rows as [|r rest IH]; intros previous stock H; simpl.
  - now rewrite app_nil_r.
  - destruct H as [[H0 H1] H].
    rewrite (assert_true (0 <=? r)) by (apply Z.leb_le; lia).
    rewrite (assert_true (r <=? previous)) by (apply Z.leb_le; lia).
    simpl. rewrite (IH _ _ H), <- app_assoc. reflexivity.
Qed.

Lemma check_rows_Ok (rows : list Z) : forall previous stock out,
  check_rows previous rows stock = Ok out ->
  chain previous rows /\ out = stock ++ rows.
Proof.
  induction rows as [|r rest IH]; intros previous stock out H; simpl in *.
  - inversion H; now rewrite app_nil_r.
  - inv_bind H. inv_bind H.
    apply Z.leb_le in Ha, Ha0.
    apply IH in H. destruct H as [H ->].
    rewrite <- app_assoc. repeat split; auto; lia.
Qed.

Lemma chain_weaken (rows : list Z) : forall p q,
  p <= q -> chain p rows -> chain q rows.
Proof.
  destruct rows as [|r rest]; simpl; intros p q Hpq H; [exact I|].
  destruct H as [H0 H]. split; [lia | exact H].
Qed.

Lemma chain_Forall (rows : list Z) : forall previous,
  chain previous rows -> Forall (fun r => 0 <= r <= previous) rows.
Proof.
  induction rows as [|r rest IH]; intros previous H; constructor.
  - apply H.
  - destruct H as [H0 H]. apply IH. apply (chain_weaken rest r); [lia | exact H].
Qed.

Lemma chain_decreasing (rows : list Z) : forall previous,
  chain previous rows -> weakly_decreasing rows.
Proof.
  induction rows as [|r rest IH]; intros previous H i j Hij.
  - simpl in Hij; lia.
  - destruct H as [H0 H]. simpl in Hij.
    destruct i as [|i]; destruct j as [|j]; simpl; try lia.
    + assert (HF := chain_Forall _ _ H).
      rewrite Forall_forall in HF. apply (HF (nth j rest 0)).
      apply nth_In; lia.
    + apply (IH _ H); lia.
Qed.

Lemma chain_iff (rows : list Z) (width : Z) :
  chain width rows <->
  weakly_decreasing rows /\ Forall (fun r => 0 <= r <= width) rows.
Proof.
  split.
  - intros H; split; [eapply chain_decreasing | apply chain_Forall]; eauto.
  - revert width; induction rows as [|r rest IH]; intros width [Hd HF]; simpl; auto.
    inversion HF as [|? ? Hr Hrest]; subst. split; [exact Hr|].
    apply IH; split.
    + intros i j Hij. apply (Hd (S i) (S j)); simpl; lia.
    + rewrite Forall_forall in *. intros x Hx.
      destruct (In_nth _ _ 0 Hx) as [k [Hk <-]].
      split; [apply (Hrest _ Hx)|].
      apply (Hd 0%nat (S k)); simpl; lia.
Qed.

Lemma chain_pad (rows : list Z) (k : nat) : forall previous,
  0 <= previous -> chain previous rows -> chain previous (rows ++ repeat 0 k).
Proof.
  induction rows as [|r rest IH]; intros previous Hp H; simpl.
  - clear H. revert previous Hp; induction k as [|k IHk]; intros; simpl; auto.
    split; [lia | apply IHk; lia].
  - destruct H as [H0 H]. split; [exact H0 | apply IH; [lia | exact H]].
Qed.

Lemma len_padded (height : Z) (rows : list Z) :
  len rows <= height -> len (padded height rows) = height.
Proof. intros H; unfold padded; rewrite len_app, len_repeat; lia. Qed.

Lemma padded_full (height : Z) (rows : list Z) :
  len rows = height -> padded height rows = rows.
Proof.
  intros H; unfold padded.
  replace (Z.to_nat (height - len rows)) with 0%nat by lia.
  apply app_nil_r.
Qed.

(** [__init__] succeeds exactly on the valid inputs, and then runs the walk
    on the padded rows. *)
Lemma init_unfold (height width : Z) (rows : list Z) :
  0 <= height -> 0 <= width -> len rows <= height -> chain width rows ->
  __init__ height width rows =
  (s <- walk (padded height rows) (Z.to_nat (height + width)) 0 height ;;
   Ok (mkYoungDiagram height width (height + width) (padded height rows) s)).
Proof.
  intros Hh Hw Hl Hc; unfold __init__.
  rewrite (assert_true (0 <=? height)) by (apply Z.leb_le; lia).
  rewrite (assert_true (0 <=? width)) by (apply Z.leb_le; lia).
  rewrite (assert_true (len rows <=? height)) by (apply Z.leb_le; lia).
  simpl. rewrite (check_rows_chain rows width [] Hc). reflexivity.
Qed.

Lemma init_Ok (height width : Z) (rows : list Z) (d : YoungDiagram) :
  __init__ height width rows = Ok d ->
  0 <= height /\ 0 <= width /\ len rows <= height /\ chain width rows.
Proof.
  unfold __init__; intros H.
  inv_bind H. inv_bind H. inv_bind H. inv_bind H.
  apply check_rows_Ok in Ha2. destruct Ha2 as [Hc _].
  apply Z.leb_le in Ha, Ha0, Ha1. auto.
Qed.

(** ** Decoding a binary description *)

Lemma column_heights_U (c : Z) (s : list ascii) :
  column_heights_from c (U :: s) = column_heights_from (c - 1) s.
Proof. reflexivity. Qed.

Lemma column_heights_R (c : Z) (s : list ascii) :
  column_heights_from c (R :: s) = c :: column_heights_from c s.
Proof. reflexivity. Qed.

Lemma row_width_nil (r : Z) : row_width [] r = 0.
Proof. reflexivity. Qed.

Lemma row_width_cons (c : Z) (cs : list Z) (r : Z) :
  row_width (c :: cs) r = (if r <=? c - 1 then 1 else 0) + row_width cs r.
Proof.
  unfold row_width; simpl. destruct (r <=? c - 1); simpl; lia.
Qed.

Lemma row_width_app (cs cs' : list Z) (r : Z) :
  row_width (cs ++ cs') r = row_width cs r + row_width cs' r.
Proof.
  induction cs as [|c cs IH]; [reflexivity|].
  simpl app; rewrite !row_width_cons, IH; lia.
Qed.

Lemma row_width_bounds (cs : list Z) (r : Z) : 0 <= row_width cs r <= len cs.
Proof.
  induction cs as [|c cs IH]; [cbn; lia|].
  rewrite row_width_cons, len_cons. destruct (r <=? c - 1); lia.
Qed.

Lemma map_row_range (l : list Z) :
  map (row l) (range (len l)) = l.
Proof.
  apply (nth_ext _ _ 0 0).
  - rewrite length_map, length_range. unfold len; lia.
  - intros k Hk. rewrite length_map, length_range in Hk.
    unfold range. rewrite map_map.
    rewrite (nth_indep _ 0 (row l (Z.of_nat 0))) by (rewrite length_map, length_seq; exact Hk).
    rewrite (map_nth (fun n => row l (Z.of_nat n))), seq_nth by exact Hk.
    unfold row. now rewrite Nat2Z.id.
Qed.

(** ** Encoding: the walk of [__init__] *)

Section Walk.

Variables (height width : Z) (usual : list Z).
Hypothesis usual_chain : chain width usual.
Hypothesis usual_len : len usual = height.
Hypothesis width_nonneg : 0 <= width.

Lemma row_bounds (j : Z) : 0 <= j < height -> 0 <= row usual j <= width.
Proof.
  intros Hj. assert (HF := chain_Forall _ _ usual_chain).
  rewrite Forall_forall in HF. apply HF, nth_In. unfold len in usual_len; lia.
Qed.

Lemma row_mono (i j : Z) : 0 <= i <= j -> j < height -> row usual j <= row usual i.
Proof.
  intros Hi Hj. apply (chain_decreasing _ _ usual_chain).
  unfold len in usual_len; lia.
Qed.

Lemma walk_floor (m : nat) : forall x, walk usual m x 0 = Ok (repeat R m).
Proof.
  induction m as [|m IH]; intros x; simpl; [reflexivity|].
  now rewrite IH.
Qed.

(** From the point [(x, y)] of the boundary the walk emits a binary string
    with [y] letters [U] that decodes to the rows above [y], shortened by
    [x]. *)
Lemma walk_spec (m : nat) : forall x y,
  0 <= y <= height -> 0 <= x ->
  (forall j, 0 <= j < y -> x <= row usual j) ->
  (y = 0 \/ Z.of_nat m = y + width - x) ->
  exists s, walk usual m x y = Ok s /\ binary s /\ len s = Z.of_nat m /\
    count U s = y /\
    forall r, 0 <= r ->
      row_width (column_heights_from y s) r = if r <? y then row usual r - x else 0.
Proof.
  induction m as [|m IH]; intros x y Hy Hx Hbelow Hm.
  - assert (y = 0) as ->.
    { destruct Hm as [Hm|Hm]; [exact Hm|].
      destruct (Z.eq_dec y 0) as [E|E]; [exact E|].
      assert (H0 := Hbelow 0 ltac:(lia)). assert (H1 := row_bounds 0 ltac:(lia)).
      lia. }
    exists []. repeat split; try reflexivity; [constructor|].
    intros r Hr. rewrite row_width_nil. destruct (r <? 0) eqn:E0; [apply Z.ltb_lt in E0; lia | reflexivity].
  - simpl walk. destruct (y =? 0) eqn:E.
    + apply Z.eqb_eq in E; subst y.
      destruct (IH x 0 Hy Hx Hbelow (or_introl eq_refl)) as [s [Hs [Hb [Hl [Hc Hw]]]]].
      rewrite Hs; simpl. exists (R :: s). split; [reflexivity|].
      split; [constructor; auto|]. split; [rewrite len_cons; lia|].
      split; [rewrite count_cons, eqb_UR; lia|].
      intros r Hr. rewrite column_heights_R, row_width_cons, (Hw r Hr).
      destruct (r <=? 0 - 1) eqn:E1; [apply Z.leb_le in E1; lia|].
      destruct (r <? 0) eqn:E0; [apply Z.ltb_lt in E0; lia | reflexivity].
    + apply Z.eqb_neq in E.
      destruct Hm as [Hm|Hm]; [contradiction|].
      rewrite getitem_Ok by lia. simpl bind. fold (row usual (y - 1)).
      assert (Hxrow := Hbelow (y - 1) ltac:(lia)).
      destruct (x <? row usual (y - 1)) eqn:E1.
      * apply Z.ltb_lt in E1.
        destruct (IH (x + 1) y) as [s [Hs [Hb [Hl [Hc Hw]]]]]; try lia.
        { intros j Hj. assert (H := row_mono j (y - 1) ltac:(lia) ltac:(lia)). lia. }
        rewrite Hs; simpl. exists (R :: s). split; [reflexivity|].
        split; [constructor; auto|]. split; [rewrite len_cons; lia|].
        split; [rewrite count_cons, eqb_UR; lia|].
        intros r Hr. rewrite column_heights_R, row_width_cons, (Hw r Hr).
        destruct (r <=? y - 1) eqn:E2; destruct (r <? y) eqn:E3;
          try apply Z.leb_le in E2; try apply Z.leb_gt in E2;
          try apply Z.ltb_lt in E3; try apply Z.ltb_ge in E3; lia.
      * apply Z.ltb_ge in E1.
        destruct (IH x (y - 1)) as [s [Hs [Hb [Hl [Hc Hw]]]]]; try lia.
        { intros j Hj. apply Hbelow; lia. }
        rewrite Hs; simpl. exists (U :: s). split; [reflexivity|].
        split; [constructor; auto|]. split; [rewrite len_cons; lia|].
        split; [rewrite count_cons, Ascii.eqb_refl; lia|].
        intros r Hr. rewrite column_heights_U, (Hw r Hr).
        destruct (r <? y - 1) eqn:E2; destruct (r <? y) eqn:E3;
          try apply Z.ltb_lt in E2; try apply Z.ltb_ge in E2;
          try apply Z.ltb_lt in E3; try apply Z.ltb_ge in E3; try lia.
        replace r with (y - 1) by lia. lia.
Qed.

(** The whole walk, from the lower left corner. *)
Lemma walk_full :
  exists s, walk usual (Z.to_nat (height + width)) 0 height = Ok s /\
    binary s /\ len s = height + width /\ count U s = height /\
    count R s = width /\
    map (row_width (column_heights_from height s)) (range height) = usual.
Proof.
  assert (Hh : 0 <= height) by (rewrite <- usual_len; apply len_nonneg).
  destruct (walk_spec (Z.to_nat (height + width)) 0 height) as [s [Hs [Hb [Hl [Hc Hw]]]]];
    try lia.
  { intros j Hj. apply row_bounds; lia. }
  exists s. split; [exact Hs|]. split; [exact Hb|]. split; [lia|]. split; [exact Hc|].
  split; [apply binary_count in Hb; lia|].
  transitivity (map (row usual) (range (len usual))); [|apply map_row_range].
  rewrite usual_len. apply map_ext_in. intros r Hr. apply In_range in Hr.
  rewrite (Hw r) by lia.
  replace (r <? height) with true by (symmetry; apply Z.ltb_lt; lia). lia.
Qed.

End Walk.

(** ** Diagrams built by the constructor *)

Lemma init_wf (height width : Z) (rows : list Z) (d : YoungDiagram) :
  __init__ height width rows = Ok d ->
  wf d /\ _height d = height /\ _width d = width /\
  _usual_description d = padded height rows.
Proof.
  intros H. destruct (init_Ok _ _ _ _ H) as [Hh [Hw [Hl Hc]]].
  rewrite init_unfold in H by assumption.
  inv_bind H. inversion H; subst d; clear H; simpl.
  repeat split; simpl; auto.
  - now apply len_padded.
  - now apply chain_pad.
Qed.

Lemma valid_wf (d : YoungDiagram) : valid d <-> wf d.
Proof.
  split.
  - intros [h [w [rows H]]]. now apply init_wf in H.
  - intros [Hh Hw Hn Hl Hc Hwalk].
    exists (_height d), (_width d), (_usual_description d).
    rewrite init_unfold by (auto; lia).
    rewrite padded_full by exact Hl. rewrite Hwalk; simpl.
    destruct d; simpl in *; now subst.
Qed.

Lemma init_of_wf (d : YoungDiagram) :
  wf d -> __init__ (_height d) (_width d) (_usual_description d) = Ok d.
Proof.
  intros [Hh Hw Hn Hl Hc Hwalk].
  rewrite init_unfold by (auto; lia).
  rewrite padded_full by exact Hl. rewrite Hwalk; simpl.
  destruct d; simpl in *; now subst.
Qed.

(** The binary description of a diagram: its letters, their numbers, and
    how it decodes. *)
Lemma wf_binary_description (d : YoungDiagram) :
  wf d ->
  binary (_binary_description d) /\
  len (_binary_description d) = _n d /\
  count U (_binary_description d) = _height d /\
  count R (_binary_description d) = _width d /\
  map (row_width (column_heights_from (_height d) (_binary_description d)))
    (range (_height d)) = _usual_description d.
Proof.
  intros [Hh Hw Hn Hl Hc Hwalk].
  destruct (walk_full _ _ _ Hc Hl Hw) as [s [Hs H]].
  rewrite Hs in Hwalk; inversion Hwalk; subst s. rewrite Hn. exact H.
Qed.

(** Decoding the binary description of a diagram gives the diagram back. *)
Lemma Construct_binary_description (d : YoungDiagram) :
  wf d -> Construct_From_Binary_Description (_binary_description d) = Ok d.
Proof.
  intros Hd. destruct (wf_binary_description d Hd) as [Hb [Hl [HU [HR Hrows]]]].
  unfold Construct_From_Binary_Description.
  rewrite HU, HR, Hrows.
  rewrite (assert_true (_ =? _)) by (apply Z.eqb_eq; rewrite Hl; apply Hd).
  simpl. now apply init_of_wf.
Qed.

(** [__init__] returns a diagram on every valid input. *)
Lemma init_total (height width : Z) (rows : list Z) :
  valid_input height width rows -> exists d, __init__ height width rows = Ok d.
Proof.
  intros [Hh [Hw [Hl [Hd HF]]]].
  assert (Hc : chain width rows) by (apply chain_iff; auto).
  rewrite init_unfold by assumption.
  destruct (walk_full height width (padded height rows)) as [s [Hs _]].
  - now apply chain_pad.
  - now apply len_padded.
  - exact Hw.
  - rewrite Hs; simpl. eauto.
Qed.

Lemma eq_refl_diagram (d : YoungDiagram) : __eq__ d d = true.
Proof.
  unfold __eq__, tuple_eqb. rewrite !Z.eqb_refl.
  destruct (list_eq_dec Z.eq_dec _ _); [reflexivity | contradiction].
Qed.

(** C1. For every valid input of the row-lengths constructor (height and
    width non-negative, rows weakly decreasing with entries between 0 and the
    width, at most [height] rows) the constructor returns a diagram [d], and
    decoding the binary description of [d] with
    [Construct_From_Binary_Description] returns a diagram equal to [d]: same
    height, same width, same row lengths. *)
Theorem roundtrip_row_lengths (height width : Z) (rows : list Z) :
  valid_input height width rows ->
  exists d d',
    __init__ height width rows = Ok d /\
    Construct_From_Binary_Description (_binary_description d) = Ok d' /\
    _height d' = _height d /\ _width d' = _width d /\
    _usual_description d' = _usual_description d /\
    __eq__ d' d = true /\ d' = d.
Proof.
  intros Hv. destruct (init_total _ _ _ Hv) as [d Hd].
  exists d, d. split; [exact Hd|].
  apply init_wf in Hd. destruct Hd as [Hwf _].
  split; [now apply Construct_binary_description|].
  repeat split; auto using eq_refl_diagram.
Qed.

Lemma roundtrip_row_lengths_witness :
  valid_input 3 4 [4; 2] /\
  exists d d',
    __init__ 3 4 [4; 2] = Ok d /\
    Construct_From_Binary_Description (_binary_description d) = Ok d' /\
    _height d' = _height d /\ _width d' = _width d /\
    _usual_description d' = _usual_description d /\
    __eq__ d' d = true /\ d' = d.
Proof.
  assert (H : valid_input 3 4 [4; 2]).
  { unfold valid_input, weakly_decreasing. repeat split; try (cbn; lia).
    - intros i j Hij. simpl in Hij.
      destruct i as [|[|i]]; destruct j as [|[|j]]; simpl; lia.
    - repeat constructor; lia. }
  split; [exact H | exact (roundtrip_row_lengths 3 4 [4; 2] H)].
Defined.

(** ** Encoding what was decoded *)

Lemma column_heights_app (s t : list ascii) : forall c,
  column_heights_from c (s ++ t) =
  column_heights_from c s ++ column_heights_from (c - count U s) t.
Proof.
  induction s as [|a s IH]; intros c; simpl app.
  - rewrite count_nil. now replace (c - 0) with c by lia.
  - simpl column_heights_from. rewrite count_cons.
    rewrite (Ascii.eqb_sym U a).
    destruct (Ascii.eqb a U) eqn:E1.
    + rewrite IH. do 2 f_equal. lia.
    + destruct (Ascii.eqb a R); rewrite IH; simpl; do 2 f_equal; lia.
Qed.

Lemma column_heights_bounds (s : list ascii) : forall c v,
  In v (column_heights_from c s) -> c - count U s <= v <= c.
Proof.
  induction s as [|a s IH]; intros c v Hv; [destruct Hv|].
  simpl in Hv. rewrite count_cons, (Ascii.eqb_sym U a).
  assert (H0 := count_nonneg U s).
  destruct (Ascii.eqb a U) eqn:E1.
  - apply IH in Hv. lia.
  - destruct (Ascii.eqb a R).
    + destruct Hv as [<- | Hv]; [lia | apply IH in Hv; lia].
    + apply IH in Hv; lia.
Qed.

Lemma len_column_heights (s : list ascii) : forall c,
  len (column_heights_from c s) = count R s.
Proof.
  induction s as [|a s IH]; intros c; [reflexivity|].
  simpl column_heights_from. rewrite count_cons, (Ascii.eqb_sym R a).
  destruct (Ascii.eqb a U) eqn:E1.
  - apply Ascii.eqb_eq in E1; subst a. rewrite eqb_UR, IH. lia.
  - destruct (Ascii.eqb a R); [rewrite len_cons|]; rewrite IH; lia.
Qed.

Lemma row_width_all (cs : list Z) (r : Z) :
  (forall c, In c cs -> r < c) -> row_width cs r = len cs.
Proof.
  induction cs as [|c cs IH]; intros H; [reflexivity|].
  rewrite row_width_cons, len_cons, IH by (intros; apply H; now right).
  assert (Hc := H c (or_introl eq_refl)).
  replace (r <=? c - 1) with true by (symmetry; apply Z.leb_le; lia). lia.
Qed.

Lemma row_width_none (cs : list Z) (r : Z) :
  (forall c, In c cs -> c <= r) -> row_width cs r = 0.
Proof.
  induction cs as [|c cs IH]; intros H; [reflexivity|].
  rewrite row_width_cons, IH by (intros; apply H; now right).
  assert (Hc := H c (or_introl eq_refl)).
  replace (r <=? c - 1) with false by (symmetry; apply Z.leb_gt; lia). lia.
Qed.

Lemma row_width_mono (cs : list Z) (r r' : Z) :
  r <= r' -> row_width cs r' <= row_width cs r.
Proof.
  intros Hr. induction cs as [|c cs IH]; [reflexivity|].
  rewrite !row_width_cons.
  destruct (r' <=? c - 1) eqn:E1; destruct (r <=? c - 1) eqn:E2;
    try apply Z.leb_le in E1; try apply Z.leb_gt in E1;
    try apply Z.leb_le in E2; try apply Z.leb_gt in E2; lia.
Qed.

Lemma nth_map_range (f : Z -> Z) (n : Z) (k : nat) :
  (k < Z.to_nat n)%nat -> nth k (map f (range n)) 0 = f (Z.of_nat k).
Proof.
  intros Hk. unfold range. rewrite map_map.
  rewrite (nth_indep _ 0 (f (Z.of_nat 0))) by (rewrite length_map, length_seq; exact Hk).
  rewrite (map_nth (fun i => f (Z.of_nat i))), seq_nth by exact Hk.
  reflexivity.
Qed.

Lemma len_map_range (f : Z -> Z) (n : Z) : 0 <= n -> len (map f (range n)) = n.
Proof. intros Hn. unfold len. rewrite length_map, length_range. lia. Qed.

Section Decode.

Variable string : list ascii.
Hypothesis string_binary : binary string.

Let height := count U string.
Let width := count R string.
Let column_heights := column_heights_from height string.
Let row_widths := map (row_width column_heights) (range height).

Lemma row_widths_len : len row_widths = height.
Proof. apply len_map_range, count_nonneg. Qed.

Lemma row_widths_row (r : Z) :
  0 <= r < height -> row row_widths r = row_width column_heights r.
Proof.
  intros Hr. unfold row, row_widths. rewrite nth_map_range by lia.
  f_equal; lia.
Qed.

Lemma row_widths_chain : chain width row_widths.
Proof.
  assert (Hlen := row_widths_len). unfold len in Hlen.
  apply chain_iff; split.
  - intros i j Hij. unfold row_widths at 1 2.
    rewrite !nth_map_range by lia. apply row_width_mono; lia.
  - apply Forall_forall. intros v Hv. unfold row_widths in Hv.
    apply in_map_iff in Hv. destruct Hv as [r [<- _]].
    assert (H := row_width_bounds column_heights r).
    assert (Hc : len column_heights = width) by apply len_column_heights.
    rewrite Hc in H. exact H.
Qed.

(** At the start of a suffix of the string the walk stands at the column
    counting the letters [R] read so far and at the row counting the letters
    [U] still to come, and it emits the suffix. *)
Lemma walk_decode (suffix : list ascii) : forall prefix x,
  string = prefix ++ suffix ->
  (0 < count U suffix -> x = count R prefix) ->
  walk row_widths (length suffix) x (count U suffix) = Ok suffix.
Proof.
  induction suffix as [|c suffix IH]; intros prefix x Hs Hx; [reflexivity|].
  assert (Hc : c = U \/ c = R).
  { unfold binary in string_binary. rewrite Hs in string_binary.
    apply Forall_app in string_binary. destruct string_binary as [_ H].
    now inversion H. }
  assert (Hs' : string = (prefix ++ [c]) ++ suffix) by (now rewrite <- app_assoc).
  assert (Hheight : height = count U prefix + count U (c :: suffix))
    by (unfold height; now rewrite Hs, count_app).
  assert (Hcols : column_heights =
            column_heights_from height prefix ++
            column_heights_from (count U (c :: suffix)) (c :: suffix)).
  { unfold column_heights. rewrite Hs at 1. rewrite column_heights_app.
    do 2 f_equal. lia. }
  assert (Hpre : row_width (column_heights_from height prefix)
                   (count U (c :: suffix) - 1) = count R prefix).
  { rewrite row_width_all; [apply len_column_heights|].
    intros v Hv. apply column_heights_bounds in Hv. lia. }
  assert (H0 := count_nonneg U suffix). assert (H1 := count_nonneg U prefix).
  simpl length. simpl walk.
  destruct (count U (c :: suffix) =? 0) eqn:E.
  - apply Z.eqb_eq in E. destruct Hc as [-> | ->].
    + rewrite count_cons, Ascii.eqb_refl in E. lia.
    + rewrite count_cons, eqb_UR in E. simpl in E.
      rewrite count_cons, eqb_UR. simpl Z.add.
      rewrite (IH (prefix ++ [R]) x Hs') by lia. reflexivity.
  - apply Z.eqb_neq in E.
    assert (Hy : 0 < count U (c :: suffix)).
    { assert (H := count_nonneg U (c :: suffix)). lia. }
    rewrite getitem_Ok by (rewrite row_widths_len; lia).
    fold (row row_widths (count U (c :: suffix) - 1)).
    rewrite row_widths_row by lia.
    rewrite Hcols, row_width_app, Hpre, (Hx Hy). cbn [bind].
    destruct Hc as [-> | ->].
    + rewrite column_heights_U, row_width_none.
      2:{ intros v Hv. apply column_heights_bounds in Hv. lia. }
      replace (count R prefix <? count R prefix + 0) with false
        by (symmetry; apply Z.ltb_ge; lia).
      replace (count U (U :: suffix) - 1) with (count U suffix)
        by (rewrite count_cons, Ascii.eqb_refl; lia).
      rewrite (IH (prefix ++ [U]) (count R prefix) Hs').
      * reflexivity.
      * intros _. rewrite count_app, count_cons, eqb_RU, count_nil. lia.
    + rewrite column_heights_R, row_width_cons.
      assert (H2 := row_width_bounds (column_heights_from (count U (R :: suffix)) suffix)
                      (count U (R :: suffix) - 1)).
      replace (count U (R :: suffix) - 1 <=? count U (R :: suffix) - 1) with true
        by (symmetry; apply Z.leb_le; lia).
      match goal with |- context [?a <? ?b] =>
        replace (a <? b) with true by (symmetry; apply Z.ltb_lt; lia) end.
      replace (count U (R :: suffix)) with (count U suffix)
        by (rewrite count_cons, eqb_UR; lia).
      rewrite (IH (prefix ++ [R]) (count R prefix + 1) Hs').
      * reflexivity.
      * intros _. rewrite count_app, count_cons, Ascii.eqb_refl, count_nil. lia.
Qed.

(** Decoding a binary string succeeds, and the diagram it returns has the
    string as its binary description. *)
Lemma Construct_binary :
  exists d, Construct_From_Binary_Description string = Ok d /\ wf d /\
    _binary_description d = string /\
    _height d = count U string /\ _width d = count R string.
Proof.
  assert (Hl : len string = height + width) by (now apply binary_count).
  assert (Hwalk : walk row_widths (Z.to_nat (height + width)) 0 height = Ok string).
  { replace (Z.to_nat (height + width)) with (length string)
      by (unfold len in Hl; lia).
    apply (walk_decode string []); [reflexivity | intros _; reflexivity]. }
  unfold Construct_From_Binary_Description.
  rewrite (assert_true (_ =? _)) by (apply Z.eqb_eq; exact Hl).
  simpl bind. fold height width column_heights row_widths.
  rewrite init_unfold;
    [| apply count_nonneg | apply count_nonneg
     | rewrite row_widths_len; lia | apply row_widths_chain].
  rewrite padded_full by apply row_widths_len.
  rewrite Hwalk. simpl.
  eexists; split; [reflexivity|]. split; [|auto].
  constructor; simpl; auto using row_widths_len, row_widths_chain;
    apply count_nonneg.
Qed.

End Decode.

(** ** Equality of diagrams *)

Lemma eq_true_iff (d d' : YoungDiagram) :
  __eq__ d d' = true <->
  _height d = _height d' /\ _width d = _width d' /\
  _usual_description d = _usual_description d'.
Proof.
  unfold __eq__, tuple_eqb. rewrite !andb_true_iff, !Z.eqb_eq.
  destruct (list_eq_dec Z.eq_dec _ _) as [E|E]; intuition congruence.
Qed.

(** On the diagrams of the constructor [__eq__] is equality. *)
Lemma eq_wf (d d' : YoungDiagram) :
  wf d -> wf d' -> (__eq__ d d' = true <-> d = d').
Proof.
  intros Hd Hd'. split; [|intros ->; apply eq_refl_diagram].
  intros H. apply eq_true_iff in H. destruct H as [Hh [Hw Hu]].
  apply init_of_wf in Hd, Hd'. rewrite Hh, Hw, Hu in Hd. congruence.
Qed.

Lemma binary_description_inj (d d' : YoungDiagram) :
  wf d -> wf d' -> _binary_description d = _binary_description d' -> d = d'.
Proof.
  intros Hd Hd' H. apply Construct_binary_description in Hd, Hd'.
  rewrite H in Hd. congruence.
Qed.

(** ** Rotating a string *)

Section Rotate.

Context {A : Type}.
Implicit Types s t : list A.

Lemma rotate1_snoc s (x : A) : rotate1 (s ++ [x]) = x :: s.
Proof.
  unfold rotate1. rewrite length_app; simpl length.
  replace (length s + 1 - 1)%nat with (length s) by lia.
  rewrite skipn_app, firstn_app, skipn_all, firstn_all, Nat.sub_diag.
  simpl. now rewrite app_nil_r.
Qed.

Lemma rotate1_nil : rotate1 (@nil A) = [].
Proof. reflexivity. Qed.

Lemma rotate_succ_r (k : nat) s : rotate (S k) s = rotate k (rotate1 s).
Proof. unfold rotate. apply Nat.iter_succ_r. Qed.

Lemma rotate_add (j k : nat) s : rotate (j + k) s = rotate j (rotate k s).
Proof. unfold rotate. apply Nat.iter_add. Qed.

(** Rotating by the length of the second part swaps the two parts. *)
Lemma rotate_app t : forall s, rotate (length t) (s ++ t) = t ++ s.
Proof.
  induction t as [|x t IH] using rev_ind; intros s.
  - simpl. now rewrite app_nil_r.
  - rewrite length_app; simpl length.
    replace (length t + 1)%nat with (S (length t)) by lia.
    rewrite rotate_succ_r, app_assoc, rotate1_snoc.
    change (x :: s ++ t) with ((x :: s) ++ t).
    rewrite IH, <- app_assoc. reflexivity.
Qed.

Lemma rotate_length s : rotate (length s) s = s.
Proof.
  rewrite <- (app_nil_l s) at 2. rewrite rotate_app. apply app_nil_r.
Qed.

Lemma rotate_slices (k : nat) s :
  (k <= length s)%nat ->
  rotate k s = skipn (length s - k) s ++ firstn (length s - k) s.
Proof.
  intros Hk.
  rewrite <- (firstn_skipn (length s - k) s) at 1.
  replace k with (length (skipn (length s - k) s)) at 1
    by (rewrite length_skipn; lia).
  apply rotate_app.
Qed.

Lemma rotate1_rotate s : rotate1 s = rotate 1 s.
Proof. reflexivity. Qed.

Lemma length_rotate1 s : length (rotate1 s) = length s.
Proof.
  unfold rotate1. rewrite length_app, length_skipn, length_firstn. lia.
Qed.

Lemma length_rotate (k : nat) s : length (rotate k s) = length s.
Proof.
  induction k as [|k IH]; [reflexivity|].
  unfold rotate in *; simpl. now rewrite length_rotate1, IH.
Qed.

Lemma rotate_mul (k q : nat) s : rotate k s = s -> rotate (q * k) s = s.
Proof.
  intros H. induction q as [|q IH]; [reflexivity|].
  simpl Nat.mul. rewrite Nat.add_comm, rotate_add, H. exact IH.
Qed.

Lemma rotate_mod (k : nat) s : rotate k s = rotate (k mod length s) s.
Proof.
  destruct (Nat.eq_dec (length s) 0) as [E|E].
  - rewrite E. reflexivity.
  - rewrite (Nat.div_mod_eq k (length s)) at 1.
    rewrite Nat.add_comm, rotate_add, Nat.mul_comm, rotate_mul; auto.
    apply rotate_length.
Qed.

(** The least positive period of a string under rotation divides every
    other period. *)
Lemma period_divides (k m : nat) s :
  (0 < k)%nat -> rotate k s = s ->
  (forall j, (0 < j < k)%nat -> rotate j s <> s) ->
  rotate m s = s -> Nat.divide k m.
Proof.
  intros Hk Hper Hmin Hm.
  assert (Hr : rotate (m mod k) s = s).
  { rewrite (Nat.div_mod_eq m k) in Hm.
    rewrite Nat.add_comm, rotate_add, Nat.mul_comm, (rotate_mul k _ s Hper) in Hm.
    exact Hm. }
  destruct (Nat.eq_dec (m mod k) 0) as [E|E].
  - exists (m / k)%nat. rewrite (Nat.div_mod_eq m k) at 1. lia.
  - exfalso. apply (Hmin (m mod k)%nat); [|exact Hr].
    assert (H := Nat.mod_upper_bound m k). lia.
Qed.

End Rotate.

Lemma count_rotate (c : ascii) (k : nat) (s : list ascii) :
  count c (rotate k s) = count c s.
Proof.
  induction k as [|k IH]; [reflexivity|].
  unfold rotate in *; simpl. unfold rotate1 at 1.
  rewrite count_app, Z.add_comm, <- count_app, firstn_skipn. exact IH.
Qed.

Lemma binary_rotate (k : nat) (s : list ascii) : binary s -> binary (rotate k s).
Proof.
  intros H. apply binary_count. apply binary_count in H.
  rewrite !count_rotate. unfold len in *. now rewrite length_rotate.
Qed.

(** ** The strings that the slices of the code build *)

Lemma shift_string_rotate1 (s : list ascii) : shift_string (len s) s = rotate1 s.
Proof.
  unfold shift_string, slice_from, slice_to, slice_bound, rotate1, len.
  destruct s as [|a s]; [reflexivity|].
  replace (Z.of_nat (length (a :: s)) - 1 <? 0) with false
    by (symmetry; apply Z.ltb_ge; simpl length; lia).
  replace (-1 <? 0) with true by reflexivity.
  f_equal; f_equal; simpl length; lia.
Qed.

(** The string that [cyclic_action] decodes: nothing when the steps are a
    multiple of the length, the rotated string otherwise. *)
Lemma cyclic_action_slices (s : list ascii) (steps : Z) :
  0 < len s ->
  slice_from s (len s - steps mod len s) ++ slice_to s (- (steps mod len s)) =
  if steps mod len s =? 0 then [] else rotate (Z.to_nat (steps mod len s)) s.
Proof.
  intros Hn. assert (Hr := Z.mod_pos_bound steps (len s) Hn).
  set (r := steps mod len s) in *.
  unfold slice_from, slice_to, slice_bound.
  replace (len s - r <? 0) with false by (symmetry; apply Z.ltb_ge; lia).
  destruct (r =? 0) eqn:E.
  - apply Z.eqb_eq in E. rewrite E. simpl.
    replace (Z.to_nat (Z.min (len s - 0) (len s))) with (length s)
      by (unfold len; lia).
    replace (Z.to_nat (Z.min 0 (len s))) with 0%nat by lia.
    now rewrite skipn_all.
  - apply Z.eqb_neq in E.
    replace (- r <? 0) with true by (symmetry; apply Z.ltb_lt; lia).
    rewrite rotate_slices by (unfold len in *; lia).
    f_equal; f_equal; unfold len in *; lia.
Qed.

Lemma Construct_empty : Construct_From_Binary_Description [] = Ok empty_diagram.
Proof. reflexivity. Qed.

Lemma cyclic_action_unfold (d : YoungDiagram) (steps : Z) :
  wf d -> 0 < _n d ->
  cyclic_action d steps =
  Construct_From_Binary_Description
    (if steps mod _n d =? 0 then []
     else rotate (Z.to_nat (steps mod _n d)) (_binary_description d)).
Proof.
  intros Hd Hn. destruct (wf_binary_description d Hd) as [_ [Hl _]].
  unfold cyclic_action.
  replace (0 <? _n d) with true by (symmetry; apply Z.ltb_lt; lia).
  rewrite <- Hl. rewrite cyclic_action_slices by lia. reflexivity.
Qed.

(** ** The diagram rotated by [k] positions *)

Lemma turned_spec (d : YoungDiagram) (k : nat) :
  wf d ->
  Construct_From_Binary_Description (rotate k (_binary_description d))
    = Ok (turned d k) /\
  wf (turned d k) /\
  _binary_description (turned d k) = rotate k (_binary_description d) /\
  _height (turned d k) = _height d /\ _width (turned d k) = _width d /\
  _n (turned d k) = _n d.
Proof.
  intros Hd. destruct (wf_binary_description d Hd) as [Hb [Hl [HU [HR _]]]].
  destruct (Construct_binary _ (binary_rotate k _ Hb)) as [d' [Hc [Hwf [Hbd [Hh Hw]]]]].
  assert (Ht : turned d k = d') by (unfold turned; now rewrite Hc).
  rewrite Ht. rewrite !count_rotate in *.
  split; [exact Hc|]. split; [exact Hwf|]. split; [exact Hbd|].
  split; [congruence|]. split; [congruence|].
  rewrite (wf_n _ Hwf), (wf_n _ Hd). congruence.
Qed.

Lemma turned_0 (d : YoungDiagram) : wf d -> turned d 0 = d.
Proof.
  intros Hd. unfold turned. simpl.
  now rewrite Construct_binary_description.
Qed.

Lemma turned_eq (d : YoungDiagram) (j k : nat) :
  wf d ->
  (turned d j = turned d k <->
   rotate j (_binary_description d) = rotate k (_binary_description d)).
Proof.
  intros Hd.
  destruct (turned_spec d j Hd) as [_ [Hwj [Hbj _]]].
  destruct (turned_spec d k Hd) as [_ [Hwk [Hbk _]]].
  split.
  - intros H. rewrite <- Hbj, <- Hbk. now rewrite H.
  - intros H. apply binary_description_inj; auto. congruence.
Qed.

(** One step of the cyclic action on a diagram of perimeter at least 2. *)
Lemma cyclic_action_1 (d : YoungDiagram) (k : nat) :
  wf d -> 2 <= _n d ->
  cyclic_action (turned d k) 1 = Ok (turned d (S k)).
Proof.
  intros Hd Hn.
  destruct (turned_spec d k Hd) as [_ [Hwk [Hbk [_ [_ Hnk]]]]].
  destruct (turned_spec d (S k) Hd) as [Hc _].
  rewrite cyclic_action_unfold by (auto; lia).
  rewrite Hnk, Z.mod_1_l by lia. simpl.
  rewrite Hbk. exact Hc.
Qed.

(** C9. The transforms keep the box: for every diagram [d] of positive
    perimeter, [complement] returns a diagram of the height and width of
    [d], and so does [cyclic_action] for all steps that are not a multiple
    of the perimeter. *)
Theorem transforms_keep_box (d : YoungDiagram) :
  valid d -> 0 < _n d ->
  (exists c, complement d = Ok c /\
             _height c = _height d /\ _width c = _width d) /\
  (forall steps, steps mod _n d <> 0 ->
     exists r, cyclic_action d steps = Ok r /\
               _height r = _height d /\ _width r = _width d).
Proof.
  intros Hv Hn. apply valid_wf in Hv.
  destruct (wf_binary_description d Hv) as [Hb [Hl [HU [HR _]]]].
  split.
  - destruct (Construct_binary _ (binary_rev _ Hb)) as [c [Hc [_ [_ [Hh Hw]]]]].
    exists c. unfold complement. rewrite !count_rev in *.
    split; [exact Hc | split; congruence].
  - intros steps Hs. rewrite cyclic_action_unfold by assumption.
    replace (steps mod _n d =? 0) with false by (symmetry; now apply Z.eqb_neq).
    destruct (turned_spec d (Z.to_nat (steps mod _n d)) Hv) as [Hc [_ [_ [Hh [Hw _]]]]].
    eauto.
Qed.

Lemma transforms_keep_box_witness :
  exists d, __init__ 2 3 [3; 1] = Ok d /\ 0 < _n d /\
  (exists c, complement d = Ok c /\
             _height c = _height d /\ _width c = _width d) /\
  (forall steps, steps mod _n d <> 0 ->
     exists r, cyclic_action d steps = Ok r /\
               _height r = _height d /\ _width r = _width d).
Proof.
  eexists. split; [reflexivity|]. split; [reflexivity|].
  apply transforms_keep_box; [|reflexivity].
  exists 2, 3, [3; 1]. reflexivity.
Defined.

(** ** The length of the orbit *)

Section OrbitLength.

Variable initial : list ascii.

(** After [c] turns of the loop without a return, the loop returns the
    least period beyond [c], provided the fuel reaches one. *)
Lemma orbit_length_loop_spec (fuel : nat) : forall c : nat,
  (forall j, (0 < j <= c)%nat -> rotate j initial <> initial) ->
  (exists p, (c < p <= c + fuel)%nat /\ rotate p initial = initial) ->
  exists k : nat,
    orbit_length_loop fuel (len initial) initial (rotate c initial) (Z.of_nat c)
      = Some (Z.of_nat k) /\
    (c < k)%nat /\ rotate k initial = initial /\
    forall j, (0 < j < k)%nat -> rotate j initial <> initial.
Proof.
  induction fuel as [|fuel IH]; intros c Hmin [p [Hp Hper]]; [lia|].
  simpl orbit_length_loop.
  replace (len initial) with (len (rotate c initial))
    by (unfold len; now rewrite length_rotate).
  rewrite shift_string_rotate1.
  change (rotate1 (rotate c initial)) with (rotate (S c) initial).
  unfold str_eqb.
  destruct (list_eq_dec ascii_dec (rotate (S c) initial) initial) as [E|E].
  - exists (S c). split; [f_equal; lia|]. split; [lia|]. split; [exact E|].
    intros j Hj. apply Hmin. lia.
  - replace (len (rotate c initial)) with (len initial)
      by (unfold len; now rewrite length_rotate).
    replace (Z.of_nat c + 1) with (Z.of_nat (S c)) by lia.
    destruct (IH (S c)) as [k [Hk [Hck [Hperk Hmink]]]].
    + intros j Hj. destruct (Nat.eq_dec j (S c)) as [->|Hne]; [exact E|].
      apply Hmin. lia.
    + exists p. split; [|exact Hper].
      destruct (Nat.eq_dec p (S c)) as [->|Hne]; [contradiction | lia].
    + exists k. split; [exact Hk|]. split; [lia|]. split; assumption.
Qed.

End OrbitLength.

(** C5. For every diagram [d], [orbit_length] returns (given fuel for
    [perimeter] turns of its loop, and for one turn at least) the least
    positive [k] such that rotating the binary description of [d] by [k]
    positions gives the binary description back, and this [k] divides the
    perimeter [height + width]. *)
Theorem orbit_length_least_period (d : YoungDiagram) (fuel : nat) :
  valid d -> (1 <= fuel)%nat -> (Z.to_nat (_n d) <= fuel)%nat ->
  exists k : nat,
    orbit_length fuel d = Some (Z.of_nat k) /\
    (0 < k)%nat /\
    rotate k (_binary_description d) = _binary_description d /\
    (forall j, (0 < j < k)%nat ->
       rotate j (_binary_description d) <> _binary_description d) /\
    (Z.of_nat k | _height d + _width d).
Proof.
  intros Hv Hf1 Hfn. apply valid_wf in Hv.
  destruct (wf_binary_description d Hv) as [_ [Hl _]].
  assert (Hlen : length (_binary_description d) = Z.to_nat (_n d))
    by (unfold len in Hl; lia).
  destruct (orbit_length_loop_spec (_binary_description d) fuel 0)
    as [k [Hk [Hpos [Hper Hmin]]]].
  - intros j Hj; lia.
  - destruct (Nat.eq_dec (Z.to_nat (_n d)) 0) as [E|E].
    + exists 1%nat. split; [lia|].
      destruct (_binary_description d); [reflexivity | simpl in Hlen; lia].
    + exists (Z.to_nat (_n d)). split; [lia|].
      rewrite <- Hlen. apply rotate_length.
  - exists k. unfold orbit_length. rewrite <- Hl. simpl rotate in Hk.
    split; [exact Hk|]. split; [exact Hpos|]. split; [exact Hper|].
    split; [exact Hmin|].
    rewrite <- (wf_n _ Hv), <- Hl.
    destruct (period_divides k (length (_binary_description d)) _ Hpos Hper Hmin
                (rotate_length _)) as [q Hq].
    exists (Z.of_nat q). unfold len. lia.
Qed.

Lemma orbit_length_least_period_witness :
  exists d, __init__ 2 2 [2; 1] = Ok d /\
  exists k : nat,
    orbit_length 4 d = Some (Z.of_nat k) /\
    (0 < k)%nat /\
    rotate k (_binary_description d) = _binary_description d /\
    (forall j, (0 < j < k)%nat ->
       rotate j (_binary_description d) <> _binary_description d) /\
    (Z.of_nat k | _height d + _width d).
Proof.
  eexists. split; [reflexivity|].
  apply orbit_length_least_period.
  - exists 2, 2, [2; 1]. reflexivity.
  - lia.
  - simpl. lia.
Defined.

(** ** The cyclic orbit *)

Lemma nth_map_turned (d : YoungDiagram) (p i : nat) :
  (i < p)%nat -> nth i (map (turned d) (seq 0 p)) d = turned d i.
Proof.
  intros Hi.
  rewrite (nth_indep _ d (turned d 0)) by (rewrite length_map, length_seq; exact Hi).
  rewrite map_nth, seq_nth by exact Hi. reflexivity.
Qed.

Section CyclicOrbit.

Variable d : YoungDiagram.
Hypothesis d_wf : wf d.
Hypothesis d_perimeter : 2 <= _n d.

Variable p : nat.
Hypothesis p_period : rotate p (_binary_description d) = _binary_description d.
Hypothesis p_least : forall j, (0 < j < p)%nat ->
  rotate j (_binary_description d) <> _binary_description d.

Lemma turned_back (k : nat) :
  __eq__ (turned d k) d = true <->
  rotate k (_binary_description d) = _binary_description d.
Proof.
  destruct (turned_spec d k d_wf) as [_ [Hwk _]].
  rewrite (eq_wf _ _ Hwk d_wf).
  rewrite <- (turned_0 d d_wf) at 2.
  rewrite (turned_eq d k 0 d_wf). reflexivity.
Qed.

(** From the [c]-th diagram of the orbit the loop yields the diagrams up to
    the period and returns. *)
Lemma cyclic_orbit_loop_spec (fuel : nat) : forall c : nat,
  (c < p)%nat -> (p - c <= fuel)%nat ->
  cyclic_orbit_loop fuel d (turned d c) =
  (map (turned d) (seq c (p - c)), Finished).
Proof.
  induction fuel as [|fuel IH]; intros c Hc Hf; [lia|].
  simpl cyclic_orbit_loop. unfold __rshift__.
  rewrite cyclic_action_1 by assumption.
  destruct (__eq__ (turned d (S c)) d) eqn:E.
  - apply turned_back in E.
    assert (p = S c) as ->.
    { destruct (Nat.eq_dec p (S c)) as [H|H]; [exact H|].
      exfalso. apply (p_least (S c)); [lia | exact E]. }
    replace (S c - c)%nat with 1%nat by lia. reflexivity.
  - assert (Hlt : (S c < p)%nat).
    { destruct (Nat.eq_dec p (S c)) as [H|H]; [|lia].
      rewrite <- H in E. apply turned_back in p_period. congruence. }
    rewrite IH by lia.
    replace (p - c)%nat with (S (p - S c)) by lia. reflexivity.
Qed.

End CyclicOrbit.

(** C6, as the code has it.  For every diagram [d] of perimeter at least 2
    the sequence [cyclic_orbit()] is finite: it starts at [d], each further
    element is the one before it rotated by 1 and differs from [d], the
    rotation of the last element is equal to [d], and there are at most
    [perimeter] elements.  For a diagram of perimeter 0 the sequence yields
    [d] and then fails with [NotImplementedError]. *)
Theorem cyclic_orbit_finite (d : YoungDiagram) :
  valid d ->
  (2 <= _n d ->
   exists orbit,
     (forall fuel, (Z.to_nat (_n d) <= fuel)%nat ->
        cyclic_orbit fuel d = (orbit, Finished)) /\
     (1 <= length orbit <= Z.to_nat (_n d))%nat /\
     nth 0 orbit d = d /\
     (forall i, (S i < length orbit)%nat ->
        cyclic_action (nth i orbit d) 1 = Ok (nth (S i) orbit d) /\
        __eq__ (nth (S i) orbit d) d = false) /\
     (exists back,
        cyclic_action (nth (length orbit - 1) orbit d) 1 = Ok back /\
        __eq__ back d = true)) /\
  (_n d = 0 ->
   forall fuel, (1 <= fuel)%nat ->
     cyclic_orbit fuel d = ([d], Raised NotImplementedError)).
Proof.
  intros Hv. apply valid_wf in Hv. split.
  - intros Hn.
    destruct (wf_binary_description d Hv) as [_ [Hl _]].
    assert (Hlen : length (_binary_description d) = Z.to_nat (_n d))
      by (unfold len in Hl; lia).
    destruct (orbit_length_loop_spec (_binary_description d) (Z.to_nat (_n d)) 0)
      as [p [_ [Hpos [Hper Hmin]]]].
    { intros j Hj; lia. }
    { exists (Z.to_nat (_n d)). split; [lia|].
      rewrite <- Hlen. apply rotate_length. }
    assert (Hpn : (p <= Z.to_nat (_n d))%nat).
    { destruct (Nat.le_gt_cases p (Z.to_nat (_n d))) as [H|H]; [exact H|].
      exfalso. apply (Hmin (Z.to_nat (_n d))); [lia|].
      rewrite <- Hlen. apply rotate_length. }
    exists (map (turned d) (seq 0 p)).
    rewrite length_map, length_seq.
    split; [|split; [lia|split; [|split]]].
    + intros fuel Hf. unfold cyclic_orbit.
      rewrite <- (turned_0 d Hv) at 2.
      rewrite (cyclic_orbit_loop_spec d Hv Hn p Hper Hmin) by lia.
      now rewrite Nat.sub_0_r.
    + rewrite nth_map_turned by lia. now apply turned_0.
    + intros i Hi. rewrite !nth_map_turned by lia.
      split; [now apply cyclic_action_1|].
      destruct (__eq__ (turned d (S i)) d) eqn:E; [|reflexivity].
      apply turned_back in E; [|exact Hv].
      exfalso. apply (Hmin (S i)); [lia | exact E].
    + exists (turned d p). rewrite nth_map_turned by lia.
      split.
      * replace p with (S (p - 1)) at 2 by lia. now apply cyclic_action_1.
      * now apply turned_back.
  - intros Hn fuel Hf. destruct fuel as [|fuel]; [lia|].
    unfold cyclic_orbit; simpl. unfold __rshift__, cyclic_action.
    rewrite Hn. reflexivity.
Qed.

Lemma cyclic_orbit_finite_witness :
  exists d, __init__ 2 2 [2; 1] = Ok d /\
  (2 <= _n d ->
   exists orbit,
     (forall fuel, (Z.to_nat (_n d) <= fuel)%nat ->
        cyclic_orbit fuel d = (orbit, Finished)) /\
     (1 <= length orbit <= Z.to_nat (_n d))%nat /\
     nth 0 orbit d = d /\
     (forall i, (S i < length orbit)%nat ->
        cyclic_action (nth i orbit d) 1 = Ok (nth (S i) orbit d) /\
        __eq__ (nth (S i) orbit d) d = false) /\
     (exists back,
        cyclic_action (nth (length orbit - 1) orbit d) 1 = Ok back /\
        __eq__ back d = true)) /\
  (_n d = 0 ->
   forall fuel, (1 <= fuel)%nat ->
     cyclic_orbit fuel d = ([d], Raised NotImplementedError)).
Proof.
  eexists. split; [reflexivity|].
  apply cyclic_orbit_finite.
  exists 2, 2, [2; 1]. reflexivity.
Defined.

(** The claim of C6 for all diagrams fails on the diagram of the empty box:
    its sequence does not end by returning, it raises. *)
Lemma cyclic_orbit_empty_box_raises :
  __init__ 0 0 [] = Ok empty_diagram /\
  forall fuel, (1 <= fuel)%nat ->
    cyclic_orbit fuel empty_diagram = ([empty_diagram], Raised NotImplementedError) /\
    (length (fst (cyclic_orbit fuel empty_diagram)) > Z.to_nat (_n empty_diagram))%nat /\
    snd (cyclic_orbit fuel empty_diagram) <> Finished.
Proof.
  split; [reflexivity|].
  intros fuel Hf. destruct fuel as [|fuel]; [lia|].
  simpl. repeat split; [lia | discriminate].
Qed.

(** ** Triangular diagrams *)

Lemma complement_spec (d : YoungDiagram) :
  wf d ->
  exists c, complement d = Ok c /\ wf c /\
    _binary_description c = rev (_binary_description d) /\
    _height c = _height d /\ _width c = _width d.
Proof.
  intros Hd. destruct (wf_binary_description d Hd) as [Hb [_ [HU [HR _]]]].
  destruct (Construct_binary _ (binary_rev _ Hb)) as [c [Hc [Hwf [Hbd [Hh Hw]]]]].
  exists c. unfold complement. rewrite !count_rev in *.
  repeat (split; [first [assumption | congruence]|]). congruence.
Qed.

Lemma is_upper_triangular_raises (d : YoungDiagram) :
  _height d <= 0 -> is_upper_triangular d = Raise NotImplementedError.
Proof.
  intros H. unfold is_upper_triangular.
  now replace (0 <? _height d) with false by (symmetry; apply Z.ltb_ge; lia).
Qed.

Lemma is_upper_triangular_total (d : YoungDiagram) :
  0 < _height d -> exists b, is_upper_triangular d = Ok b.
Proof.
  intros H. unfold is_upper_triangular.
  replace (0 <? _height d) with true by (symmetry; apply Z.ltb_lt; lia).
  eauto.
Qed.

Lemma is_lower_triangular_total (d : YoungDiagram) :
  wf d -> 0 < _height d -> exists b, is_lower_triangular d = Ok b.
Proof.
  intros Hd Hh. destruct (complement_spec d Hd) as [c [Hc [_ [_ [Hhc _]]]]].
  unfold is_lower_triangular. rewrite Hc. simpl.
  apply is_upper_triangular_total. lia.
Qed.

Lemma is_lower_triangular_raises (d : YoungDiagram) :
  wf d -> _height d = 0 -> is_lower_triangular d = Raise NotImplementedError.
Proof.
  intros Hd Hh. destruct (complement_spec d Hd) as [c [Hc [_ [_ [Hhc _]]]]].
  unfold is_lower_triangular. rewrite Hc. simpl.
  apply is_upper_triangular_raises. lia.
Qed.

Lemma cyclic_action_total (d : YoungDiagram) (steps : Z) :
  wf d -> 0 < _n d -> exists r, cyclic_action d steps = Ok r.
Proof.
  intros Hd Hn. rewrite cyclic_action_unfold by assumption.
  destruct (steps mod _n d =? 0).
  - exists empty_diagram. reflexivity.
  - destruct (turned_spec d (Z.to_nat (steps mod _n d)) Hd) as [Hc _]. eauto.
Qed.

Lemma lower_after_turned (d : YoungDiagram) (k : nat) (b : bool) :
  wf d -> is_lower_triangular (turned d k) = Ok b -> lower_after d k b.
Proof.
  intros Hd H. exists (turned d k). split; [apply turned_spec, Hd | exact H].
Qed.

Section StepsLoop.

Variable d : YoungDiagram.
Hypothesis d_wf : wf d.
Hypothesis d_height : 0 < _height d.

(** The loop tests the diagrams of the orbit in turn, from the [c]-th on. *)
Lemma steps_loop_spec (remaining : nat) : forall c : nat,
  Z.of_nat (c + remaining) = _n d ->
  (forall j, (j < c)%nat -> is_lower_triangular (turned d j) = Ok false) ->
  (exists k : nat,
     steps_loop remaining (Z.of_nat c) (turned d c) = Ok (Some (Z.of_nat k)) /\
     Z.of_nat k < _n d /\
     is_lower_triangular (turned d k) = Ok true /\
     forall j, (j < k)%nat -> is_lower_triangular (turned d j) = Ok false) \/
  (steps_loop remaining (Z.of_nat c) (turned d c) = Ok None /\
   forall j, Z.of_nat j < _n d -> is_lower_triangular (turned d j) = Ok false).
Proof.
  induction remaining as [|remaining IH]; intros c Hc Hbefore.
  - right. split; [reflexivity|]. intros j Hj. apply Hbefore. lia.
  - simpl steps_loop.
    destruct (turned_spec d c d_wf) as [_ [Hwc [_ [Hhc [_ Hnc]]]]].
    destruct (is_lower_triangular_total (turned d c) Hwc ltac:(lia)) as [b Hb].
    rewrite Hb. cbn [bind]. destruct b.
    + left. exists c. repeat split; auto; lia.
    + assert (Hbefore' : forall j, (j < S c)%nat ->
                is_lower_triangular (turned d j) = Ok false).
      { intros j Hj. destruct (Nat.eq_dec j c) as [->|Hne]; [exact Hb|].
        apply Hbefore. lia. }
      destruct remaining as [|remaining'].
      * destruct (cyclic_action_total (turned d c) 1 Hwc ltac:(lia)) as [r Hr].
        unfold __rshift__. rewrite Hr. cbn [bind steps_loop].
        right. split; [reflexivity|]. intros j Hj. apply Hbefore'. lia.
      * unfold __rshift__. rewrite cyclic_action_1 by (auto; lia). cbn [bind].
        replace (Z.of_nat c + 1) with (Z.of_nat (S c)) by lia.
        apply IH; [lia | exact Hbefore'].
Qed.

Lemma turned_mod (j : nat) : turned d j = turned d (j mod Z.to_nat (_n d)).
Proof.
  destruct (wf_binary_description d d_wf) as [_ [Hl _]].
  apply turned_eq; [exact d_wf|].
  replace (Z.to_nat (_n d)) with (length (_binary_description d))
    by (unfold len in Hl; lia).
  apply rotate_mod.
Qed.

End StepsLoop.

(** C8, as the code has it.  For every diagram [d] of positive height,
    [steps_to_next_lower_triangular] returns the smallest [k] such that
    [d] rotated by [k] positions is lower triangular, and this [k] is less
    than the perimeter; it returns [None] when no rotation of [d] is lower
    triangular.  On the diagram of the empty box it returns [None]; on a
    diagram of height 0 and positive width it fails with
    [NotImplementedError]. *)
Theorem steps_to_next_lower_triangular_spec (d : YoungDiagram) :
  valid d ->
  (0 < _height d ->
   (exists k : nat,
      steps_to_next_lower_triangular d = Ok (Some (Z.of_nat k)) /\
      Z.of_nat k < _n d /\
      lower_after d k true /\
      forall j, (j < k)%nat -> lower_after d j false) \/
   (steps_to_next_lower_triangular d = Ok None /\
    forall j : nat, lower_after d j false)) /\
  (_n d = 0 -> steps_to_next_lower_triangular d = Ok None) /\
  (_height d = 0 -> 0 < _width d ->
   steps_to_next_lower_triangular d = Raise NotImplementedError).
Proof.
  intros Hv. apply valid_wf in Hv. split; [|split].
  - intros Hh. assert (Hn : 0 < _n d).
    { rewrite (wf_n _ Hv). assert (H := wf_width _ Hv). lia. }
    unfold steps_to_next_lower_triangular.
    destruct (steps_loop_spec d Hv Hh (Z.to_nat (_n d)) 0) as [[k [Hk [Hlt [Ht Hf]]]]|[Hk Hf]];
      try (rewrite (turned_0 d Hv) in Hk; change (Z.of_nat 0) with 0 in Hk).
    + lia.
    + intros j Hj; lia.
    + left. exists k. split; [exact Hk|]. split; [exact Hlt|].
      split; [now apply lower_after_turned|].
      intros j Hj. apply lower_after_turned; auto.
    + right. split; [exact Hk|].
      intros j. apply lower_after_turned; [exact Hv|].
      rewrite (turned_mod d Hv). apply Hf.
      assert (H := Nat.mod_upper_bound j (Z.to_nat (_n d))). lia.
  - intros Hn. unfold steps_to_next_lower_triangular. rewrite Hn. reflexivity.
  - intros Hh Hw. unfold steps_to_next_lower_triangular.
    rewrite (wf_n _ Hv), Hh.
    destruct (Z.to_nat (0 + _width d)) as [|m] eqn:E; [lia|].
    simpl. now rewrite is_lower_triangular_raises.
Qed.

Lemma steps_to_next_lower_triangular_spec_witness :
  exists d, __init__ 2 2 [2; 1] = Ok d /\
  (0 < _height d ->
   (exists k : nat,
      steps_to_next_lower_triangular d = Ok (Some (Z.of_nat k)) /\
      Z.of_nat k < _n d /\
      lower_after d k true /\
      forall j, (j < k)%nat -> lower_after d j false) \/
   (steps_to_next_lower_triangular d = Ok None /\
    forall j : nat, lower_after d j false)) /\
  (_n d = 0 -> steps_to_next_lower_triangular d = Ok None) /\
  (_height d = 0 -> 0 < _width d ->
   steps_to_next_lower_triangular d = Raise NotImplementedError).
Proof.
  eexists. split; [reflexivity|].
  apply steps_to_next_lower_triangular_spec.
  exists 2, 2, [2; 1]. reflexivity.
Defined.

(** The claim of C8 for all diagrams fails on a diagram of height 0: there
    the method neither returns a number nor [None], it raises. *)
Lemma steps_to_next_lower_triangular_flat_raises :
  exists d, __init__ 0 1 [] = Ok d /\
    steps_to_next_lower_triangular d = Raise NotImplementedError /\
    forall r, steps_to_next_lower_triangular d <> Ok r.
Proof.
  eexists. split; [reflexivity|]. split; [reflexivity|].
  intros r. discriminate.
Qed.

(** ** The volume *)

Lemma sum_app (l l' : list Z) : sum (l ++ l') = sum l + sum l'.
Proof.
  induction l as [|a l IH]; simpl; [reflexivity|].
  unfold sum in *; simpl. rewrite IH. lia.
Qed.

Lemma sum_cons (a : Z) (l : list Z) : sum (a :: l) = a + sum l.
Proof. reflexivity. Qed.

Lemma sum_map_add (f g : Z -> Z) (l : list Z) :
  sum (map (fun r => f r + g r) l) = sum (map f l) + sum (map g l).
Proof.
  induction l as [|a l IH]; [reflexivity|].
  unfold sum in *; simpl. rewrite IH. lia.
Qed.

Lemma sum_map_zero (l : list Z) : sum (map (fun _ => 0) l) = 0.
Proof.
  induction l as [|a l IH]; [reflexivity|]. unfold sum in *; simpl. exact IH.
Qed.

(** A column of height [c] meets the rows [0 .. c - 1]. *)
Lemma sum_column (c : Z) (k : nat) :
  0 <= c ->
  sum (map (fun r => if r <=? c - 1 then 1 else 0) (range (Z.of_nat k)))
  = Z.min c (Z.of_nat k).
Proof.
  intros Hc. induction k as [|k IH]; [cbn; lia|].
  rewrite range_succ, map_app, sum_app, IH. cbn [map sum fold_right].
  destruct (Z.of_nat k <=? c - 1) eqn:E;
    [apply Z.leb_le in E | apply Z.leb_gt in E]; lia.
Qed.

(** Counting the cells by rows or by columns gives the same volume. *)
Lemma sum_row_widths (cs : list Z) (height : Z) :
  0 <= height -> (forall c, In c cs -> 0 <= c <= height) ->
  sum (map (row_width cs) (range height)) = sum cs.
Proof.
  intros Hh. induction cs as [|c cs IH]; intros Hcs.
  - rewrite (map_ext _ (fun _ => 0)) by (intros; apply row_width_nil).
    apply sum_map_zero.
  - rewrite (map_ext _ (fun r => (if r <=? c - 1 then 1 else 0) + row_width cs r))
      by (intros; apply row_width_cons).
    rewrite sum_map_add, IH by (intros; apply Hcs; now right).
    assert (H := Hcs c (or_introl eq_refl)).
    replace height with (Z.of_nat (Z.to_nat height)) by lia.
    rewrite sum_column by lia. unfold sum; simpl. lia.
Qed.

Lemma inversions_snoc (s : list ascii) (a : ascii) :
  inversions (s ++ [a]) =
  inversions s + (if Ascii.eqb a U then count R s else 0).
Proof.
  induction s as [|b s IH]; simpl.
  - rewrite count_nil. destruct (Ascii.eqb a R), (Ascii.eqb a U); reflexivity.
  - rewrite IH, count_app, !count_cons, count_nil, (Ascii.eqb_sym U a), (Ascii.eqb_sym R b).
    destruct (Ascii.eqb b R); destruct (Ascii.eqb a U); lia.
Qed.

Lemma inversions_rev (s : list ascii) :
  binary s -> inversions (rev s) + inversions s = count U s * count R s.
Proof.
  induction 1 as [|a s Ha Hs IH]; [reflexivity|].
  simpl rev. rewrite inversions_snoc, count_rev. simpl inversions.
  rewrite !count_cons.
  revert IH. generalize (inversions (rev s)) (inversions s) (count U s) (count R s).
  intros i i' u r IH.
  destruct Ha as [-> | ->]; rewrite ?Ascii.eqb_refl, ?eqb_UR, ?eqb_RU; nia.
Qed.

Lemma sum_column_heights (s : list ascii) : forall c,
  binary s ->
  sum (column_heights_from c s) = inversions s + (c - count U s) * count R s.
Proof.
  induction s as [|a s IH]; intros c Hb; [cbn; lia|].
  inversion Hb as [|? ? Ha Hs]; subst.
  destruct Ha as [-> | ->].
  - rewrite column_heights_U, IH by exact Hs. simpl inversions.
    rewrite !count_cons, ?eqb_UR, ?eqb_RU, ?Ascii.eqb_refl.
    generalize (inversions s) (count U s) (count R s). intros; ring.
  - rewrite column_heights_R, sum_cons, IH by exact Hs. cbn [inversions].
    rewrite !count_cons, ?eqb_UR, ?Ascii.eqb_refl.
    generalize (inversions s) (count U s) (count R s). intros; ring.
Qed.

(** The volume of a diagram, read off its binary description. *)
Lemma volume_inversions (d : YoungDiagram) :
  wf d -> volume d = inversions (_binary_description d).
Proof.
  intros Hd. destruct (wf_binary_description d Hd) as [Hb [_ [HU [_ Hrows]]]].
  unfold volume. rewrite <- Hrows.
  rewrite sum_row_widths.
  - rewrite sum_column_heights by exact Hb. rewrite HU. lia.
  - apply Hd.
  - intros c Hc. apply column_heights_bounds in Hc.
    rewrite HU in Hc. assert (H := wf_height _ Hd). lia.
Qed.

(** C10. For every diagram [d], the complement of [d] has the volume
    [height * width - volume]: the complement fills what [d] leaves empty
    in the box. *)
Theorem complement_volume (d : YoungDiagram) :
  valid d ->
  exists c, complement d = Ok c /\
    volume c = _height d * _width d - volume d.
Proof.
  intros Hv. apply valid_wf in Hv.
  destruct (complement_spec d Hv) as [c [Hc [Hwf [Hbd _]]]].
  destruct (wf_binary_description d Hv) as [Hb [_ [HU [HR _]]]].
  exists c. split; [exact Hc|].
  rewrite (volume_inversions c Hwf), (volume_inversions d Hv), Hbd.
  assert (H := inversions_rev _ Hb). rewrite HU, HR in H. lia.
Qed.

Lemma complement_volume_witness :
  exists d, __init__ 3 4 [4; 2] = Ok d /\
  exists c, complement d = Ok c /\
    volume c = _height d * _width d - volume d.
Proof.
  eexists. split; [reflexivity|].
  apply complement_volume.
  exists 3, 4, [4; 2]. reflexivity.
Defined.

(** ** The operations that are not supported on degenerate boxes *)

Lemma slope_raises (d : YoungDiagram) :
  _width d <= 0 -> slope d = Raise NotImplementedError.
Proof.
  intros H. unfold slope.
  now replace (0 <? _width d) with false by (symmetry; apply Z.ltb_ge; lia).
Qed.

Lemma slope_total (d : YoungDiagram) :
  0 < _width d -> exists q, slope d = Ok q.
Proof.
  intros H. unfold slope.
  replace (0 <? _width d) with true by (symmetry; apply Z.ltb_lt; lia). eauto.
Qed.

Lemma cyclic_action_raises (d : YoungDiagram) (steps : Z) :
  _n d <= 0 -> cyclic_action d steps = Raise NotImplementedError.
Proof.
  intros H. unfold cyclic_action.
  now replace (0 <? _n d) with false by (symmetry; apply Z.ltb_ge; lia).
Qed.

(** C7, as the code has it.  On a diagram, [is_upper_triangular] fails with
    [NotImplementedError] exactly when the height is 0, [slope] exactly when
    the width is 0, and [cyclic_action] exactly when the perimeter is 0, that
    is when height and width are both 0; in every other case each of them
    returns a value. *)
Theorem unsupported_operations (d : YoungDiagram) :
  valid d ->
  (_height d = 0 -> is_upper_triangular d = Raise NotImplementedError) /\
  (_height d <> 0 -> exists b, is_upper_triangular d = Ok b) /\
  (_width d = 0 -> slope d = Raise NotImplementedError) /\
  (_width d <> 0 -> exists q, slope d = Ok q) /\
  (_height d = 0 /\ _width d = 0 ->
   forall steps, cyclic_action d steps = Raise NotImplementedError) /\
  (_height d <> 0 \/ _width d <> 0 ->
   forall steps, exists r, cyclic_action d steps = Ok r).
Proof.
  intros Hv. apply valid_wf in Hv.
  assert (Hh := wf_height _ Hv). assert (Hw := wf_width _ Hv).
  assert (Hn := wf_n _ Hv).
  split; [|split; [|split; [|split; [|split]]]].
  - intros H. apply is_upper_triangular_raises. lia.
  - intros H. apply is_upper_triangular_total. lia.
  - intros H. apply slope_raises. lia.
  - intros H. apply slope_total. lia.
  - intros [H H'] steps. apply cyclic_action_raises. lia.
  - intros H steps. apply cyclic_action_total; [exact Hv | lia].
Qed.

Lemma unsupported_operations_witness :
  exists d, __init__ 0 3 [] = Ok d /\
  (_height d = 0 -> is_upper_triangular d = Raise NotImplementedError) /\
  (_height d <> 0 -> exists b, is_upper_triangular d = Ok b) /\
  (_width d = 0 -> slope d = Raise NotImplementedError) /\
  (_width d <> 0 -> exists q, slope d = Ok q) /\
  (_height d = 0 /\ _width d = 0 ->
   forall steps, cyclic_action d steps = Raise NotImplementedError) /\
  (_height d <> 0 \/ _width d <> 0 ->
   forall steps, exists r, cyclic_action d steps = Ok r).
Proof.
  eexists. split; [reflexivity|].
  apply unsupported_operations.
  exists 0, 3, []. reflexivity.
Defined.

(** The claim of C7 for all diagrams of height 0 or width 0 fails: on the
    diagram of height 0 and width 1 [slope] and [cyclic_action] return, and
    on the diagram of height 1 and width 0 [is_upper_triangular] and
    [cyclic_action] return. *)
Lemma degenerate_boxes_return :
  (exists d, __init__ 0 1 [] = Ok d /\ _height d = 0 /\
     slope d = Ok (inject_Z 0 / inject_Z 1)%Q /\
     cyclic_action d 1 = Ok empty_diagram) /\
  (exists d, __init__ 1 0 [] = Ok d /\ _width d = 0 /\
     is_upper_triangular d = Ok true /\
     cyclic_action d 1 = Ok empty_diagram).
Proof.
  split; eexists; repeat split; reflexivity.
Qed.

(** ** Rotating by a multiple of the perimeter *)

(** When the steps are a multiple of the perimeter both slices of
    [cyclic_action] are empty, and the result is the diagram of the empty
    box, not the diagram itself. *)
Lemma cyclic_action_multiple (d : YoungDiagram) (steps : Z) :
  valid d -> 0 < _n d -> steps mod _n d = 0 ->
  cyclic_action d steps = Ok empty_diagram /\ __eq__ empty_diagram d = false.
Proof.
  intros Hv Hn Hs. apply valid_wf in Hv.
  rewrite cyclic_action_unfold, Hs by assumption. split; [reflexivity|].
  destruct (__eq__ empty_diagram d) eqn:E; [|reflexivity].
  apply eq_true_iff in E. destruct E as [Hh [Hw _]]. simpl in Hh, Hw.
  rewrite (wf_n _ Hv) in Hn. lia.
Qed.

(** C2, on the code.  The diagram of height 1, width 1 and rows [(1,)]
    rotated by its perimeter 2 is the diagram of the empty box, which is not
    equal to it. *)
Theorem cyclic_action_perimeter_collapses :
  exists d, __init__ 1 1 [1] = Ok d /\ _n d = 2 /\
    cyclic_action d (_n d) = Ok empty_diagram /\
    __eq__ empty_diagram d = false.
Proof.
  eexists. repeat split; reflexivity.
Qed.

(** The same slip in the orbit of a diagram of perimeter 1: the rotation by
    1 is a rotation by the perimeter, so the orbit leaves the box and then
    fails. *)
Lemma cyclic_orbit_perimeter_1 :
  exists d, __init__ 1 0 [] = Ok d /\
    forall fuel, (2 <= fuel)%nat ->
      cyclic_orbit fuel d = ([d; empty_diagram], Raised NotImplementedError).
Proof.
  eexists. split; [reflexivity|].
  intros fuel Hf. destruct fuel as [|[|fuel]]; try lia. reflexivity.
Qed.

(** ** The enumerators of the family *)

Lemma generate_In {A : Type} (calls : list (result A)) (a : A) :
  In a (fst (generate calls)) -> In (Ok a) calls.
Proof.
  induction calls as [|[b|e] calls IH]; simpl; [tauto | | tauto].
  destruct (generate calls) as [yielded e]. simpl in *.
  intros [-> | H]; [now left | right; now apply IH].
Qed.

(** Every diagram that [get_upper_triangulars] yields has the width of the
    family as its height and the height of the family as its width. *)
Lemma upper_triangulars_swap_the_box (family : Diagrams.YoungDiagrams)
  (yielded : list YoungDiagram) (e : ending) (d : YoungDiagram) :
  Diagrams.get_upper_triangulars family = Ok (yielded, e) ->
  In d yielded ->
  _height d = Diagrams._width family /\ _width d = Diagrams._height family.
Proof.
  unfold Diagrams.get_upper_triangulars.
  destruct (0 <? Diagrams._height family); [|discriminate].
  intros H Hd. injection H as H.
  assert (Hin : In d (fst (yielded, e))) by exact Hd.
  rewrite <- H in Hin. apply generate_In, in_map_iff in Hin.
  destruct Hin as [rows [Hrows _]].
  apply init_wf in Hrows. tauto.
Qed.

(** C3, on the code.  The family of height 1 and width 2 yields a diagram of
    height 2 and width 1: the enumerator passes the width where the
    constructor takes the height.  The family of height 1 and width 1 yields
    the diagram with rows [(0,)] only, and misses the diagram with rows
    [(1,)] of the same box, on which [is_upper_triangular] returns [True]:
    the ceiling of the enumerator counts the rows from [height - 1] down
    where [is_upper_triangular] counts them from [height] down. *)
Theorem upper_triangulars_not_those_of_the_box :
  (exists family, Diagrams.__init__ 1 2 = Ok family /\
     Diagrams.get_upper_triangulars family =
       Ok ([mkYoungDiagram 2 1 3 [0; 0] [U; U; R]], Finished)) /\
  (exists family d, Diagrams.__init__ 1 1 = Ok family /\
     Diagrams.get_upper_triangulars family =
       Ok ([mkYoungDiagram 1 1 2 [0] [U; R]], Finished) /\
     __init__ 1 1 [1] = Ok d /\
     is_upper_triangular d = Ok true /\
     __eq__ d (mkYoungDiagram 1 1 2 [0] [U; R]) = false).
Proof.
  split.
  - eexists. split; reflexivity.
  - eexists. eexists. repeat split; reflexivity.
Qed.

(** In a family higher than wide the first diagram already has more rows
    than the constructor accepts with the swapped box. *)
Lemma upper_triangulars_tall_family :
  exists family, Diagrams.__init__ 2 1 = Ok family /\
    Diagrams.get_upper_triangulars family = Ok ([], Raised AssertionError).
Proof. eexists. split; reflexivity. Qed.

(** C4, on the code.  The family of height 3 and width 9 yields the diagram
    without cells twice, the first time for its own orbit and the second
    time for the diagram with rows [(3, 3, 0)], which the swapped box lets
    through although it is not upper triangular there. *)
Theorem minimal_upper_triangulars_repeat_an_orbit :
  exists family yielded z,
    Diagrams.__init__ 3 9 = Ok family /\
    Diagrams.get_minimal_upper_triangulars 12 family
      = (yielded, Raised AssertionError) /\
    nth_error yielded 0 = Some z /\ nth_error yielded 6 = Some z /\
    is_upper_triangular z = Ok true.
Proof.
  eexists. eexists. eexists.
  split; [reflexivity|]. split; [vm_compute; reflexivity|].
  repeat split; reflexivity.
Qed.

(** The scenario of the family of height 3 and width 3: the enumerator of
    the minimal representatives returns, no two of the diagrams it yields
    are in one orbit, and each is upper triangular and the least upper
    triangular diagram of its orbit. *)
Lemma minimal_upper_triangulars_3_3 :
  exists family yielded,
    Diagrams.__init__ 3 3 = Ok family /\
    Diagrams.get_minimal_upper_triangulars 6 family = (yielded, Finished) /\
    map _usual_description yielded = [[0; 0; 0]; [1; 0; 0]; [1; 1; 0]; [2; 1; 0]] /\
    distinct_orbits 6 yielded = true /\
    Forall (fun d => is_upper_triangular d = Ok true) yielded /\
    forallb (least_upper_triangular 6) yielded = true.
Proof.
  eexists. eexists.
  split; [reflexivity|]. split; [vm_compute; reflexivity|].
  split; [reflexivity|]. split; [vm_compute; reflexivity|].
  split; [repeat constructor | vm_compute; reflexivity].
Qed.

(** ** The lists of the model of [IntegerListsLex] *)

(** The model lists the tuples of the given length that are weakly
    decreasing from [bound] on, non-negative, and below the ceiling. *)
Lemma In_lists_below (k : nat) : forall ceiling bound l,
  length ceiling = k ->
  (In l (lists_below k ceiling bound) <->
   length l = k /\ chain bound l /\ Forall2 Z.le l ceiling).
Proof.
  induction k as [|k IH]; intros ceiling bound l Hc.
  - destruct ceiling; [|discriminate]. simpl. split.
    + intros [<-|[]]. repeat split; constructor.
    + intros [Hl _]. destruct l; [now left | discriminate].
  - destruct ceiling as [|c cs]; [discriminate|].
    injection Hc as Hc. simpl lists_below. rewrite in_flat_map. split.
    + intros [part [Hp Hin]]. apply in_rev, In_range in Hp.
      apply in_map_iff in Hin. destruct Hin as [l' [<- Hl']].
      apply (IH cs part l' Hc) in Hl'. destruct Hl' as [Hlen [Hch HF]].
      split; [simpl; now f_equal|]. split; [simpl; split; [lia | exact Hch]|].
      constructor; [lia | exact HF].
    + intros [Hlen [Hch HF]]. destruct l as [|part l']; [discriminate|].
      inversion HF; subst. destruct Hch as [Hb Hch]. injection Hlen as Hlen.
      exists part. split; [apply -> in_rev; apply In_range; lia|].
      apply in_map, IH; auto.
Qed.

Lemma sorted_app {A : Type} (lt : A -> A -> Prop) (l l' : list A) :
  StronglySorted lt l -> StronglySorted lt l' ->
  (forall a b, In a l -> In b l' -> lt a b) ->
  StronglySorted lt (l ++ l').
Proof.
  induction 1 as [|a l Hl IH Ha]; intros Hl' Hcross; [exact Hl'|].
  simpl. constructor.
  - apply IH; [exact Hl'|]. intros x y Hx Hy. apply Hcross; [now right | exact Hy].
  - apply Forall_app; split; [exact Ha|].
    apply Forall_forall. intros y Hy. apply Hcross; [now left | exact Hy].
Qed.

Lemma sorted_rev_range (n : Z) : StronglySorted Z.gt (rev (range n)).
Proof.
  replace (range n) with (range (Z.of_nat (Z.to_nat n)))
    by (unfold range; now rewrite Nat2Z.id).
  induction (Z.to_nat n) as [|k IH]; [constructor|].
  rewrite range_succ, rev_app_distr. simpl. constructor; [exact IH|].
  apply Forall_forall. intros x Hx. apply in_rev, In_range in Hx. lia.
Qed.

(** The model lists the tuples from the largest to the smallest. *)
Lemma lists_below_sorted (k : nat) : forall ceiling bound,
  StronglySorted (fun a b => lex_lt b a) (lists_below k ceiling bound).
Proof.
  induction k as [|k IH]; intros ceiling bound.
  - simpl. repeat constructor.
  - simpl lists_below.
    generalize (sorted_rev_range
      (match ceiling with [] => bound | c :: _ => Z.min c bound end + 1)).
    generalize (rev (range
      (match ceiling with [] => bound | c :: _ => Z.min c bound end + 1))).
    intros parts Hparts. induction Hparts as [|part parts Hs IHs Hpart].
    + constructor.
    + simpl. apply sorted_app; [| exact IHs |].
      * generalize (IH (tl ceiling) part).
        generalize (lists_below k (tl ceiling) part).
        intros ls Hls. induction Hls as [|a ls Hl IHl Ha]; simpl; constructor; auto.
        rewrite Forall_map. revert Ha. apply Forall_impl.
        intros b Hb. now constructor.
      * intros a b Ha Hb. apply in_map_iff in Ha. destruct Ha as [a' [<- _]].
        apply in_flat_map in Hb. destruct Hb as [part' [Hp' Hb]].
        apply in_map_iff in Hb. destruct Hb as [b' [<- _]].
        rewrite Forall_forall in Hpart. apply Hpart in Hp'.
        constructor. lia.
Qed.

(** ** The exact quotients *)

(** The comparison with the rational quotient, on integers. *)
Lemma quotient_le (row_length a h : Z) :
  0 < h ->
  Qle_bool (inject_Z row_length) (inject_Z a / inject_Z h) = true <->
  row_length * h <= a.
Proof.
  intros Hh. rewrite Qle_bool_iff.
  destruct h as [|p|p]; try lia.
  unfold Qle, Qdiv, Qmult, Qinv, inject_Z. simpl. lia.
Qed.

(** The floor of the rational quotient is the integer quotient. *)
Lemma floor_quotient (a h : Z) :
  0 < h -> Qfloor (inject_Z a / inject_Z h) = a / h.
Proof.
  intros Hh. destruct h as [|p|p]; try lia.
  unfold Qfloor, Qdiv, Qmult, Qinv, inject_Z. simpl. f_equal; lia.
Qed.

Lemma In_enumerate (l : list Z) (i x : Z) :
  In (i, x) (enumerate l) <-> 0 <= i < len l /\ x = row l i.
Proof.
  unfold enumerate, row, len.
  assert (Hlen : length (range (Z.of_nat (length l))) = length l)
    by (rewrite length_range; lia).
  split.
  - intros H. destruct (In_nth _ _ (0, 0) H) as [k [Hk Hnth]].
    rewrite length_combine, Hlen, Nat.min_id in Hk.
    rewrite combine_nth in Hnth by exact Hlen.
    unfold range in Hnth.
    rewrite (nth_indep _ 0 (Z.of_nat 0)) in Hnth
      by (rewrite length_map, length_seq; lia).
    rewrite map_nth, seq_nth in Hnth by lia.
    injection Hnth as <- <-. split; [lia|]. now rewrite Nat2Z.id.
  - intros [Hi ->].
    replace (i, nth (Z.to_nat i) l 0)
      with (nth (Z.to_nat i) (combine (range (Z.of_nat (length l))) l) (0, 0)).
    + apply nth_In. rewrite length_combine, Hlen, Nat.min_id. lia.
    + rewrite combine_nth by exact Hlen. f_equal.
      unfold range.
      rewrite (nth_indep _ 0 (Z.of_nat 0)) by (rewrite length_map, length_seq; lia).
      rewrite map_nth, seq_nth by lia. simpl. lia.
Qed.

(** [is_upper_triangular] returns [True] when every row [r] has at most
    [width * (height - r) / height] cells. *)
Lemma is_upper_triangular_true (d : YoungDiagram) :
  0 < _height d ->
  (is_upper_triangular d = Ok true <->
   forall r, 0 <= r < len (_usual_description d) ->
     row (_usual_description d) r * _height d <= _width d * (_height d - r)).
Proof.
  intros Hh. unfold is_upper_triangular.
  replace (0 <? _height d) with true by (symmetry; apply Z.ltb_lt; lia).
  set (test := fun '(row_counter, row_length) => _).
  split.
  - intros H r Hr. injection H as H.
    apply negb_true_iff in H.
    assert (Ht : test (r, row (_usual_description d) r) = true).
    { destruct (test (r, row (_usual_description d) r)) eqn:E; [reflexivity|].
      exfalso. apply not_true_iff_false in H. apply H.
      apply existsb_exists. exists false. split; [|reflexivity].
      rewrite <- E. apply in_map. now apply In_enumerate. }
    unfold test in Ht. now apply quotient_le in Ht.
  - intros H. f_equal. apply negb_true_iff.
    apply not_true_iff_false. intros E.
    apply existsb_exists in E. destruct E as [b [Hb Hfalse]].
    apply in_map_iff in Hb. destruct Hb as [[r x] [Ht Hin]].
    apply In_enumerate in Hin. destruct Hin as [Hr ->].
    destruct b; [discriminate|].
    assert (Htrue : test (r, row (_usual_description d) r) = true)
      by (unfold test; apply quotient_le; auto).
    congruence.
Qed.

(** * Further properties of the code *)

(** ** The two constructors *)

Lemma check_rows_Raise (rows : list Z) : forall previous stock,
  ~ chain previous rows ->
  check_rows previous rows stock = Raise AssertionError.
Proof.
  induction rows as [|r rest IH]; intros previous stock H; simpl in *.
  - tauto.
  - destruct (0 <=? r) eqn:E0; [|reflexivity].
    destruct (r <=? previous) eqn:E1; [|reflexivity].
    simpl. apply IH. apply Z.leb_le in E0, E1. tauto.
Qed.

Lemma init_Raise (height width : Z) (rows : list Z) :
  ~ valid_input height width rows ->
  __init__ height width rows = Raise AssertionError.
Proof.
  intros Hv. unfold __init__.
  destruct (0 <=? height) eqn:E0; [|reflexivity].
  destruct (0 <=? width) eqn:E1; [|reflexivity].
  destruct (len rows <=? height) eqn:E2; [|reflexivity].
  apply Z.leb_le in E0, E1, E2. simpl.
  rewrite check_rows_Raise; [reflexivity|].
  intros Hc. apply Hv. apply chain_iff in Hc. unfold valid_input. tauto.
Qed.

(** X1.  [Construct_From_Binary_Description] returns a diagram exactly on the
    strings over [U] and [R]: then the diagram has as many rows as the string
    has letters [U], as many columns as it has letters [R], and the string
    as its binary description; on every other string the call fails with
    [AssertionError]. *)
Theorem Construct_exactly_binary (string : list ascii) :
  (binary string ->
   exists d, Construct_From_Binary_Description string = Ok d /\ valid d /\
     _binary_description d = string /\
     _height d = count U string /\ _width d = count R string) /\
  (~ binary string ->
   Construct_From_Binary_Description string = Raise AssertionError).
Proof.
  split.
  - intros Hb. destruct (Construct_binary string Hb) as [d [Hc [Hwf H]]].
    exists d. split; [exact Hc|]. split; [now apply valid_wf | exact H].
  - intros Hb. unfold Construct_From_Binary_Description.
    destruct (len string =? count U string + count R string) eqn:E.
    + apply Z.eqb_eq, binary_count in E. contradiction.
    + reflexivity.
Qed.

(** X2.  [__init__] returns a diagram exactly on the valid inputs: the diagram
    then has the given height and width, their sum as perimeter, and the
    given rows followed by zero rows up to the height; on every other input
    the call fails with [AssertionError] (and never with [IndexError]). *)
Theorem init_exactly_valid (height width : Z) (rows : list Z) :
  (valid_input height width rows ->
   exists d, __init__ height width rows = Ok d /\
     _height d = height /\ _width d = width /\ _n d = height + width /\
     _usual_description d = rows ++ repeat 0 (Z.to_nat (height - len rows))) /\
  (~ valid_input height width rows ->
   __init__ height width rows = Raise AssertionError).
Proof.
  split.
  - intros Hv. destruct (init_total _ _ _ Hv) as [d Hd].
    exists d. split; [exact Hd|].
    destruct (init_wf _ _ _ _ Hd) as [Hwf [Hh [Hw Hu]]].
    repeat split; auto. rewrite (wf_n _ Hwf). congruence.
  - apply init_Raise.
Qed.

(** X3.  Every diagram that the constructor returns keeps the invariant of the
    data: as many rows as the height, weakly decreasing, each between 0 and
    the width; a binary description over [U] and [R] of the length of the
    perimeter with [height] letters [U] and [width] letters [R]. *)
Theorem diagram_invariant (d : YoungDiagram) :
  valid d ->
  0 <= _height d /\ 0 <= _width d /\ _n d = _height d + _width d /\
  len (_usual_description d) = _height d /\
  weakly_decreasing (_usual_description d) /\
  Forall (fun r => 0 <= r <= _width d) (_usual_description d) /\
  binary (_binary_description d) /\
  len (_binary_description d) = _n d /\
  count U (_binary_description d) = _height d /\
  count R (_binary_description d) = _width d.
Proof.
  intros Hv. apply valid_wf in Hv.
  destruct (wf_binary_description d Hv) as [Hb [Hl [HU [HR _]]]].
  destruct Hv as [Hh Hw Hn Hlen Hc _]. apply chain_iff in Hc.
  tauto.
Qed.

Lemma diagram_invariant_witness :
  exists d, __init__ 3 4 [4; 2] = Ok d /\
  0 <= _height d /\ 0 <= _width d /\ _n d = _height d + _width d /\
  len (_usual_description d) = _height d /\
  weakly_decreasing (_usual_description d) /\
  Forall (fun r => 0 <= r <= _width d) (_usual_description d) /\
  binary (_binary_description d) /\
  len (_binary_description d) = _n d /\
  count U (_binary_description d) = _height d /\
  count R (_binary_description d) = _width d.
Proof.
  eexists. split; [reflexivity|].
  apply diagram_invariant. exists 3, 4, [4; 2]. reflexivity.
Defined.

(** ** The complement, twice *)

(** X4.  The complement of the complement of a diagram is the diagram. *)
Theorem complement_involution (d : YoungDiagram) :
  valid d ->
  exists c, complement d = Ok c /\ complement c = Ok d.
Proof.
  intros Hv. apply valid_wf in Hv.
  destruct (complement_spec d Hv) as [c [Hc [_ [Hbd _]]]].
  exists c. split; [exact Hc|].
  unfold complement at 1. rewrite Hbd, rev_involutive.
  now apply Construct_binary_description.
Qed.

Lemma complement_involution_witness :
  exists d, __init__ 3 4 [4; 2] = Ok d /\
  exists c, complement d = Ok c /\ complement c = Ok d.
Proof.
  eexists. split; [reflexivity|].
  apply complement_involution. exists 3, 4, [4; 2]. reflexivity.
Defined.

(** ** The transpose *)

Lemma column_lengths_row_width (d : YoungDiagram) :
  column_lengths d = map (row_width (_usual_description d)) (range (_width d)).
Proof. reflexivity. Qed.

Lemma row_width_chain (cs : list Z) (n : Z) :
  0 <= n -> chain (len cs) (map (row_width cs) (range n)).
Proof.
  intros Hn. apply chain_iff; split.
  - intros i j Hij. rewrite length_map, length_range in Hij.
    rewrite !nth_map_range by lia. apply row_width_mono; lia.
  - apply Forall_forall. intros v Hv.
    apply in_map_iff in Hv. destruct Hv as [r [<- _]].
    apply row_width_bounds.
Qed.

(** Row [r] reaches beyond column [c] exactly when column [c] reaches beyond
    row [r]. *)
Lemma row_width_conjugate (rows : list Z) : forall previous (r : nat) (c : Z),
  chain previous rows -> (r < length rows)%nat ->
  (Z.of_nat r < row_width rows c <-> c < nth r rows 0).
Proof.
  induction rows as [|a rest IH]; intros previous r c Hc Hr; [simpl in Hr; lia|].
  destruct Hc as [Ha Hc]. assert (HF := chain_Forall _ _ Hc).
  rewrite Forall_forall in HF.
  rewrite row_width_cons.
  assert (H0 := row_width_bounds rest c).
  destruct (c <=? a - 1) eqn:E; [apply Z.leb_le in E | apply Z.leb_gt in E].
  - destruct r as [|r]; simpl nth; [lia|].
    simpl in Hr. rewrite <- (IH a r c Hc) by lia. lia.
  - rewrite (row_width_none rest c) by (intros v Hv; apply HF in Hv; lia).
    destruct r as [|r]; simpl nth; [lia|].
    simpl in Hr. assert (Hn : In (nth r rest 0) rest) by (apply nth_In; lia).
    apply HF in Hn. lia.
Qed.

Lemma row_width_map (f : Z -> Z) (l : list Z) (r : Z) :
  row_width (map f l) r = sum (map (fun c => if r <=? f c - 1 then 1 else 0) l).
Proof.
  induction l as [|c l IH]; [reflexivity|].
  simpl map. rewrite row_width_cons, sum_cons, IH. reflexivity.
Qed.

(** The column lengths of the column lengths are the row lengths. *)
Lemma column_lengths_twice (rows : list Z) (width : Z) :
  0 <= width -> chain width rows ->
  map (row_width (map (row_width rows) (range width))) (range (len rows)) = rows.
Proof.
  intros Hw Hc.
  transitivity (map (row rows) (range (len rows))); [|apply map_row_range].
  apply map_ext_in. intros r Hr. apply In_range in Hr.
  rewrite row_width_map.
  assert (Hrow : 0 <= row rows r <= width).
  { assert (HF := chain_Forall _ _ Hc). rewrite Forall_forall in HF.
    apply HF, nth_In. unfold len in Hr. lia. }
  rewrite (map_ext_in _ (fun c => if c <=? row rows r - 1 then 1 else 0)).
  - replace width with (Z.of_nat (Z.to_nat width)) by lia.
    rewrite sum_column by lia. lia.
  - intros c _.
    assert (H := row_width_conjugate rows width (Z.to_nat r) c Hc
                   ltac:(unfold len in Hr; lia)).
    fold (row rows r) in H. rewrite Z2Nat.id in H by lia.
    destruct (r <=? row_width rows c - 1) eqn:E1;
      destruct (c <=? row rows r - 1) eqn:E2; try reflexivity;
      try apply Z.leb_le in E1; try apply Z.leb_gt in E1;
      try apply Z.leb_le in E2; try apply Z.leb_gt in E2; lia.
Qed.

Lemma transpose_spec (d : YoungDiagram) :
  wf d ->
  exists t, transpose d = Ok t /\ wf t /\
    _height t = _width d /\ _width t = _height d /\
    _usual_description t = column_lengths d.
Proof.
  intros Hd.
  assert (Hv : valid_input (_width d) (_height d) (column_lengths d)).
  { assert (Hc := row_width_chain (_usual_description d) (_width d) (wf_width _ Hd)).
    rewrite (wf_len _ Hd) in Hc. apply chain_iff in Hc.
    rewrite column_lengths_row_width.
    split; [apply Hd|]. split; [apply Hd|].
    split; [rewrite len_map_range by apply Hd; lia | exact Hc]. }
  destruct (init_total _ _ _ Hv) as [t Ht].
  exists t. split; [exact Ht|].
  destruct (init_wf _ _ _ _ Ht) as [Hwf [Hh [Hw Hu]]].
  split; [exact Hwf|]. split; [exact Hh|]. split; [exact Hw|].
  rewrite Hu. apply padded_full.
  rewrite column_lengths_row_width. apply len_map_range, Hd.
Qed.

(** X6.  [transpose] returns a diagram in the box with height and width
    exchanged, whose rows are the column lengths of the diagram, and with
    the same volume. *)
Theorem transpose_box_and_volume (d : YoungDiagram) :
  valid d ->
  exists t, transpose d = Ok t /\
    _height t = _width d /\ _width t = _height d /\
    row_lengths t = column_lengths d /\
    volume t = volume d.
Proof.
  intros Hv. apply valid_wf in Hv.
  destruct (transpose_spec d Hv) as [t [Ht [_ [Hh [Hw Hu]]]]].
  exists t. repeat (split; [assumption|]).
  unfold volume. rewrite Hu, column_lengths_row_width.
  apply sum_row_widths; [apply Hv|].
  assert (HF := chain_Forall _ _ (wf_chain _ Hv)).
  rewrite Forall_forall in HF. exact HF.
Qed.

Lemma transpose_box_and_volume_witness :
  exists d, __init__ 3 4 [4; 2] = Ok d /\
  exists t, transpose d = Ok t /\
    _height t = _width d /\ _width t = _height d /\
    row_lengths t = column_lengths d /\
    volume t = volume d.
Proof.
  eexists. split; [reflexivity|].
  apply transpose_box_and_volume. exists 3, 4, [4; 2]. reflexivity.
Defined.

(** X7.  The transpose of the transpose of a diagram is the diagram. *)
Theorem transpose_involution (d : YoungDiagram) :
  valid d ->
  exists t, transpose d = Ok t /\ transpose t = Ok d.
Proof.
  intros Hv. apply valid_wf in Hv.
  destruct (transpose_spec d Hv) as [t [Ht [_ [Hh [Hw Hu]]]]].
  exists t. split; [exact Ht|].
  unfold transpose. rewrite column_lengths_row_width, Hu, Hh, Hw.
  rewrite column_lengths_row_width, <- (wf_len _ Hv).
  rewrite column_lengths_twice by apply Hv.
  rewrite (wf_len _ Hv). now apply init_of_wf.
Qed.

Lemma transpose_involution_witness :
  exists d, __init__ 3 4 [4; 2] = Ok d /\
  exists t, transpose d = Ok t /\ transpose t = Ok d.
Proof.
  eexists. split; [reflexivity|].
  apply transpose_involution. exists 3, 4, [4; 2]. reflexivity.
Defined.

(** ** The product *)

Lemma range_shift (n : nat) : forall s : nat,
  map Z.of_nat (seq s n) = map (Z.add (Z.of_nat s)) (map Z.of_nat (seq 0 n)).
Proof.
  induction n as [|n IH]; intros s; [reflexivity|].
  simpl. f_equal; [lia|].
  rewrite (IH (S s)), (IH 1%nat), !map_map.
  apply map_ext. intros k. lia.
Qed.

Lemma range_add (a b : Z) :
  0 <= a -> 0 <= b -> range (a + b) = range a ++ map (Z.add a) (range b).
Proof.
  intros Ha Hb. unfold range.
  rewrite Z2Nat.inj_add, seq_app, map_app by lia. f_equal.
  simpl Nat.add. rewrite range_shift. now rewrite Z2Nat.id by lia.
Qed.

Lemma row_width_shift (k : Z) (cs : list Z) (r : Z) :
  row_width (map (Z.add k) cs) r = row_width cs (r - k).
Proof.
  induction cs as [|c cs IH]; [reflexivity|].
  simpl map. rewrite !row_width_cons, IH.
  destruct (r <=? k + c - 1) eqn:E1; destruct (r - k <=? c - 1) eqn:E2;
    try reflexivity;
    try apply Z.leb_le in E1; try apply Z.leb_gt in E1;
    try apply Z.leb_le in E2; try apply Z.leb_gt in E2; lia.
Qed.

Lemma column_heights_shift (k : Z) (s : list ascii) : forall c,
  column_heights_from (k + c) s = map (Z.add k) (column_heights_from c s).
Proof.
  induction s as [|a s IH]; intros c; [reflexivity|].
  simpl. destruct (Ascii.eqb a U).
  - rewrite <- IH. f_equal. lia.
  - destruct (Ascii.eqb a R); simpl; now rewrite IH.
Qed.

Lemma sum_map_shift (k : Z) (l : list Z) :
  sum (map (Z.add k) l) = k * len l + sum l.
Proof.
  induction l as [|a l IH]; [cbn; lia|].
  simpl map. rewrite !sum_cons, IH, len_cons. lia.
Qed.

(** The rows decoded from two binary descriptions in a row: those of the
    second, moved right by the width of the first, above those of the
    first. *)
Lemma rows_of_concatenation (d1 d2 : YoungDiagram) :
  wf d1 -> wf d2 ->
  map (row_width
         (column_heights_from (_height d1 + _height d2)
            (_binary_description d1 ++ _binary_description d2)))
    (range (_height d1 + _height d2))
  = map (Z.add (_width d1)) (_usual_description d2) ++ _usual_description d1.
Proof.
  intros H1 H2.
  destruct (wf_binary_description d1 H1) as [_ [_ [HU1 [HR1 Hrows1]]]].
  destruct (wf_binary_description d2 H2) as [_ [_ [HU2 [HR2 Hrows2]]]].
  assert (Hh1 := wf_height _ H1). assert (Hh2 := wf_height _ H2).
  rewrite column_heights_app, HU1.
  replace (_height d1 + _height d2 - _height d1) with (_height d2) by lia.
  rewrite (Z.add_comm (_height d1)), column_heights_shift.
  rewrite range_add, map_app by lia. f_equal.
  - rewrite <- Hrows2. rewrite !map_map.
    apply map_ext_in. intros r Hr. apply In_range in Hr.
    rewrite row_width_app, row_width_shift.
    rewrite row_width_all.
    + now rewrite len_column_heights, HR1.
    + intros v Hv. apply column_heights_bounds in Hv. lia.
  - rewrite <- Hrows1. rewrite !map_map.
    apply map_ext_in. intros r Hr. apply In_range in Hr.
    rewrite row_width_app, row_width_shift.
    rewrite (row_width_none (column_heights_from (_height d2) _)).
    + replace (_height d2 + r - _height d2) with r by lia. lia.
    + intros v Hv. apply column_heights_bounds in Hv. lia.
Qed.

Lemma mul_spec (d1 d2 : YoungDiagram) :
  wf d1 -> wf d2 ->
  exists d, __mul__ d1 d2 = Ok d /\ wf d /\
    _binary_description d = _binary_description d1 ++ _binary_description d2 /\
    _height d = _height d1 + _height d2 /\
    _width d = _width d1 + _width d2.
Proof.
  intros H1 H2.
  destruct (wf_binary_description d1 H1) as [Hb1 [_ [HU1 [HR1 _]]]].
  destruct (wf_binary_description d2 H2) as [Hb2 [_ [HU2 [HR2 _]]]].
  destruct (Construct_binary (_binary_description d1 ++ _binary_description d2))
    as [d [Hc [Hwf [Hbd [Hh Hw]]]]].
  { apply binary_app. now split. }
  exists d. rewrite !count_app in *. unfold __mul__.
  repeat (split; [first [assumption | congruence]|]). congruence.
Qed.

(** X8.  The product of two diagrams is a diagram in the box whose height and
    width are the sums of theirs; its binary description is the two binary
    descriptions in a row; its rows are the rows of the second diagram,
    each longer by the width of the first, followed by the rows of the
    first; its volume is the sum of the two volumes and of the rectangle of
    the width of the first and the height of the second. *)
Theorem mul_box_and_rows (d1 d2 : YoungDiagram) :
  valid d1 -> valid d2 ->
  exists d, __mul__ d1 d2 = Ok d /\
    _height d = _height d1 + _height d2 /\
    _width d = _width d1 + _width d2 /\
    _binary_description d = _binary_description d1 ++ _binary_description d2 /\
    row_lengths d = map (Z.add (_width d1)) (row_lengths d2) ++ row_lengths d1 /\
    volume d = volume d1 + volume d2 + _width d1 * _height d2.
Proof.
  intros H1 H2. apply valid_wf in H1, H2.
  destruct (mul_spec d1 d2 H1 H2) as [d [Hm [Hwf [Hbd [Hh Hw]]]]].
  exists d. repeat (split; [assumption|]).
  assert (Hrows : row_lengths d =
            map (Z.add (_width d1)) (row_lengths d2) ++ row_lengths d1).
  { destruct (wf_binary_description d Hwf) as [_ [_ [_ [_ Hrows]]]].
    unfold row_lengths. rewrite <- Hrows, Hbd, Hh.
    now apply rows_of_concatenation. }
  split; [exact Hrows|].
  unfold volume. fold (row_lengths d). rewrite Hrows.
  unfold row_lengths. rewrite sum_app, sum_map_shift, (wf_len _ H2). lia.
Qed.

Lemma mul_box_and_rows_witness :
  exists d1 d2, __init__ 1 2 [1] = Ok d1 /\ __init__ 2 2 [2; 1] = Ok d2 /\
  exists d, __mul__ d1 d2 = Ok d /\
    _height d = _height d1 + _height d2 /\
    _width d = _width d1 + _width d2 /\
    _binary_description d = _binary_description d1 ++ _binary_description d2 /\
    row_lengths d = map (Z.add (_width d1)) (row_lengths d2) ++ row_lengths d1 /\
    volume d = volume d1 + volume d2 + _width d1 * _height d2.
Proof.
  eexists. eexists. split; [reflexivity|]. split; [reflexivity|].
  apply mul_box_and_rows.
  - exists 1, 2, [1]. reflexivity.
  - exists 2, 2, [2; 1]. reflexivity.
Defined.

(** X9.  The product is associative, and the diagram of the empty box is its
    unit on both sides. *)
Theorem mul_monoid (a b c : YoungDiagram) :
  valid a -> valid b -> valid c ->
  (exists ab bc abc,
     __mul__ a b = Ok ab /\ __mul__ b c = Ok bc /\
     __mul__ ab c = Ok abc /\ __mul__ a bc = Ok abc) /\
  __mul__ a empty_diagram = Ok a /\ __mul__ empty_diagram a = Ok a.
Proof.
  intros Ha Hb Hc. apply valid_wf in Ha, Hb, Hc. split; [|split].
  - destruct (mul_spec a b Ha Hb) as [ab [Hab [Hwab [Hbab _]]]].
    destruct (mul_spec b c Hb Hc) as [bc [Hbc [Hwbc [Hbbc _]]]].
    destruct (mul_spec ab c Hwab Hc) as [abc [Habc _]].
    exists ab, bc, abc. repeat (split; [assumption|]).
    unfold __mul__ in *. rewrite Hbbc, app_assoc, <- Hbab. exact Habc.
  - unfold __mul__. simpl. rewrite app_nil_r.
    now apply Construct_binary_description.
  - unfold __mul__. simpl. now apply Construct_binary_description.
Qed.

Lemma mul_monoid_witness :
  exists a b c, __init__ 1 2 [1] = Ok a /\ __init__ 2 2 [2; 1] = Ok b /\
    __init__ 1 1 [] = Ok c /\
  (exists ab bc abc,
     __mul__ a b = Ok ab /\ __mul__ b c = Ok bc /\
     __mul__ ab c = Ok abc /\ __mul__ a bc = Ok abc) /\
  __mul__ a empty_diagram = Ok a /\ __mul__ empty_diagram a = Ok a.
Proof.
  eexists. eexists. eexists.
  split; [reflexivity|]. split; [reflexivity|]. split; [reflexivity|].
  apply mul_monoid.
  - exists 1, 2, [1]. reflexivity.
  - exists 2, 2, [2; 1]. reflexivity.
  - exists 1, 1, []. reflexivity.
Defined.

(** ** The order *)

Lemma lex_ltb_lex_lt (a : list Z) : forall b,
  lex_ltb a b = true <-> lex_lt a b.
Proof.
  induction a as [|x a IH]; intros b.
  - simpl. split; [discriminate | intros H; inversion H].
  - destruct b as [|y b]; simpl.
    + split; [discriminate | intros H; inversion H].
    + destruct (x <? y) eqn:E1; [apply Z.ltb_lt in E1 | apply Z.ltb_ge in E1].
      * split; [intros _; now constructor | reflexivity].
      * destruct (x =? y) eqn:E2; [apply Z.eqb_eq in E2 | apply Z.eqb_neq in E2].
        -- subst y. rewrite IH. split; [now constructor|].
           intros H; inversion H; subst; [lia | assumption].
        -- split; [discriminate|]. intros H; inversion H; subst; lia.
Qed.

Lemma lex_ltb_irrefl (a : list Z) : lex_ltb a a = false.
Proof.
  induction a as [|x a IH]; [reflexivity|]. simpl.
  now rewrite Z.ltb_irrefl, Z.eqb_refl.
Qed.

(** Turn the boolean comparisons among the hypotheses into propositions. *)
Ltac compared :=
  repeat match goal with
  | H : (_ <? _) = true |- _ => apply Z.ltb_lt in H
  | H : (_ <? _) = false |- _ => apply Z.ltb_ge in H
  | H : (_ =? _) = true |- _ => apply Z.eqb_eq in H
  | H : (_ =? _) = false |- _ => apply Z.eqb_neq in H
  | H : (_ <=? _) = true |- _ => apply Z.leb_le in H
  | H : (_ <=? _) = false |- _ => apply Z.leb_gt in H
  end.

Lemma lex_ltb_trans (a : list Z) : forall b c,
  lex_ltb a b = true -> lex_ltb b c = true -> lex_ltb a c = true.
Proof.
  induction a as [|x a IH]; intros [|y b] [|z c]; simpl; try discriminate.
  destruct (x <? y) eqn:E1; destruct (y <? z) eqn:E2;
    destruct (x =? y) eqn:E3; destruct (y =? z) eqn:E4;
    try discriminate; compared; intros H1 H2;
    try (replace (x <? z) with true by (symmetry; apply Z.ltb_lt; lia);
         reflexivity).
  subst. rewrite Z.ltb_irrefl, Z.eqb_refl. now apply (IH b c).
Qed.

(** Of two tuples of one length either one is less than the other, or they
    are equal; no two of the three hold. *)
Lemma lex_ltb_trichotomy (a : list Z) : forall b,
  length a = length b ->
  (lex_ltb a b = true /\ a <> b /\ lex_ltb b a = false) \/
  (lex_ltb a b = false /\ a = b /\ lex_ltb b a = false) \/
  (lex_ltb a b = false /\ a <> b /\ lex_ltb b a = true).
Proof.
  induction a as [|x a IH]; intros [|y b] Hl; try discriminate.
  - right; left. auto.
  - injection Hl as Hl. simpl.
    destruct (x <? y) eqn:E1; destruct (y <? x) eqn:E2; compared; try lia.
    + left. replace (y =? x) with false by (symmetry; apply Z.eqb_neq; lia).
      repeat split; auto. intros H; injection H; lia.
    + right; right.
      replace (x =? y) with false by (symmetry; apply Z.eqb_neq; lia).
      repeat split; auto. intros H; injection H; lia.
    + assert (x = y) by lia. subst y. rewrite Z.eqb_refl.
      destruct (IH b Hl) as [[H1 [H2 H3]]|[[H1 [H2 H3]]|[H1 [H2 H3]]]].
      * left. repeat split; auto. intros H; injection H; auto.
      * right; left. repeat split; auto. now subst.
      * right; right. repeat split; auto. intros H; injection H; auto.
Qed.

Lemma skipn_nth_cons (l : list Z) (k : nat) :
  (k < length l)%nat -> skipn k l = nth k l 0 :: skipn (S k) l.
Proof.
  revert k; induction l as [|a l IH]; intros k Hk; [simpl in Hk; lia|].
  destruct k as [|k]; [reflexivity|].
  simpl in Hk. change (skipn (S k) (a :: l)) with (skipn k l).
  rewrite IH by lia. reflexivity.
Qed.

(** The loop of [__lt__] from row [k] on compares the rows from [k] on. *)
Lemma lt_rows_spec (d1 d2 : YoungDiagram) (m : nat) : forall k : nat,
  (k + m = length (_usual_description d1))%nat ->
  length (_usual_description d1) = length (_usual_description d2) ->
  lt_rows d1 d2 (map Z.of_nat (seq k m)) =
  Ok (lex_ltb (skipn k (_usual_description d1)) (skipn k (_usual_description d2))).
Proof.
  induction m as [|m IH]; intros k Hk Hl.
  - simpl. rewrite !skipn_all2 by lia. reflexivity.
  - simpl seq. simpl map. simpl lt_rows.
    rewrite !getitem_Ok by (unfold len; lia). rewrite Nat2Z.id. cbn [bind].
    rewrite (skipn_nth_cons (_usual_description d1) k) by lia.
    rewrite (skipn_nth_cons (_usual_description d2) k) by lia.
    simpl lex_ltb.
    destruct (_ <? _); [reflexivity|].
    destruct (_ =? _); [|reflexivity].
    apply IH; lia.
Qed.

Lemma lt_spec (d1 d2 : YoungDiagram) :
  wf d1 -> wf d2 -> _height d1 = _height d2 -> _width d1 = _width d2 ->
  __lt__ d1 d2 = Ok (lex_ltb (_usual_description d1) (_usual_description d2)).
Proof.
  intros H1 H2 Hh Hw. unfold __lt__.
  rewrite Hh, Hw, !Z.eqb_refl. simpl.
  assert (L1 := wf_len _ H1). assert (L2 := wf_len _ H2).
  unfold len in L1, L2. unfold range.
  rewrite (lt_rows_spec d1 d2 (Z.to_nat (_height d2)) 0) by lia.
  reflexivity.
Qed.

(** X10.  [__lt__] on two diagrams of one box is the lexicographic order of their
    rows, the top row first. *)
Theorem lt_lexicographic (d1 d2 : YoungDiagram) :
  valid d1 -> valid d2 ->
  _height d1 = _height d2 -> _width d1 = _width d2 ->
  exists b, __lt__ d1 d2 = Ok b /\
    (b = true <-> lex_lt (row_lengths d1) (row_lengths d2)).
Proof.
  intros H1 H2 Hh Hw. apply valid_wf in H1, H2.
  eexists. split; [now apply lt_spec|]. apply lex_ltb_lex_lt.
Qed.

Lemma lt_lexicographic_witness :
  exists d1 d2, __init__ 3 3 [2; 1] = Ok d1 /\ __init__ 3 3 [2; 2; 1] = Ok d2 /\
  exists b, __lt__ d1 d2 = Ok b /\
    (b = true <-> lex_lt (row_lengths d1) (row_lengths d2)).
Proof.
  eexists. eexists. split; [reflexivity|]. split; [reflexivity|].
  apply lt_lexicographic; try reflexivity.
  - exists 3, 3, [2; 1]. reflexivity.
  - exists 3, 3, [2; 2; 1]. reflexivity.
Defined.

Lemma same_box_eq (d1 d2 : YoungDiagram) :
  wf d1 -> wf d2 -> _height d1 = _height d2 -> _width d1 = _width d2 ->
  (_usual_description d1 = _usual_description d2 <-> d1 = d2).
Proof.
  intros H1 H2 Hh Hw. split; [|now intros ->].
  intros Hu. apply (eq_wf d1 d2 H1 H2). apply eq_true_iff. auto.
Qed.

Lemma trichotomy_wf (d1 d2 : YoungDiagram) :
  wf d1 -> wf d2 ->
  _height d1 = _height d2 -> _width d1 = _width d2 ->
  (__lt__ d1 d2 = Ok true /\ __eq__ d1 d2 = false /\ __gt__ d1 d2 = Ok false) \/
  (__lt__ d1 d2 = Ok false /\ __eq__ d1 d2 = true /\ __gt__ d1 d2 = Ok false) \/
  (__lt__ d1 d2 = Ok false /\ __eq__ d1 d2 = false /\ __gt__ d1 d2 = Ok true).
Proof.
  intros H1 H2 Hh Hw.
  unfold __gt__. rewrite (lt_spec d1 d2), (lt_spec d2 d1) by auto.
  assert (Hl : length (_usual_description d1) = length (_usual_description d2)).
  { assert (L1 := wf_len _ H1). assert (L2 := wf_len _ H2).
    unfold len in *. lia. }
  assert (Heq : forall b, __eq__ d1 d2 = b <->
            (if b then _usual_description d1 = _usual_description d2
             else _usual_description d1 <> _usual_description d2)).
  { intros b. destruct (__eq__ d1 d2) eqn:E.
    - apply eq_true_iff in E. destruct E as [_ [_ E]].
      destruct b; split; intros; try reflexivity; try discriminate;
        try assumption; try contradiction.
    - assert (N : _usual_description d1 <> _usual_description d2).
      { intros Hx. assert (E' : __eq__ d1 d2 = true) by (apply eq_true_iff; auto).
        congruence. }
      destruct b; split; intros; try reflexivity; try discriminate;
        try assumption; try contradiction. }
  destruct (lex_ltb_trichotomy _ _ Hl) as [[A [B C]]|[[A [B C]]|[A [B C]]]];
    rewrite A, C; [left | right; left | right; right];
    (split; [reflexivity|]; split; [now apply Heq | reflexivity]).
Qed.

(** X11.  On the diagrams of one box exactly one of [d1 < d2], [d1 == d2] and
    [d1 > d2] holds. *)
Theorem order_trichotomy (d1 d2 : YoungDiagram) :
  valid d1 -> valid d2 ->
  _height d1 = _height d2 -> _width d1 = _width d2 ->
  (__lt__ d1 d2 = Ok true /\ __eq__ d1 d2 = false /\ __gt__ d1 d2 = Ok false) \/
  (__lt__ d1 d2 = Ok false /\ __eq__ d1 d2 = true /\ __gt__ d1 d2 = Ok false) \/
  (__lt__ d1 d2 = Ok false /\ __eq__ d1 d2 = false /\ __gt__ d1 d2 = Ok true).
Proof.
  intros H1 H2. apply valid_wf in H1, H2. now apply trichotomy_wf.
Qed.

Lemma order_trichotomy_witness :
  exists d1 d2, __init__ 3 3 [2; 1] = Ok d1 /\ __init__ 3 3 [2; 2; 1] = Ok d2 /\
  ((__lt__ d1 d2 = Ok true /\ __eq__ d1 d2 = false /\ __gt__ d1 d2 = Ok false) \/
   (__lt__ d1 d2 = Ok false /\ __eq__ d1 d2 = true /\ __gt__ d1 d2 = Ok false) \/
   (__lt__ d1 d2 = Ok false /\ __eq__ d1 d2 = false /\ __gt__ d1 d2 = Ok true)).
Proof.
  eexists. eexists. split; [reflexivity|]. split; [reflexivity|].
  apply order_trichotomy; try reflexivity.
  - exists 3, 3, [2; 1]. reflexivity.
  - exists 3, 3, [2; 2; 1]. reflexivity.
Defined.

(** X12.  [__lt__] is transitive on the diagrams of one box. *)
Theorem lt_transitive (d1 d2 d3 : YoungDiagram) :
  valid d1 -> valid d2 -> valid d3 ->
  _height d1 = _height d2 -> _width d1 = _width d2 ->
  _height d2 = _height d3 -> _width d2 = _width d3 ->
  __lt__ d1 d2 = Ok true -> __lt__ d2 d3 = Ok true -> __lt__ d1 d3 = Ok true.
Proof.
  intros H1 H2 H3 Hh Hw Hh' Hw'. apply valid_wf in H1, H2, H3.
  rewrite (lt_spec d1 d2), (lt_spec d2 d3), (lt_spec d1 d3) by (auto; congruence).
  intros A B. injection A as A. injection B as B.
  f_equal. eapply lex_ltb_trans; eauto.
Qed.

Lemma lt_transitive_witness :
  exists d1 d2 d3,
    __init__ 3 3 [2; 1] = Ok d1 /\ __init__ 3 3 [2; 2; 1] = Ok d2 /\
    __init__ 3 3 [3] = Ok d3 /\ __lt__ d1 d3 = Ok true.
Proof.
  eexists. eexists. eexists.
  split; [reflexivity|]. split; [reflexivity|]. split; [reflexivity|].
  apply (lt_transitive _ (mkYoungDiagram 3 3 6 [2; 2; 1] [R; U; R; U; U; R]));
    try reflexivity.
  - exists 3, 3, [2; 1]. reflexivity.
  - exists 3, 3, [2; 2; 1]. reflexivity.
  - exists 3, 3, [3]. reflexivity.
Defined.

(** X13.  [d1 <= d2] holds exactly when [d2 < d1] does not, and [d1 >= d2] is
    [d2 <= d1], on the diagrams of one box. *)
Theorem le_ge_of_lt (d1 d2 : YoungDiagram) :
  valid d1 -> valid d2 ->
  _height d1 = _height d2 -> _width d1 = _width d2 ->
  exists b, __lt__ d2 d1 = Ok b /\
    __le__ d1 d2 = Ok (negb b) /\ __ge__ d2 d1 = Ok (negb b).
Proof.
  intros H1 H2 Hh Hw. apply valid_wf in H1, H2.
  destruct (trichotomy_wf d1 d2 H1 H2 Hh Hw) as [[A [B C]]|[[A [B C]]|[A [B C]]]];
    unfold __gt__ in C; unfold __le__, __ge__, __gt__;
    assert (B' : __eq__ d2 d1 = __eq__ d1 d2)
      by (unfold __eq__, tuple_eqb; rewrite (Z.eqb_sym (_height d2)), (Z.eqb_sym (_width d2));
          do 2 destruct (list_eq_dec Z.eq_dec _ _); congruence);
    rewrite B', B, ?A, C; eexists; (split; [reflexivity|]); split; reflexivity.
Qed.

Lemma le_ge_of_lt_witness :
  exists d1 d2, __init__ 3 3 [2; 1] = Ok d1 /\ __init__ 3 3 [2; 2; 1] = Ok d2 /\
  exists b, __lt__ d2 d1 = Ok b /\
    __le__ d1 d2 = Ok (negb b) /\ __ge__ d2 d1 = Ok (negb b).
Proof.
  eexists. eexists. split; [reflexivity|]. split; [reflexivity|].
  apply le_ge_of_lt; try reflexivity.
  - exists 3, 3, [2; 1]. reflexivity.
  - exists 3, 3, [2; 2; 1]. reflexivity.
Defined.

(** X14.  Diagrams of different boxes are not equal, and each of the four order
    comparisons between them fails with [AssertionError]. *)
Theorem comparisons_across_boxes (d1 d2 : YoungDiagram) :
  _height d1 <> _height d2 \/ _width d1 <> _width d2 ->
  __eq__ d1 d2 = false /\
  __lt__ d1 d2 = Raise AssertionError /\ __gt__ d1 d2 = Raise AssertionError /\
  __le__ d1 d2 = Raise AssertionError /\ __ge__ d1 d2 = Raise AssertionError.
Proof.
  intros H.
  assert (Hlt : forall a b : YoungDiagram,
            _height a <> _height b \/ _width a <> _width b ->
            __lt__ a b = Raise AssertionError).
  { intros a b Hab. unfold __lt__.
    destruct (_height a =? _height b) eqn:E1; [|reflexivity].
    destruct (_width a =? _width b) eqn:E2; [|reflexivity].
    apply Z.eqb_eq in E1, E2. tauto. }
  assert (Heq : __eq__ d1 d2 = false).
  { destruct (__eq__ d1 d2) eqn:E; [|reflexivity].
    apply eq_true_iff in E. tauto. }
  assert (H' : _height d2 <> _height d1 \/ _width d2 <> _width d1)
    by (destruct H; [left | right]; congruence).
  unfold __le__, __ge__, __gt__. rewrite Heq, (Hlt d1 d2 H), (Hlt d2 d1 H').
  repeat split; reflexivity.
Qed.

Lemma comparisons_across_boxes_witness :
  __eq__ (mkYoungDiagram 1 1 2 [1] [R; U]) (mkYoungDiagram 1 2 3 [1] [R; U; R]) = false /\
  __lt__ (mkYoungDiagram 1 1 2 [1] [R; U]) (mkYoungDiagram 1 2 3 [1] [R; U; R])
    = Raise AssertionError.
Proof.
  destruct (comparisons_across_boxes
              (mkYoungDiagram 1 1 2 [1] [R; U]) (mkYoungDiagram 1 2 3 [1] [R; U; R]))
    as [A [B _]].
  - right. simpl. lia.
  - split; assumption.
Defined.

(** ** The cyclic action, composed *)

Lemma cyclic_action_turned (d : YoungDiagram) (steps : Z) :
  wf d -> 0 < _n d -> steps mod _n d <> 0 ->
  cyclic_action d steps = Ok (turned d (Z.to_nat (steps mod _n d))).
Proof.
  intros Hd Hn Hs. rewrite cyclic_action_unfold by assumption.
  replace (steps mod _n d =? 0) with false by (symmetry; now apply Z.eqb_neq).
  apply turned_spec, Hd.
Qed.

Lemma length_binary_description (d : YoungDiagram) :
  wf d -> length (_binary_description d) = Z.to_nat (_n d).
Proof.
  intros Hd. destruct (wf_binary_description d Hd) as [_ [Hl _]].
  unfold len in Hl. lia.
Qed.

(** X15.  When the steps are not a multiple of the perimeter, [cyclic_action]
    returns the diagram whose binary description is that of [d] with its last
    [steps mod perimeter] letters moved to the front. *)
Theorem cyclic_action_moves_letters (d : YoungDiagram) (steps : Z) :
  valid d -> 0 < _n d -> steps mod _n d <> 0 ->
  exists r, cyclic_action d steps = Ok r /\ valid r /\
    _binary_description r =
      skipn (Z.to_nat (_n d - steps mod _n d)) (_binary_description d) ++
      firstn (Z.to_nat (_n d - steps mod _n d)) (_binary_description d).
Proof.
  intros Hv Hn Hs. apply valid_wf in Hv.
  assert (Hr := Z.mod_pos_bound steps (_n d) Hn).
  exists (turned d (Z.to_nat (steps mod _n d))).
  split; [now apply cyclic_action_turned|].
  destruct (turned_spec d (Z.to_nat (steps mod _n d)) Hv) as [_ [Hwf [Hbd _]]].
  split; [now apply valid_wf|].
  rewrite Hbd, rotate_slices by (rewrite length_binary_description by exact Hv; lia).
  rewrite length_binary_description by exact Hv.
  f_equal; f_equal; lia.
Qed.

Lemma cyclic_action_moves_letters_witness :
  exists d, __init__ 2 2 [2; 1] = Ok d /\
  exists r, cyclic_action d (-1) = Ok r /\ valid r /\
    _binary_description r =
      skipn (Z.to_nat (_n d - (-1) mod _n d)) (_binary_description d) ++
      firstn (Z.to_nat (_n d - (-1) mod _n d)) (_binary_description d).
Proof.
  eexists. split; [reflexivity|].
  apply cyclic_action_moves_letters.
  - exists 2, 2, [2; 1]. reflexivity.
  - reflexivity.
  - discriminate.
Defined.

Lemma turned_turned (d : YoungDiagram) (i j : nat) :
  wf d -> turned (turned d i) j = turned d (i + j).
Proof.
  intros Hd.
  destruct (turned_spec d i Hd) as [_ [Hwi [Hbi _]]].
  destruct (turned_spec (turned d i) j Hwi) as [_ [Hwj [Hbj _]]].
  destruct (turned_spec d (i + j) Hd) as [_ [Hw [Hb _]]].
  apply binary_description_inj; auto.
  rewrite Hbj, Hbi, Hb, Nat.add_comm. symmetry. apply rotate_add.
Qed.

(** X16.  Two cyclic actions in a row are the cyclic action by the sum of the
    steps, as long as neither of the three is by a multiple of the
    perimeter. *)
Theorem cyclic_action_compose (d : YoungDiagram) (a b : Z) :
  valid d -> 0 < _n d ->
  a mod _n d <> 0 -> b mod _n d <> 0 -> (a + b) mod _n d <> 0 ->
  exists r, cyclic_action d a = Ok r /\
    cyclic_action r b = cyclic_action d (a + b).
Proof.
  intros Hv Hn Ha Hb Hab. apply valid_wf in Hv.
  exists (turned d (Z.to_nat (a mod _n d))).
  split; [now apply cyclic_action_turned|].
  destruct (turned_spec d (Z.to_nat (a mod _n d)) Hv) as [_ [Hwa [_ [_ [_ Hna]]]]].
  rewrite cyclic_action_turned by (rewrite ?Hna; auto).
  rewrite (cyclic_action_turned d (a + b)) by auto.
  rewrite Hna, turned_turned by exact Hv. f_equal.
  apply turned_eq; [exact Hv|].
  rewrite rotate_mod. f_equal.
  rewrite length_binary_description by exact Hv.
  assert (Ha' := Z.mod_pos_bound a (_n d) Hn).
  assert (Hb' := Z.mod_pos_bound b (_n d) Hn).
  assert (Hab' := Z.mod_pos_bound (a + b) (_n d) Hn).
  apply Nat2Z.inj. rewrite Nat2Z.inj_mod, Nat2Z.inj_add, !Z2Nat.id by lia.
  symmetry. apply Zplus_mod.
Qed.

Lemma cyclic_action_compose_witness :
  exists d, __init__ 2 2 [2; 1] = Ok d /\
  exists r, cyclic_action d 1 = Ok r /\
    cyclic_action r 2 = cyclic_action d (1 + 2).
Proof.
  eexists. split; [reflexivity|].
  apply cyclic_action_compose; try discriminate.
  - exists 2, 2, [2; 1]. reflexivity.
  - reflexivity.
Defined.

Lemma rshift_times_turned (d : YoungDiagram) (k : nat) :
  wf d -> 2 <= _n d -> rshift_times k d = Ok (turned d k).
Proof.
  intros Hd Hn. induction k as [|k IH]; simpl.
  - now rewrite turned_0.
  - rewrite IH. cbn [bind]. unfold __rshift__. now apply cyclic_action_1.
Qed.

(** X17.  On a diagram of perimeter at least 2, the step [>> 1] taken [perimeter]
    times in a row returns the diagram, and so the steps repeat with this
    period. *)
Theorem rshift_perimeter_times (d : YoungDiagram) :
  valid d -> 2 <= _n d ->
  rshift_times (Z.to_nat (_n d)) d = Ok d /\
  forall k, rshift_times (k + Z.to_nat (_n d)) d = rshift_times k d.
Proof.
  intros Hv Hn. apply valid_wf in Hv.
  assert (Hturn : forall k, turned d (k + Z.to_nat (_n d)) = turned d k).
  { intros k. apply turned_eq; [exact Hv|].
    rewrite rotate_add, <- length_binary_description by exact Hv.
    now rewrite rotate_length. }
  split.
  - rewrite rshift_times_turned by assumption.
    f_equal. transitivity (turned d 0); [exact (Hturn 0%nat) | now apply turned_0].
  - intros k. rewrite !rshift_times_turned by assumption. now rewrite Hturn.
Qed.

Lemma rshift_perimeter_times_witness :
  exists d, __init__ 2 2 [2; 1] = Ok d /\
  rshift_times (Z.to_nat (_n d)) d = Ok d /\
  forall k, rshift_times (k + Z.to_nat (_n d)) d = rshift_times k d.
Proof.
  eexists. split; [reflexivity|].
  apply rshift_perimeter_times.
  - exists 2, 2, [2; 1]. reflexivity.
  - simpl. lia.
Defined.

(** ** The orbit and its length *)

Lemma rotate_cancel {A : Type} (s : list A) (i j : nat) :
  (i <= j)%nat -> (i <= length s)%nat ->
  rotate i s = rotate j s -> rotate (j - i) s = s.
Proof.
  intros Hij Hi H.
  replace j with (i + (j - i))%nat in H by lia.
  rewrite rotate_add in H.
  assert (Hback : forall t : list A, length t = length s ->
            rotate (length s - i) (rotate i t) = t).
  { intros t Ht. rewrite <- rotate_add.
    replace (length s - i + i)%nat with (length t) by lia.
    apply rotate_length. }
  rewrite <- (Hback (rotate (j - i) s)) by apply length_rotate.
  rewrite <- H. now apply Hback.
Qed.

(** X18.  On a diagram of perimeter at least 2, [cyclic_orbit] yields as many
    diagrams as [orbit_length] returns; they are pairwise different diagrams
    of the box of [d]. *)
Theorem cyclic_orbit_has_orbit_length (d : YoungDiagram) (fuel : nat) :
  valid d -> 2 <= _n d -> (Z.to_nat (_n d) <= fuel)%nat ->
  exists orbit,
    cyclic_orbit fuel d = (orbit, Finished) /\
    orbit_length fuel d = Some (len orbit) /\
    NoDup orbit /\
    forall x, In x orbit ->
      valid x /\ _height x = _height d /\ _width x = _width d.
Proof.
  intros Hv Hn Hf. apply valid_wf in Hv.
  assert (Hlen := length_binary_description d Hv).
  destruct (wf_binary_description d Hv) as [_ [Hl _]].
  destruct (orbit_length_loop_spec (_binary_description d) fuel 0)
    as [p [Hp [Hpos [Hper Hmin]]]].
  { intros j Hj; lia. }
  { exists (Z.to_nat (_n d)). split; [lia|].
    rewrite <- Hlen. apply rotate_length. }
  assert (Hpn : (p <= Z.to_nat (_n d))%nat).
  { destruct (Nat.le_gt_cases p (Z.to_nat (_n d))) as [H|H]; [exact H|].
    exfalso. apply (Hmin (Z.to_nat (_n d))); [lia|].
    rewrite <- Hlen. apply rotate_length. }
  exists (map (turned d) (seq 0 p)).
  split; [|split; [|split]].
  - unfold cyclic_orbit. rewrite <- (turned_0 d Hv) at 2.
    rewrite (cyclic_orbit_loop_spec d Hv Hn p Hper Hmin) by lia.
    now rewrite Nat.sub_0_r.
  - unfold orbit_length. rewrite <- Hl.
    change (rotate 0 (_binary_description d)) with (_binary_description d) in Hp.
    change (Z.of_nat 0) with 0 in Hp. rewrite Hp.
    unfold len. now rewrite length_map, length_seq.
  - apply (NoDup_nth _ d). rewrite length_map, length_seq.
    assert (Hlt : forall i j, (i < j < p)%nat -> turned d i <> turned d j).
    { intros i j Hij H. apply turned_eq in H; [|exact Hv].
      apply rotate_cancel in H; try lia.
      apply (Hmin (j - i)%nat); [lia | exact H]. }
    intros i j Hi Hj H. rewrite !nth_map_turned in H by assumption.
    destruct (Nat.lt_trichotomy i j) as [L|[E|L]]; [|exact E|].
    + exfalso. apply (Hlt i j); [lia | exact H].
    + exfalso. apply (Hlt j i); [lia | now symmetry].
  - intros x Hx. apply in_map_iff in Hx. destruct Hx as [k [<- _]].
    destruct (turned_spec d k Hv) as [_ [Hwf [_ [Hh [Hw _]]]]].
    split; [now apply valid_wf | auto].
Qed.

Lemma cyclic_orbit_has_orbit_length_witness :
  exists d, __init__ 2 2 [2; 1] = Ok d /\
  exists orbit,
    cyclic_orbit 4 d = (orbit, Finished) /\
    orbit_length 4 d = Some (len orbit) /\
    NoDup orbit /\
    forall x, In x orbit ->
      valid x /\ _height x = _height d /\ _width x = _width d.
Proof.
  eexists. split; [reflexivity|].
  apply cyclic_orbit_has_orbit_length.
  - exists 2, 2, [2; 1]. reflexivity.
  - simpl. lia.
  - simpl. lia.
Defined.

(** ** The rows of the complement *)

Lemma column_heights_other (c : Z) (a : ascii) (s : list ascii) :
  Ascii.eqb a U = false -> Ascii.eqb a R = false ->
  column_heights_from c (a :: s) = column_heights_from c s.
Proof. intros H1 H2. simpl. now rewrite H1, H2. Qed.

(** Read backwards, a string has the column heights in the opposite order,
    each counted from the other end. *)
Lemma column_heights_rev (s : list ascii) : forall c c',
  column_heights_from c' (rev s) =
  rev (map (fun v => c' - count U s + c - v) (column_heights_from c s)).
Proof.
  induction s as [|a s IH]; intros c c'; [reflexivity|].
  simpl rev. rewrite column_heights_app, count_rev, count_cons.
  rewrite (Ascii.eqb_sym U a).
  destruct (Ascii.eqb a U) eqn:E1.
  - apply Ascii.eqb_eq in E1. subst a.
    rewrite column_heights_U. change (column_heights_from _ [U]) with (@nil Z).
    rewrite app_nil_r, (IH (c - 1) c'). f_equal. apply map_ext. intros v. lia.
  - destruct (Ascii.eqb a R) eqn:E2.
    + apply Ascii.eqb_eq in E2. subst a.
      rewrite column_heights_R. simpl map. simpl rev.
      change (column_heights_from (c' - count U s) [R]) with [c' - count U s].
      rewrite (IH c c'). f_equal. simpl. f_equal. lia.
    + rewrite (column_heights_other _ a [] E1 E2). simpl column_heights_from.
      rewrite app_nil_r, (IH c c'). reflexivity.
Qed.

Lemma row_width_rev (cs : list Z) (r : Z) : row_width (rev cs) r = row_width cs r.
Proof.
  induction cs as [|c cs IH]; [reflexivity|].
  simpl rev. rewrite row_width_app, IH, !row_width_cons, row_width_nil. lia.
Qed.

Lemma row_width_opposite (h : Z) (cs : list Z) (r : Z) :
  row_width (map (fun v => h - v) cs) r = len cs - row_width cs (h - 1 - r).
Proof.
  induction cs as [|c cs IH]; [reflexivity|].
  simpl map. rewrite !row_width_cons, IH, len_cons.
  destruct (r <=? h - c - 1) eqn:E1; destruct (h - 1 - r <=? c - 1) eqn:E2;
    compared; lia.
Qed.

Lemma rev_map_range (g : Z -> Z) (l : list Z) :
  map (fun r => g (row l (len l - 1 - r))) (range (len l)) = rev (map g l).
Proof.
  apply (nth_ext _ _ 0 0).
  - rewrite length_map, length_range, length_rev, length_map. unfold len; lia.
  - intros k Hk. rewrite length_map, length_range in Hk. unfold len in Hk.
    rewrite nth_map_range by (unfold len; lia).
    rewrite rev_nth by (rewrite length_map; lia).
    rewrite length_map.
    rewrite (nth_indep _ 0 (g 0)) by (rewrite length_map; lia).
    rewrite map_nth. unfold row, len. f_equal. f_equal. lia.
Qed.

Lemma complement_rows_spec (d : YoungDiagram) :
  wf d ->
  exists c, complement d = Ok c /\ wf c /\
    _height c = _height d /\ _width c = _width d /\
    _usual_description c =
      rev (map (fun row_length => _width d - row_length) (_usual_description d)).
Proof.
  intros Hd. destruct (complement_spec d Hd) as [c [Hc [Hwf [Hbd [Hh Hw]]]]].
  exists c. repeat (split; [assumption|]).
  destruct (wf_binary_description c Hwf) as [_ [_ [_ [_ Hrows]]]].
  destruct (wf_binary_description d Hd) as [_ [_ [HU [HR Hrowsd]]]].
  rewrite <- Hrows, Hbd, Hh.
  rewrite (column_heights_rev _ (_height d) (_height d)), HU.
  rewrite <- (rev_map_range (fun x => _width d - x) (_usual_description d)).
  rewrite (wf_len _ Hd).
  apply map_ext_in. intros r Hr. apply In_range in Hr.
  rewrite row_width_rev.
  rewrite (map_ext _ (fun v => _height d - v)) by (intros; lia).
  rewrite row_width_opposite, len_column_heights, HR. f_equal.
  rewrite <- Hrowsd. unfold row.
  rewrite nth_map_range by lia. f_equal. lia.
Qed.

(** X5.  The rows of the complement are the rows of the diagram from the bottom
    to the top, each replaced by what it leaves free of the width. *)
Theorem complement_rows (d : YoungDiagram) :
  valid d ->
  exists c, complement d = Ok c /\
    row_lengths c =
      rev (map (fun row_length => _width d - row_length) (row_lengths d)).
Proof.
  intros Hv. apply valid_wf in Hv.
  destruct (complement_rows_spec d Hv) as [c [Hc [_ [_ [_ Hrows]]]]].
  exists c. split; assumption.
Qed.

Lemma complement_rows_witness :
  exists d, __init__ 3 4 [4; 2] = Ok d /\
  exists c, complement d = Ok c /\
    row_lengths c =
      rev (map (fun row_length => _width d - row_length) (row_lengths d)).
Proof.
  eexists. split; [reflexivity|].
  apply complement_rows. exists 3, 4, [4; 2]. reflexivity.
Defined.

(** ** The triangular diagrams, on integers *)

(** X19.  On a diagram of positive height [is_upper_triangular] returns whether
    every row [r] has at most [width * (height - r) / height] cells, and
    [is_lower_triangular] returns whether every row [r] has at least
    [width * (height - 1 - r) / height] cells; both as comparisons of
    integers, without rounding. *)
Theorem triangular_criteria (d : YoungDiagram) :
  valid d -> 0 < _height d ->
  (is_upper_triangular d = Ok true <->
   forall r, 0 <= r < _height d ->
     row (row_lengths d) r * _height d <= _width d * (_height d - r)) /\
  (is_lower_triangular d = Ok true <->
   forall r, 0 <= r < _height d ->
     _width d * (_height d - 1 - r) <= row (row_lengths d) r * _height d).
Proof.
  intros Hv Hh. apply valid_wf in Hv. assert (Hl := wf_len _ Hv). split.
  - rewrite is_upper_triangular_true by exact Hh. now rewrite Hl.
  - destruct (complement_rows_spec d Hv) as [c [Hc [Hwf [Hhc [Hwc Hrows]]]]].
    unfold is_lower_triangular. rewrite Hc. cbn [bind].
    rewrite is_upper_triangular_true by lia.
    rewrite (wf_len _ Hwf), Hhc, Hwc, Hrows.
    assert (Hrow : forall r, 0 <= r < _height d ->
              row (rev (map (fun x => _width d - x) (_usual_description d))) r
              = _width d - row (_usual_description d) (_height d - 1 - r)).
    { intros r Hr. rewrite <- rev_map_range, Hl. unfold row at 1.
      rewrite nth_map_range by lia. do 3 f_equal. lia. }
    unfold row_lengths. split.
    + intros H r Hr. assert (H' := H (_height d - 1 - r) ltac:(lia)).
      rewrite Hrow in H' by lia.
      replace (_height d - 1 - (_height d - 1 - r)) with r in H' by lia.
      nia.
    + intros H r Hr. rewrite Hrow by lia.
      assert (H' := H (_height d - 1 - r) ltac:(lia)). nia.
Qed.

Lemma triangular_criteria_witness :
  exists d, __init__ 2 2 [2; 1] = Ok d /\
  (is_upper_triangular d = Ok true <->
   forall r, 0 <= r < _height d ->
     row (row_lengths d) r * _height d <= _width d * (_height d - r)) /\
  (is_lower_triangular d = Ok true <->
   forall r, 0 <= r < _height d ->
     _width d * (_height d - 1 - r) <= row (row_lengths d) r * _height d).
Proof.
  eexists. split; [reflexivity|].
  apply triangular_criteria; [|reflexivity].
  exists 2, 2, [2; 1]. reflexivity.
Defined.

(** ** The constructor from the rows alone *)

Lemma fold_max_ge (rest : list Z) : forall x,
  x <= fold_left Z.max rest x /\
  Forall (fun y => y <= fold_left Z.max rest x) rest.
Proof.
  induction rest as [|a rest IH]; intros x; simpl.
  - split; [lia | constructor].
  - destruct (IH (Z.max x a)) as [H1 H2]. split; [lia|].
    constructor; [lia | exact H2].
Qed.

Lemma fold_max_first (rest : list Z) : forall x,
  Forall (fun y => y <= x) rest -> fold_left Z.max rest x = x.
Proof.
  induction rest as [|a rest IH]; intros x H; simpl; [reflexivity|].
  inversion H; subst. replace (Z.max x a) with x by lia. now apply IH.
Qed.

(** X20.  [Construct_From_Usual_Description] fails with [ValueError] without rows.
    On rows that are non-negative and weakly decreasing it returns the
    diagram with these rows in the smallest box: as high as there are rows
    and as wide as the first row.  On all other rows it fails with
    [AssertionError]. *)
Theorem Construct_From_Usual_Description_spec (mu : list Z) :
  (mu = [] -> Construct_From_Usual_Description mu = ValueError) /\
  (mu <> [] -> weakly_decreasing mu -> Forall (fun r => 0 <= r) mu ->
   exists d, Construct_From_Usual_Description mu = NoValueError (Ok d) /\
     _height d = len mu /\ _width d = hd 0 mu /\ row_lengths d = mu) /\
  (mu <> [] -> ~ (weakly_decreasing mu /\ Forall (fun r => 0 <= r) mu) ->
   Construct_From_Usual_Description mu = NoValueError (Raise AssertionError)).
Proof.
  split; [intros ->; reflexivity|].
  destruct mu as [|first rest]; [split; intros H; now contradiction H|].
  unfold Construct_From_Usual_Description. cbn [max].
  destruct (fold_max_ge rest first) as [Hfirst Hrest].
  split.
  - intros _ Hd HF.
    assert (Hmax : fold_left Z.max rest first = first).
    { apply fold_max_first. apply Forall_forall. intros y Hy.
      destruct (In_nth _ _ 0 Hy) as [k [Hk <-]].
      apply (Hd 0%nat (S k)). simpl. lia. }
    rewrite Hmax.
    assert (Hv : valid_input (len (first :: rest)) first (first :: rest)).
    { inversion HF; subst.
      split; [apply len_nonneg|]. split; [assumption|]. split; [lia|].
      split; [exact Hd|].
      apply Forall_forall. intros y Hy. split.
      - rewrite Forall_forall in HF. now apply HF.
      - destruct (In_nth _ _ 0 Hy) as [k [Hk <-]].
        apply (Hd 0%nat k). lia. }
    destruct (init_total _ _ _ Hv) as [d Hinit].
    exists d. rewrite Hinit. split; [reflexivity|].
    destruct (init_wf _ _ _ _ Hinit) as [_ [Hh [Hw Hu]]].
    split; [exact Hh|]. split; [exact Hw|].
    unfold row_lengths. rewrite Hu. now apply padded_full.
  - intros _ H. rewrite init_Raise; [reflexivity|].
    intros [_ [_ [_ [Hd HF]]]]. apply H. split; [exact Hd|].
    revert HF. apply Forall_impl. intros; lia.
Qed.

(** ** The upper triangular diagrams of a square family *)

Lemma generate_all_Ok {A B : Type} (f : A -> result B) (l : list A) :
  (forall x, In x l -> exists b, f x = Ok b) ->
  exists ys, generate (map f l) = (ys, Finished) /\
    Forall2 (fun x y => f x = Ok y) l ys.
Proof.
  induction l as [|x l IH]; intros H.
  - exists []. split; [reflexivity | constructor].
  - destruct (H x (or_introl eq_refl)) as [b Hb].
    destruct IH as [ys [Hg HF]]; [intros; apply H; now right|].
    exists (b :: ys). simpl. rewrite Hb, Hg. split; [reflexivity|].
    now constructor.
Qed.

Lemma Forall2_In_l {A B : Type} (P : A -> B -> Prop) (l : list A) (ys : list B) :
  Forall2 P l ys -> forall x, In x l -> exists y, In y ys /\ P x y.
Proof.
  induction 1 as [|a b l ys Hab HF IH]; intros x Hx; [destruct Hx|].
  destruct Hx as [<- | Hx]; [exists b; split; [now left | exact Hab]|].
  destruct (IH x Hx) as [y [Hy Hp]]. exists y. split; [now right | exact Hp].
Qed.

Lemma Forall2_In_r {A B : Type} (P : A -> B -> Prop) (l : list A) (ys : list B) :
  Forall2 P l ys -> forall y, In y ys -> exists x, In x l /\ P x y.
Proof.
  induction 1 as [|a b l ys Hab HF IH]; intros y Hy; [destruct Hy|].
  destruct Hy as [<- | Hy]; [exists a; split; [now left | exact Hab]|].
  destruct (IH y Hy) as [x [Hx Hp]]. exists x. split; [now right | exact Hp].
Qed.

Lemma sorted_rev {A : Type} (lt : A -> A -> Prop) (l : list A) :
  StronglySorted lt l -> StronglySorted (fun a b => lt b a) (rev l).
Proof.
  induction 1 as [|a l Hl IH Ha]; [constructor|].
  simpl. apply sorted_app; [exact IH | repeat constructor |].
  intros x y Hx [<- | []]. apply in_rev in Hx.
  rewrite Forall_forall in Ha. now apply Ha.
Qed.

Lemma sorted_Forall2 {A B : Type} (lt : A -> A -> Prop) (lt' : B -> B -> Prop)
  (P : A -> B -> Prop) (l : list A) (ys : list B) :
  (forall x x' y y', P x y -> P x' y' -> lt x x' -> lt' y y') ->
  Forall2 P l ys -> StronglySorted lt l -> StronglySorted lt' ys.
Proof.
  intros Hlt. induction 1 as [|a b l ys Hab HF IH]; intros Hs; [constructor|].
  apply StronglySorted_inv in Hs. destruct Hs as [Hs Ha].
  constructor; [now apply IH|].
  apply Forall_forall. intros y Hy.
  destruct (Forall2_In_r _ _ _ HF y Hy) as [x [Hx Hp]].
  rewrite Forall_forall in Ha. eapply Hlt; eauto.
Qed.

Lemma Forall2_le_range (l : list Z) : forall g : Z -> Z,
  Forall2 Z.le l (map g (range (len l))) <->
  forall r, 0 <= r < len l -> row l r <= g r.
Proof.
  induction l as [|a l IH]; intros g.
  - split; [intros _ r Hr; cbn in Hr; lia | intros _; constructor].
  - rewrite len_cons, Z.add_comm, range_add by (try apply len_nonneg; lia).
    change (range 1) with [0]. simpl map. rewrite map_map.
    rewrite Forall2_cons_iff, (IH (fun r => g (1 + r))). split.
    + intros [H0 H] r Hr. destruct (Z.eq_dec r 0) as [->|Hne]; [exact H0|].
      assert (H' := H (r - 1) ltac:(lia)).
      replace (1 + (r - 1)) with r in H' by lia.
      unfold row in *. replace (Z.to_nat r) with (S (Z.to_nat (r - 1))) by lia.
      exact H'.
    + intros H. split; [apply (H 0); assert (Hl := len_nonneg l); lia|].
      intros r Hr. assert (H' := H (1 + r) ltac:(lia)).
      unfold row in *. replace (Z.to_nat (1 + r)) with (S (Z.to_nat r)) in H' by lia.
      exact H'.
Qed.

Lemma lex_lt_app (a b : list Z) :
  lex_lt a b -> forall a' b', lex_lt (a ++ a') (b ++ b').
Proof.
  induction 1 as [x y a b Hxy | x a b Hab IH]; intros a' b'; simpl.
  - now apply lex_lt_head.
  - apply lex_lt_tail, IH.
Qed.

(** What a square family of side [m] yields, in full. *)
Lemma square_family_yields (family : Diagrams.YoungDiagrams) (m : Z) :
  Diagrams._height family = m -> Diagrams._width family = m -> 0 < m ->
  exists yielded,
    Diagrams.get_upper_triangulars family = Ok (yielded, Finished) /\
    (forall d, In d yielded <->
       wf d /\ _height d = m /\ _width d = m /\
       forall r, 0 <= r < m -> row (_usual_description d) r <= m - 1 - r) /\
    StronglySorted
      (fun a b => lex_lt (_usual_description a) (_usual_description b)) yielded.
Proof.
  intros Hh Hw Hm. unfold Diagrams.get_upper_triangulars.
  rewrite Hh, Hw.
  replace (0 <? m) with true by (symmetry; apply Z.ltb_lt; lia).
  set (ceiling := map _ (range m)).
  assert (Hceiling : ceiling = map (fun r => m - 1 - r) (range m)).
  { unfold ceiling. apply map_ext. intros r.
    rewrite floor_quotient by exact Hm.
    rewrite Z.mul_comm, Z.div_mul by lia. lia. }
  assert (Hclen : length ceiling = Z.to_nat m)
    by (rewrite Hceiling, length_map; apply length_range).
  assert (Hin : forall rows, In rows (rev (IntegerListsLex m m ceiling)) <->
            len rows = m /\ chain m rows /\
            forall r, 0 <= r < m -> row rows r <= m - 1 - r).
  { intros rows. rewrite <- in_rev. unfold IntegerListsLex.
    rewrite (In_lists_below _ _ _ _ Hclen), Hceiling. split.
    - intros [Hl [Hc HF]].
      assert (Hl' : len rows = m) by (unfold len; lia).
      assert (HF' : Forall2 Z.le rows (map (fun r => m - 1 - r) (range (len rows))))
        by (rewrite Hl'; exact HF).
      assert (Hle := proj1 (Forall2_le_range rows (fun r => m - 1 - r)) HF').
      rewrite Hl' in Hle. auto.
    - intros [Hl [Hc HF]]. split; [unfold len in Hl; lia|]. split; [exact Hc|].
      assert (HF' : Forall2 Z.le rows (map (fun r => m - 1 - r) (range (len rows))))
        by (apply (Forall2_le_range rows (fun r => m - 1 - r)); now rewrite Hl).
      now rewrite Hl in HF'. }
  destruct (generate_all_Ok (Diagram.__init__ m m) (rev (IntegerListsLex m m ceiling)))
    as [yielded [Hg HF]].
  { intros rows Hrows. apply Hin in Hrows. destruct Hrows as [Hl [Hc _]].
    apply init_total. apply chain_iff in Hc.
    unfold valid_input. repeat split; try lia; apply Hc. }
  exists yielded. split; [f_equal; exact Hg|]. split.
  - intros d. split.
    + intros Hd. destruct (Forall2_In_r _ _ _ HF d Hd) as [rows [Hrows Hinit]].
      apply Hin in Hrows. destruct Hrows as [Hl [_ Hle]].
      destruct (init_wf _ _ _ _ Hinit) as [Hwf [Hhd [Hwd Hu]]].
      rewrite padded_full in Hu by exact Hl. rewrite Hu. auto.
    + intros [Hwf [Hhd [Hwd Hle]]].
      assert (Hrows : In (_usual_description d) (rev (IntegerListsLex m m ceiling))).
      { apply Hin. split; [rewrite <- Hhd; apply Hwf|].
        split; [rewrite <- Hwd; apply Hwf | exact Hle]. }
      destruct (Forall2_In_l _ _ _ HF _ Hrows) as [d' [Hd' Hinit]].
      assert (Hd : Diagram.__init__ m m (_usual_description d) = Ok d)
        by (rewrite <- Hhd at 1; rewrite <- Hwd; now apply init_of_wf).
      rewrite Hd in Hinit. now injection Hinit as ->.
  - apply (sorted_Forall2 lex_lt _ (fun x y => Diagram.__init__ m m x = Ok y)
             (rev (IntegerListsLex m m ceiling)) yielded).
    + intros x x' y y' Hy Hy' Hlt.
      apply init_wf in Hy, Hy'.
      destruct Hy as [_ [_ [_ ->]]]. destruct Hy' as [_ [_ [_ ->]]].
      now apply lex_lt_app.
    + exact HF.
    + apply (sorted_rev (fun a b => lex_lt b a)). apply lists_below_sorted.
Qed.

Lemma sorted_impl_in {A : Type} (lt lt' : A -> A -> Prop) (l : list A) :
  (forall a b, In a l -> In b l -> lt a b -> lt' a b) ->
  StronglySorted lt l -> StronglySorted lt' l.
Proof.
  intros H Hs. induction Hs as [|a l Hl IH Ha]; [constructor|].
  constructor.
  - apply IH. intros x y Hx Hy. apply H; now right.
  - rewrite Forall_forall in *. intros y Hy.
    apply H; [now left | now right | now apply Ha].
Qed.

(** X21.  In a family as wide as high, of side [m] at least 1,
    [get_upper_triangulars] returns a generator that ends without raising.
    It yields exactly the diagrams of the box of side [m] of which every row
    [r] has at most [m - 1 - r] cells; on each of them
    [is_upper_triangular] returns [True]; they come in increasing order of
    [__lt__]. *)
Theorem square_family_upper_triangulars (family : Diagrams.YoungDiagrams) :
  0 < Diagrams._height family ->
  Diagrams._width family = Diagrams._height family ->
  exists yielded,
    Diagrams.get_upper_triangulars family = Ok (yielded, Finished) /\
    (forall d, In d yielded <->
       valid d /\ _height d = Diagrams._height family /\
       _width d = Diagrams._height family /\
       forall r, 0 <= r < Diagrams._height family ->
         row (row_lengths d) r <= Diagrams._height family - 1 - r) /\
    (forall d, In d yielded -> is_upper_triangular d = Ok true) /\
    StronglySorted (fun a b => __lt__ a b = Ok true) yielded.
Proof.
  intros Hm Hw.
  destruct (square_family_yields family _ eq_refl Hw Hm) as [yielded [Hg [Hin Hs]]].
  exists yielded. split; [exact Hg|]. split; [|split].
  - intros d. rewrite Hin, valid_wf. reflexivity.
  - intros d Hd. apply Hin in Hd. destruct Hd as [Hwf [Hh [Hwd Hle]]].
    apply is_upper_triangular_true; [lia|].
    rewrite (wf_len _ Hwf), Hh, Hwd. intros r Hr.
    assert (H := Hle r Hr). nia.
  - revert Hs. apply sorted_impl_in. intros a b Ha Hb Hlt.
    apply Hin in Ha, Hb.
    destruct Ha as [Hwa [Hha [Hwa' _]]]. destruct Hb as [Hwb [Hhb [Hwb' _]]].
    rewrite lt_spec by (auto; congruence). f_equal.
    now apply lex_ltb_lex_lt.
Qed.

Lemma square_family_upper_triangulars_witness :
  exists yielded,
    Diagrams.get_upper_triangulars (Diagrams.mkYoungDiagrams 3 3 6)
      = Ok (yielded, Finished) /\
    (forall d, In d yielded <->
       valid d /\ _height d = 3 /\ _width d = 3 /\
       forall r, 0 <= r < 3 -> row (row_lengths d) r <= 3 - 1 - r) /\
    (forall d, In d yielded -> is_upper_triangular d = Ok true) /\
    StronglySorted (fun a b => __lt__ a b = Ok true) yielded.
Proof.
  apply (square_family_upper_triangulars (Diagrams.mkYoungDiagrams 3 3 6)).
  - simpl. lia.
  - reflexivity.
Defined.

(** ** The orbits as classes *)

Lemma same_orbit_turned (a b : YoungDiagram) :
  wf a -> (same_orbit a b <-> exists k, turned a k = b).
Proof.
  intros Ha. split; intros [k Hk]; exists k.
  - destruct (turned_spec a k Ha) as [Hc _]. congruence.
  - destruct (turned_spec a k Ha) as [Hc _]. congruence.
Qed.

Lemma same_orbit_refl (a : YoungDiagram) : wf a -> same_orbit a a.
Proof. intros Ha. apply same_orbit_turned; [exact Ha|]. exists 0%nat. now apply turned_0. Qed.

Lemma same_orbit_wf (a b : YoungDiagram) :
  wf a -> same_orbit a b ->
  wf b /\ _height b = _height a /\ _width b = _width a /\ _n b = _n a.
Proof.
  intros Ha H. apply same_orbit_turned in H; [|exact Ha]. destruct H as [k <-].
  destruct (turned_spec a k Ha) as [_ [H1 [_ [H2 [H3 H4]]]]]. auto.
Qed.

Lemma same_orbit_trans (a b c : YoungDiagram) :
  wf a -> same_orbit a b -> same_orbit b c -> same_orbit a c.
Proof.
  intros Ha Hab Hbc. destruct (same_orbit_wf a b Ha Hab) as [Hb _].
  apply same_orbit_turned in Hab, Hbc; auto.
  destruct Hab as [i <-]. destruct Hbc as [j <-].
  apply same_orbit_turned; [exact Ha|]. exists (i + j)%nat.
  symmetry. now apply turned_turned.
Qed.

Lemma same_orbit_sym (a b : YoungDiagram) :
  wf a -> same_orbit a b -> same_orbit b a.
Proof.
  intros Ha Hab. destruct (same_orbit_wf a b Ha Hab) as [Hb _].
  apply same_orbit_turned in Hab; auto. destruct Hab as [k <-].
  apply same_orbit_turned; [exact Hb|].
  exists (length (_binary_description a) * k - k)%nat.
  rewrite turned_turned by exact Ha.
  transitivity (turned a 0); [|now apply turned_0].
  apply turned_eq; [exact Ha|].
  destruct (_binary_description a) as [|c s] eqn:E.
  - generalize (k + (length (@nil ascii) * k - k))%nat. intros j.
    induction j as [|j IH]; [reflexivity|].
    unfold rotate in *. simpl. now rewrite IH.
  - replace (k + (length (c :: s) * k - k))%nat
      with (k * length (c :: s))%nat by (simpl length; nia).
    apply rotate_mul, rotate_length.
Qed.

(** The least positive period of the binary description of a diagram. *)
Lemma least_period (d : YoungDiagram) :
  wf d -> 0 < _n d ->
  exists p : nat, (0 < p <= Z.to_nat (_n d))%nat /\
    rotate p (_binary_description d) = _binary_description d /\
    forall j, (0 < j < p)%nat ->
      rotate j (_binary_description d) <> _binary_description d.
Proof.
  intros Hd Hn. assert (Hlen := length_binary_description d Hd).
  destruct (orbit_length_loop_spec (_binary_description d) (Z.to_nat (_n d)) 0)
    as [p [_ [Hpos [Hper Hmin]]]].
  { intros j Hj; lia. }
  { exists (Z.to_nat (_n d)). split; [lia|].
    rewrite <- Hlen. apply rotate_length. }
  exists p. split; [|split; assumption]. split; [exact Hpos|].
  destruct (Nat.le_gt_cases p (Z.to_nat (_n d))) as [H|H]; [exact H|].
  exfalso. apply (Hmin (Z.to_nat (_n d))); [lia|].
  rewrite <- Hlen. apply rotate_length.
Qed.

(** [cyclic_orbit] yields the diagrams of the orbit. *)
Lemma cyclic_orbit_same_orbit (d : YoungDiagram) (fuel : nat) :
  wf d -> 2 <= _n d -> (Z.to_nat (_n d) <= fuel)%nat ->
  exists orbit, cyclic_orbit fuel d = (orbit, Finished) /\
    forall x, In x orbit <-> same_orbit d x.
Proof.
  intros Hd Hn Hf.
  destruct (least_period d Hd ltac:(lia)) as [p [Hp [Hper Hmin]]].
  exists (map (turned d) (seq 0 p)). split.
  - unfold cyclic_orbit. rewrite <- (turned_0 d Hd) at 2.
    rewrite (cyclic_orbit_loop_spec d Hd Hn p Hper Hmin) by lia.
    now rewrite Nat.sub_0_r.
  - intros x. rewrite (same_orbit_turned d x Hd), in_map_iff. split.
    + intros [k [Hk _]]. now exists k.
    + intros [k <-]. exists (k mod p)%nat. split.
      * apply turned_eq; [exact Hd|].
        rewrite (Nat.div_mod_eq k p) at 2.
        rewrite Nat.add_comm, rotate_add, Nat.mul_comm, rotate_mul; auto.
      * apply in_seq. assert (H := Nat.mod_upper_bound k p). lia.
Qed.

Lemma upper_Ok (d : YoungDiagram) :
  0 < _height d -> is_upper_triangular d = Ok (upper d).
Proof.
  intros Hh. unfold upper.
  destruct (is_upper_triangular_total d Hh) as [b ->]. now destruct b.
Qed.

Lemma lex_ltb_neg_trans (a b c : list Z) :
  length a = length b -> length b = length c ->
  lex_ltb a b = false -> lex_ltb b c = false -> lex_ltb a c = false.
Proof.
  intros Hab Hbc H1 H2.
  destruct (lex_ltb a c) eqn:E; [|reflexivity]. exfalso.
  destruct (lex_ltb_trichotomy b c Hbc) as [[A _]|[[_ [A _]]|[_ [_ A]]]].
  - congruence.
  - subst c. congruence.
  - assert (H := lex_ltb_trans _ _ _ E A). congruence.
Qed.

Section Box.

Variables (height width : Z) (fuel : nat).
Hypothesis height_positive : 0 < height.
Hypothesis perimeter_2 : 2 <= height + width.
Hypothesis enough_fuel : (Z.to_nat (height + width) <= fuel)%nat.

Lemma in_box_n (d : YoungDiagram) : in_box height width d -> _n d = height + width.
Proof. intros [Hd [Hh Hw]]. rewrite (wf_n _ Hd). congruence. Qed.

Lemma in_box_length (d : YoungDiagram) :
  in_box height width d -> length (_usual_description d) = Z.to_nat height.
Proof.
  intros [Hd [Hh Hw]]. assert (H := wf_len _ Hd). unfold len in H. lia.
Qed.

Lemma in_box_same_orbit (a b : YoungDiagram) :
  in_box height width a -> same_orbit a b -> in_box height width b.
Proof.
  intros [Ha [Hh Hw]] H. destruct (same_orbit_wf a b Ha H) as [Hb [H1 [H2 _]]].
  split; [exact Hb | split; congruence].
Qed.

Lemma in_box_orbit (d : YoungDiagram) :
  in_box height width d ->
  cyclic_orbit fuel d = (fst (cyclic_orbit fuel d), Finished) /\
  forall x, In x (fst (cyclic_orbit fuel d)) <-> same_orbit d x.
Proof.
  intros Hd. assert (Hn := in_box_n d Hd). destruct Hd as [Hd _].
  destruct (cyclic_orbit_same_orbit d fuel Hd) as [orbit [Ho Hin]]; try lia.
  rewrite Ho. simpl. auto.
Qed.

Lemma in_box_lt (a b : YoungDiagram) :
  in_box height width a -> in_box height width b ->
  __lt__ a b = Ok (lex_ltb (_usual_description a) (_usual_description b)).
Proof.
  intros [Ha [Hha Hwa]] [Hb [Hhb Hwb]]. apply lt_spec; auto; congruence.
Qed.

(** The scan of an orbit keeps the upper triangular fellows and the least
    of them and of the diagram it started with. *)
Lemma scan_orbit_spec (fellows : list YoungDiagram) : forall m0 acc,
  Forall (in_box height width) fellows -> in_box height width m0 ->
  exists m,
    Diagrams.scan_orbit fellows m0 acc = Ok (m, acc ++ filter upper fellows) /\
    in_box height width m /\
    (m = m0 \/ (In m fellows /\ upper m = true)) /\
    forall x, x = m0 \/ (In x fellows /\ upper x = true) ->
      lex_ltb (_usual_description x) (_usual_description m) = false.
Proof.
  induction fellows as [|fellow rest IH]; intros m0 acc HF Hm0.
  - exists m0. simpl. rewrite app_nil_r. split; [reflexivity|]. split; [exact Hm0|].
    split; [now left|]. intros x [-> | [[] _]]. apply lex_ltb_irrefl.
  - inversion HF as [|? ? Hfellow Hrest]; subst.
    simpl Diagrams.scan_orbit.
    rewrite (upper_Ok fellow) by (destruct Hfellow as [_ [-> _]]; exact height_positive).
    cbn [bind]. simpl filter. destruct (upper fellow) eqn:Hup.
    + rewrite (in_box_lt fellow m0 Hfellow Hm0). cbn [bind].
      destruct (lex_ltb (_usual_description fellow) (_usual_description m0)) eqn:Hlt.
      * destruct (IH fellow (acc ++ [fellow]) Hrest Hfellow) as [m [Hs [Hm [Hor Hleast]]]].
        exists m. rewrite Hs, <- app_assoc. split; [reflexivity|]. split; [exact Hm|].
        split.
        -- right. destruct Hor as [-> | [Hin Hu]]; [split; [now left | exact Hup]|].
           split; [now right | exact Hu].
        -- intros x [-> | [[<- | Hin] Hu]].
           ++ assert (Hfm := Hleast fellow (or_introl eq_refl)).
              destruct (lex_ltb (_usual_description m0) (_usual_description m)) eqn:E;
                [|reflexivity].
              assert (H := lex_ltb_trans _ _ _ Hlt E). congruence.
           ++ apply Hleast. now left.
           ++ apply Hleast. right. now split.
      * destruct (IH m0 (acc ++ [fellow]) Hrest Hm0) as [m [Hs [Hm [Hor Hleast]]]].
        exists m. rewrite Hs, <- app_assoc. split; [reflexivity|]. split; [exact Hm|].
        split.
        -- destruct Hor as [-> | [Hin Hu]]; [now left|].
           right. split; [now right | exact Hu].
        -- intros x [-> | [[<- | Hin] Hu]].
           ++ apply Hleast. now left.
           ++ apply (lex_ltb_neg_trans _ (_usual_description m0)).
              ** now rewrite (in_box_length fellow), (in_box_length m0).
              ** now rewrite (in_box_length m0), (in_box_length m).
              ** exact Hlt.
              ** apply Hleast. now left.
           ++ apply Hleast. right. now split.
    + destruct (IH m0 acc Hrest Hm0) as [m [Hs [Hm [Hor Hleast]]]].
      exists m. rewrite Hs. split; [reflexivity|]. split; [exact Hm|].
      split.
      * destruct Hor as [-> | [Hin Hu]]; [now left|].
        right. split; [now right | exact Hu].
      * intros x [-> | [[<- | Hin] Hu]].
        -- apply Hleast. now left.
        -- congruence.
        -- apply Hleast. right. now split.
Qed.

(** The upper triangular diagrams of the orbit of [rep], as
    [get_minimal_upper_triangulars] records them. *)
Let recorded (rep : YoungDiagram) : list YoungDiagram :=
  filter upper (fst (cyclic_orbit fuel rep)).

Lemma appeared_iff (YD : YoungDiagram) (reps : list YoungDiagram) :
  in_box height width YD -> upper YD = true ->
  Forall (in_box height width) reps ->
  (existsb (fun cyclic_orbit => existsb (__eq__ YD) cyclic_orbit)
     (map recorded reps) = true <->
   exists rep, In rep reps /\ same_orbit rep YD).
Proof.
  intros HYD Hup Hreps. rewrite existsb_exists. split.
  - intros [co [Hco Hex]]. apply in_map_iff in Hco. destruct Hco as [rep [<- Hrep]].
    apply existsb_exists in Hex. destruct Hex as [x [Hx Heq]].
    unfold recorded in Hx. apply filter_In in Hx. destruct Hx as [Hx _].
    rewrite Forall_forall in Hreps.
    apply (in_box_orbit rep (Hreps rep Hrep)) in Hx.
    assert (Hxbox := in_box_same_orbit rep x (Hreps rep Hrep) Hx).
    apply eq_wf in Heq; [|apply HYD | apply Hxbox]. subst x.
    exists rep. split; assumption.
  - intros [rep [Hrep Hso]]. exists (recorded rep). split; [now apply in_map|].
    apply existsb_exists. exists YD. split; [|apply eq_refl_diagram].
    unfold recorded. apply filter_In. split; [|exact Hup].
    rewrite Forall_forall in Hreps.
    now apply (in_box_orbit rep (Hreps rep Hrep)).
Qed.

(** The loop of [get_minimal_upper_triangulars], started with the orbits of
    [reps] recorded, on upper triangular diagrams of the box. *)
Lemma minimal_loop_spec (YDs : list YoungDiagram) : forall reps,
  Forall (in_box height width) YDs ->
  Forall (fun d => upper d = true) YDs ->
  Forall (in_box height width) reps ->
  exists ys,
    Diagrams.minimal_loop fuel YDs Finished (map recorded reps) = (ys, Finished) /\
    Forall (fun y =>
              in_box height width y /\ upper y = true /\
              (exists YD, In YD YDs /\ same_orbit YD y) /\
              (forall rep, In rep reps -> ~ same_orbit rep y) /\
              (forall x, same_orbit y x -> upper x = true ->
                 lex_ltb (_usual_description x) (_usual_description y) = false))
      ys /\
    ForallOrdPairs (fun a b => ~ same_orbit a b) ys /\
    (forall YD, In YD YDs ->
       (exists rep, In rep reps /\ same_orbit rep YD) \/
       (exists y, In y ys /\ same_orbit YD y)).
Proof.
  induction YDs as [|YD rest IH]; intros reps HYDs Hups Hreps.
  - exists []. split; [reflexivity|]. split; [constructor|].
    split; [constructor | intros YD []].
  - inversion HYDs as [|? ? HYD Hrest]; subst.
    inversion Hups as [|? ? Hup Hrestup]; subst.
    simpl Diagrams.minimal_loop.
    destruct (existsb (fun cyclic_orbit => existsb (__eq__ YD) cyclic_orbit)
                (map recorded reps)) eqn:Happ.
    + apply (appeared_iff YD reps HYD Hup Hreps) in Happ.
      destruct (IH reps Hrest Hrestup Hreps) as [ys [Hloop [Hys [Hpairs Hcover]]]].
      exists ys. simpl negb. cbv iota. split; [exact Hloop|].
      split; [|split; [exact Hpairs|]].
      * revert Hys. apply Forall_impl.
        intros y [A [B [[YD' [C1 C2]] [D E]]]].
        repeat (split; [assumption|]). split; [|split; assumption].
        exists YD'. split; [now right | exact C2].
      * intros YD' [<- | HYD']; [now left | now apply Hcover].
    + assert (Hnew : forall rep, In rep reps -> ~ same_orbit rep YD).
      { intros rep Hrep Hso.
        assert (H : existsb (fun cyclic_orbit => existsb (__eq__ YD) cyclic_orbit)
                      (map recorded reps) = true)
          by (apply (appeared_iff YD reps HYD Hup Hreps); eauto).
        congruence. }
      simpl negb. cbv iota.
      destruct (in_box_orbit YD HYD) as [Horbit Hin].
      rewrite Horbit.
      assert (Hfellows : Forall (in_box height width) (fst (cyclic_orbit fuel YD))).
      { apply Forall_forall. intros x Hx. apply Hin in Hx.
        now apply (in_box_same_orbit YD). }
      destruct (scan_orbit_spec (fst (cyclic_orbit fuel YD)) YD [] Hfellows HYD)
        as [m [Hscan [Hm [Hor Hleast]]]].
      rewrite Hscan. simpl app. fold (recorded YD).
      assert (Hreps' : Forall (in_box height width) (reps ++ [YD]))
        by (apply Forall_app; split; [exact Hreps | now constructor]).
      destruct (IH (reps ++ [YD]) Hrest Hrestup Hreps')
        as [ys [Hloop [Hys [Hpairs Hcover]]]].
      rewrite map_app in Hloop. simpl map in Hloop. rewrite Hloop.
      assert (HYDm : same_orbit YD m).
      { destruct Hor as [-> | [Hmin _]]; [apply same_orbit_refl, HYD | now apply Hin]. }
      assert (Hmup : upper m = true) by (destruct Hor as [-> | [_ H]]; assumption).
      exists (m :: ys). split; [reflexivity|]. split; [|split].
      * constructor.
        -- split; [exact Hm|]. split; [exact Hmup|].
           split; [exists YD; split; [now left | exact HYDm]|]. split.
           ++ intros rep Hrep Hso. apply (Hnew rep Hrep).
              rewrite Forall_forall in Hreps.
              apply (same_orbit_trans rep m YD); [apply (Hreps rep Hrep) | exact Hso|].
              apply same_orbit_sym; [apply HYD | exact HYDm].
           ++ intros x Hx Hxup. apply Hleast. right. split; [|exact Hxup].
              apply Hin. apply (same_orbit_trans YD m x); [apply HYD | exact HYDm | exact Hx].
        -- revert Hys. apply Forall_impl.
           intros y [A [B [[YD' [C1 C2]] [D E]]]].
           repeat (split; [assumption|]). split; [|split; [|exact E]].
           ++ exists YD'. split; [now right | exact C2].
           ++ intros rep Hrep. apply D. apply in_or_app. now left.
      * constructor; [|exact Hpairs].
        rewrite Forall_forall in *. intros y Hy Hso.
        destruct (Hys y Hy) as [_ [_ [_ [D _]]]].
        apply (D YD); [apply in_or_app; right; now left|].
        apply (same_orbit_trans YD m y); [apply HYD | exact HYDm | exact Hso].
      * intros YD' [<- | HYD'].
        -- right. exists m. split; [now left | exact HYDm].
        -- destruct (Hcover YD' HYD') as [[rep [Hrep Hso]] | [y [Hy Hso]]].
           ++ apply in_app_or in Hrep. destruct Hrep as [Hrep | [<- | []]].
              ** left. exists rep. split; assumption.
              ** right. exists m. split; [now left|].
                 rewrite Forall_forall in Hrest.
                 apply (same_orbit_trans YD' YD m);
                   [apply (in_box_same_orbit YD YD' HYD Hso) | | exact HYDm].
                 apply same_orbit_sym; [apply HYD | exact Hso].
           ++ right. exists y. split; [now right | exact Hso].
Qed.

End Box.

Lemma upper_true (d : YoungDiagram) :
  upper d = true <-> is_upper_triangular d = Ok true.
Proof.
  unfold upper. destruct (is_upper_triangular d) as [[|]|e]; split;
    intros H; try reflexivity; try discriminate.
Qed.

(** ** The minimal upper triangular diagrams of a square family *)

(** X22.  In a family as wide as high, of side [m] at least 1, and with fuel for
    the orbits, [get_minimal_upper_triangulars] ends without raising.  Each
    diagram it yields is a diagram of the box on which
    [is_upper_triangular] returns [True], and no diagram of its orbit on
    which [is_upper_triangular] returns [True] is less than it; no two of
    the diagrams it yields are in one orbit; and the orbit of every diagram
    that [get_upper_triangulars] yields, that is of every diagram of the
    box with at most [m - 1 - r] cells in each row [r], has one of the
    yielded diagrams in it. *)
Theorem square_family_minimal_upper_triangulars
  (family : Diagrams.YoungDiagrams) (fuel : nat) :
  0 < Diagrams._height family ->
  Diagrams._width family = Diagrams._height family ->
  (Z.to_nat (2 * Diagrams._height family) <= fuel)%nat ->
  exists yielded,
    Diagrams.get_minimal_upper_triangulars fuel family = (yielded, Finished) /\
    (forall y, In y yielded ->
       valid y /\ _height y = Diagrams._height family /\
       _width y = Diagrams._height family /\
       is_upper_triangular y = Ok true /\
       forall x, same_orbit y x -> is_upper_triangular x = Ok true ->
         __lt__ x y = Ok false) /\
    ForallOrdPairs (fun a b => ~ same_orbit a b) yielded /\
    (forall d, valid d -> _height d = Diagrams._height family ->
       _width d = Diagrams._height family ->
       (forall r, 0 <= r < Diagrams._height family ->
          row (row_lengths d) r <= Diagrams._height family - 1 - r) ->
       exists y, In y yielded /\ same_orbit d y).
Proof.
  intros Hm Hw Hfuel. set (m := Diagrams._height family) in *.
  destruct (square_family_yields family m eq_refl Hw Hm) as [YDs [Hg [Hin _]]].
  assert (Hbox : Forall (in_box m m) YDs).
  { apply Forall_forall. intros d Hd. apply Hin in Hd. unfold in_box. tauto. }
  assert (Hup : Forall (fun d => upper d = true) YDs).
  { apply Forall_forall. intros d Hd. apply Hin in Hd.
    destruct Hd as [Hwf [Hh [Hwd Hle]]].
    apply upper_true, is_upper_triangular_true; [lia|].
    rewrite (wf_len _ Hwf), Hh, Hwd. intros r Hr.
    assert (H := Hle r Hr). nia. }
  destruct (minimal_loop_spec m m fuel Hm ltac:(lia)
              ltac:(replace (m + m) with (2 * m) by lia; exact Hfuel)
              YDs [] Hbox Hup (Forall_nil _))
    as [ys [Hloop [Hys [Hpairs Hcover]]]].
  exists ys. unfold Diagrams.get_minimal_upper_triangulars. rewrite Hg.
  split; [exact Hloop|]. split; [|split; [exact Hpairs|]].
  - intros y Hy. rewrite Forall_forall in Hys.
    destruct (Hys y Hy) as [[Hwf [Hh Hwd]] [Hupy [_ [_ Hleast]]]].
    split; [now apply valid_wf|]. split; [exact Hh|]. split; [exact Hwd|].
    split; [now apply upper_true|].
    intros x Hx Hxup.
    assert (Hxbox : in_box m m x).
    { apply (in_box_same_orbit m m y x); [|exact Hx]. unfold in_box. auto. }
    rewrite (in_box_lt m m x y Hxbox) by (unfold in_box; auto).
    f_equal. apply Hleast; [exact Hx | now apply upper_true].
  - intros d Hv Hh Hwd Hle. apply valid_wf in Hv.
    assert (Hd : In d YDs) by (apply Hin; auto).
    destruct (Hcover d Hd) as [[rep [[] _]] | H]. exact H.
Qed.

Lemma square_family_minimal_upper_triangulars_witness :
  exists yielded,
    Diagrams.get_minimal_upper_triangulars 6 (Diagrams.mkYoungDiagrams 3 3 6)
      = (yielded, Finished) /\
    (forall y, In y yielded ->
       valid y /\ _height y = 3 /\ _width y = 3 /\
       is_upper_triangular y = Ok true /\
       forall x, same_orbit y x -> is_upper_triangular x = Ok true ->
         __lt__ x y = Ok false) /\
    ForallOrdPairs (fun a b => ~ same_orbit a b) yielded /\
    (forall d, valid d -> _height d = 3 -> _width d = 3 ->
       (forall r, 0 <= r < 3 -> row (row_lengths d) r <= 3 - 1 - r) ->
       exists y, In y yielded /\ same_orbit d y).
Proof.
  apply (square_family_minimal_upper_triangulars (Diagrams.mkYoungDiagrams 3 3 6) 6).
  - simpl. lia.
  - reflexivity.
  - simpl. lia.
Defined.

(** ** Families higher than wide *)

Lemma generate_all_Raise {A B : Type} (f : A -> result B) (l : list A) (e : exn) :
  l <> [] -> (forall x, In x l -> f x = Raise e) ->
  generate (map f l) = ([], Raised e).
Proof.
  destruct l as [|x l]; intros Hl H; [contradiction|].
  simpl. now rewrite (H x (or_introl eq_refl)).
Qed.

Lemma row_repeat_0 (k : nat) (r : Z) : row (repeat 0 k) r = 0.
Proof.
  unfold row. revert k. induction (Z.to_nat r) as [|i IH]; intros [|k]; simpl; auto.
Qed.

(** X23.  In a family higher than wide both enumerators fail with
    [AssertionError] before they yield a diagram: the rows are more than
    the constructor accepts for the height it is given, which is the width
    of the family. *)
Theorem tall_family_raises (family : Diagrams.YoungDiagrams) (fuel : nat) :
  0 <= Diagrams._width family ->
  Diagrams._width family < Diagrams._height family ->
  Diagrams.get_upper_triangulars family = Ok ([], Raised AssertionError) /\
  Diagrams.get_minimal_upper_triangulars fuel family = ([], Raised AssertionError).
Proof.
  intros Hw Hh. set (h := Diagrams._height family) in *.
  set (w := Diagrams._width family) in *.
  assert (Hg : Diagrams.get_upper_triangulars family = Ok ([], Raised AssertionError)).
  { unfold Diagrams.get_upper_triangulars. fold h w.
    replace (0 <? h) with true by (symmetry; apply Z.ltb_lt; lia).
    set (ceiling := map _ (range h)).
    assert (Hclen : length ceiling = Z.to_nat h)
      by (unfold ceiling; rewrite length_map; apply length_range).
    f_equal.
    apply (generate_all_Raise (fun rows => Diagram.__init__ w h rows)).
    - assert (Hzero : In (repeat 0 (Z.to_nat h)) (IntegerListsLex w h ceiling)).
      { unfold IntegerListsLex. apply (In_lists_below _ _ _ _ Hclen).
        split; [apply repeat_length|].
        split; [apply (chain_pad [] (Z.to_nat h) w Hw I)|].
        assert (Hl : len (repeat 0 (Z.to_nat h)) = h) by (rewrite len_repeat; lia).
        unfold ceiling.
        match goal with |- Forall2 Z.le ?z (map ?g (range h)) =>
          assert (HF : Forall2 Z.le z (map g (range (len z)))) end.
        { apply Forall2_le_range. intros r Hr. rewrite Hl in Hr.
          rewrite row_repeat_0, floor_quotient by lia.
          apply Z.div_pos; [|lia]. apply Z.mul_nonneg_nonneg; lia. }
        now rewrite Hl in HF. }
      intros E. apply in_rev in Hzero. rewrite E in Hzero. destruct Hzero.
    - intros rows Hrows. apply in_rev in Hrows.
      unfold IntegerListsLex in Hrows.
      apply (In_lists_below _ _ _ _ Hclen) in Hrows. destruct Hrows as [Hl _].
      apply init_Raise. intros [_ [_ [Hlen _]]]. unfold len in Hlen. lia. }
  split; [exact Hg|].
  unfold Diagrams.get_minimal_upper_triangulars. now rewrite Hg.
Qed.

Lemma tall_family_raises_witness :
  Diagrams.get_upper_triangulars (Diagrams.mkYoungDiagrams 3 2 5)
    = Ok ([], Raised AssertionError) /\
  Diagrams.get_minimal_upper_triangulars 5 (Diagrams.mkYoungDiagrams 3 2 5)
    = ([], Raised AssertionError).
Proof.
  apply (tall_family_raises (Diagrams.mkYoungDiagrams 3 2 5) 5); simpl; lia.
Defined.

(** ** What a family yields, whatever its box *)

Lemma row_padded (height : Z) (rows : list Z) (r : Z) :
  0 <= r < len rows -> row (padded height rows) r = row rows r.
Proof.
  intros Hr. unfold row, padded. apply app_nth1. unfold len in Hr. lia.
Qed.

(** X24.  Whatever the height and width of a family, every diagram that
    [get_upper_triangulars] yields is a diagram of the constructor in the
    box with height and width exchanged: as high as the family is wide and
    as wide as the family is high; and each of its first [height] rows [r]
    has at most [width * (height - 1 - r) / height] cells, for the height
    and width of the family. *)
Theorem upper_triangulars_in_swapped_box (family : Diagrams.YoungDiagrams)
  (yielded : list YoungDiagram) (e : ending) (d : YoungDiagram) :
  Diagrams.get_upper_triangulars family = Ok (yielded, e) ->
  In d yielded ->
  valid d /\
  _height d = Diagrams._width family /\ _width d = Diagrams._height family /\
  forall r, 0 <= r < Diagrams._height family ->
    row (row_lengths d) r * Diagrams._height family
    <= Diagrams._width family * (Diagrams._height family - 1 - r).
Proof.
  intros Hg Hd.
  destruct (upper_triangulars_swap_the_box family yielded e d Hg Hd) as [Hh Hw].
  unfold Diagrams.get_upper_triangulars in Hg.
  destruct (0 <? Diagrams._height family) eqn:Hpos; [|discriminate].
  apply Z.ltb_lt in Hpos.
  set (ceiling := map _ (range (Diagrams._height family))) in Hg.
  assert (Hceiling : ceiling =
            map (fun r => Diagrams._width family * (Diagrams._height family - r - 1)
                          / Diagrams._height family)
              (range (Diagrams._height family))).
  { unfold ceiling. apply map_ext. intros r. now apply floor_quotient. }
  clearbody ceiling. subst ceiling. injection Hg as Hg.
  assert (Hin : In d (fst (yielded, e))) by exact Hd.
  rewrite <- Hg in Hin. apply generate_In, in_map_iff in Hin.
  destruct Hin as [rows [Hinit Hrows]].
  split; [exists (Diagrams._width family), (Diagrams._height family), rows; exact Hinit|].
  split; [exact Hh|]. split; [exact Hw|].
  apply in_rev in Hrows. unfold IntegerListsLex in Hrows.
  apply In_lists_below in Hrows; [|rewrite length_map; apply length_range].
  destruct Hrows as [Hl [_ HF]].
  assert (Hlen : len rows = Diagrams._height family) by (unfold len; lia).
  match type of HF with Forall2 Z.le rows (map ?g _) =>
    assert (Hle : forall r, 0 <= r < len rows -> row rows r <= g r)
      by (apply Forall2_le_range; rewrite Hlen; exact HF) end.
  destruct (init_wf _ _ _ _ Hinit) as [_ [_ [_ Hu]]].
  intros r Hr. unfold row_lengths. rewrite Hu, row_padded by lia.
  assert (H := Hle r ltac:(lia)). cbv beta in H.
  assert (H' := Z.mul_div_le
                  (Diagrams._width family * (Diagrams._height family - r - 1))
                  (Diagrams._height family) Hpos).
  replace (Diagrams._height family - 1 - r)
    with (Diagrams._height family - r - 1) by lia.
  nia.
Qed.

Lemma upper_triangulars_in_swapped_box_witness :
  valid (mkYoungDiagram 2 1 3 [0; 0] [U; U; R]) /\
  _height (mkYoungDiagram 2 1 3 [0; 0] [U; U; R]) = 2 /\
  _width (mkYoungDiagram 2 1 3 [0; 0] [U; U; R]) = 1 /\
  forall r, 0 <= r < 1 ->
    row (row_lengths (mkYoungDiagram 2 1 3 [0; 0] [U; U; R])) r * 1
    <= 2 * (1 - 1 - r).
Proof.
  apply (upper_triangulars_in_swapped_box (Diagrams.mkYoungDiagrams 1 2 3)
           [mkYoungDiagram 2 1 3 [0; 0] [U; U; R]] Finished).
  - reflexivity.
  - now left.
Defined.
